(** * pyquafu: gate algebra, layering scheduler and OpenQASM codec

    A shallow embedding of [quafu/elements/quantum_element/quantum_gate.py]
    and [quafu/quantum_circuit.py].  Python lists are Rocq lists, Python
    [int]s are [Z] (qubit positions, register sizes) or [nat] (lengths and
    list indices), a raised exception is [None], a [dict] is an
    insertion-ordered association list and [str] is a list of characters. *)

From Stdlib Require Import Ascii String.
From Stdlib Require Import ZArith List Bool Lia Permutation Sorted PrimFloat.
Import ListNotations.

Set Implicit Arguments.

(** ** Python primitives *)

(** [text] stands for Python's [str]; literals are written as Rocq strings. *)
Abbreviation text := (list ascii).

Definition lit (s : string) : text := list_ascii_of_string s.

(** The option monad carries Python exceptions: [None] is "an exception was
    raised". *)
Definition bind {X Y : Type} (m : option X) (k : X -> option Y) : option Y :=
  match m with
  | Some x => k x
  | None => None
  end.

Notation "x <- m ;; k" := (bind m (fun x => k))
  (at level 61, m at next level, right associativity).

(** [l[i]] for a Python list of length [n]: a negative index counts from the
    end, anything outside [-n, n) raises IndexError. *)
Definition py_index (n : nat) (i : Z) : option nat :=
  if (0 <=? i)%Z && (i <? Z.of_nat n)%Z then Some (Z.to_nat i)
  else if (- Z.of_nat n <=? i)%Z && (i <? 0)%Z then Some (Z.to_nat (Z.of_nat n + i))
  else None.

(** [range(lo, hi)] over Python integers. *)
Definition zrange (lo hi : Z) : list Z :=
  map (fun k => (lo + Z.of_nat k)%Z) (seq 0 (Z.to_nat (hi - lo))).

(** [min(l)] and [max(l)]; both raise ValueError on an empty list. *)
Definition py_min (l : list Z) : option Z :=
  match l with
  | [] => None
  | x :: l' => Some (fold_left Z.min l' x)
  end.

Definition py_max (l : list Z) : option Z :=
  match l with
  | [] => None
  | x :: l' => Some (fold_left Z.max l' x)
  end.

Fixpoint mapi_from {X Y : Type} (i : nat) (f : nat -> X -> Y) (l : list X) : list Y :=
  match l with
  | [] => []
  | x :: l' => f i x :: mapi_from (S i) f l'
  end.

Definition mapi {X Y : Type} (f : nat -> X -> Y) (l : list X) : list Y :=
  mapi_from 0 f l.

(** Position of the first occurrence of [j] in [l]. *)
Fixpoint index_of (j : nat) (l : list nat) : nat :=
  match l with
  | [] => 0
  | x :: l' => if x =? j then 0 else S (index_of j l')
  end.

Fixpoint index_ofZ (j : Z) (l : list Z) : nat :=
  match l with
  | [] => 0
  | x :: l' => if (x =? j)%Z then 0 else S (index_ofZ j l')
  end.

(** ** Gate algebra ([quantum_gate.py]) *)

(** [np.argsort(pos)]: the indices that sort [pos].  The keys are sorted
    together with their index by a stable insertion sort; on distinct keys
    every sorting algorithm gives this answer. *)
Fixpoint insert_key (x : Z * nat) (l : list (Z * nat)) : list (Z * nat) :=
  match l with
  | [] => [x]
  | y :: l' => if (fst x <=? fst y)%Z then x :: l else y :: insert_key x l'
  end.

Definition sort_keys (l : list (Z * nat)) : list (Z * nat) :=
  fold_right insert_key [] l.

Definition argsort (pos : list Z) : list nat :=
  map snd (sort_keys (combine pos (seq 0 (length pos)))).

(** Multi-indices of a tensor of shape [[2] * n], row-major: the first axis
    is the most significant bit of the flat index. *)
Fixpoint to_bits (n i : nat) : list bool :=
  match n with
  | O => []
  | S n' => to_bits n' (i / 2) ++ [Nat.odd i]
  end.

Definition from_bits (bs : list bool) : nat :=
  fold_left (fun a b => 2 * a + Nat.b2n b) bs 0.

(** [np.transpose(t, axes)] on a tensor of shape [[2] * n] stored flat:
    axis [i] of the result is axis [axes[i]] of [t], so the entry at
    multi-index [x] is [t[y]] with [y[axes[i]] = x[i]]. *)
Definition transpose_src (axes : list nat) (idx : nat) : nat :=
  let n := length axes in
  let x := to_bits n idx in
  from_bits (map (fun j => nth (index_of j axes) x false) (seq 0 n)).

(** [.reshape([rows, dim])] of flat data. *)
Fixpoint chunks {X : Type} (rows dim : nat) (l : list X) : list (list X) :=
  match rows with
  | O => []
  | S r => firstn dim l :: chunks r dim (skipn dim l)
  end.

Section GateAlgebra.

(** Matrix entries (complex numbers in the source); only 0 and 1 are ever
    created by the code below, everything else is moved around. *)
Variable A : Type.
Variables c0 c1 : A.

Definition matrix := list (list A).

Definition transpose_flat (flat : list A) (axes : list nat) : list A :=
  map (fun idx => nth (transpose_src axes idx) flat c0) (seq 0 (length flat)).

(** [reorder_matrix(matrix, pos)].  [matrix.reshape([2] * 2 * qnum)] raises
    ValueError unless the matrix holds exactly [2 ^ (2 * qnum)] entries. *)
Definition reorder_matrix (m : matrix) (pos : list Z) : option matrix :=
  let qnum := length pos in
  let dim := 2 ^ qnum in
  let inds := argsort pos in
  let inds := inds ++ map (fun i => i + qnum) inds in
  let flat := concat m in
  if length flat =? 2 ^ (2 * qnum)
  then Some (chunks dim dim (transpose_flat flat inds))
  else None.

(** [np.eye(dim, dtype=complex)] *)
Definition eye (dim : nat) : matrix :=
  map (fun i => map (fun j => if i =? j then c1 else c0) (seq 0 dim)) (seq 0 dim).

(** [m[cd:, cd:] = u] with numpy's broadcasting: the block has
    [len - cd] rows and columns (none when [cd] is past the end) and [u],
    of shape [(r, s)], fits when each of [r], [s] equals the block's size
    or is 1; otherwise ValueError. *)
Definition set_block (m : matrix) (cd : nat) (u : matrix) : option matrix :=
  let h := length m - cd in
  let w := length (hd [] m) - cd in
  let r := length u in
  let s := length (hd [] u) in
  if ((r =? h) || (r =? 1)) && ((s =? w) || (s =? 1)) then
    Some (mapi (fun i row =>
                  mapi (fun j x =>
                          if (cd <=? i) && (cd <=? j)
                          then nth (if s =? 1 then 0 else j - cd)
                                   (nth (if r =? 1 then 0 else i - cd) u []) x
                          else x) row) m)
  else None.

(** The matrix set up by [ControlledGate.__init__]. *)
Definition controlled_matrix (ctrls targs : list Z) (tar_matrix : matrix)
  : option matrix :=
  let pos := ctrls ++ targs in
  let targ_dim := 2 ^ length targs in
  let ctrl_dim := 2 ^ length ctrls in
  let dim := targ_dim + ctrl_dim in
  let m := eye dim in
  let control_dim := 2 ^ length pos - targ_dim in
  m <- set_block m control_dim tar_matrix ;;
  reorder_matrix m pos.

End GateAlgebra.

(** ** Python string operations *)

Definition nl : ascii := ascii_of_nat 10.
Definition cr : ascii := ascii_of_nat 13.

(** The line boundaries of [str.splitlines] below code point 256. *)
Definition is_linebreak (c : ascii) : bool :=
  existsb (Nat.eqb (nat_of_ascii c)) [10; 11; 12; 13; 28; 29; 30; 133].

(** [s.splitlines()]: a CR LF pair is one boundary and no empty last line is
    produced after a final boundary. *)
Fixpoint splitlines (s : text) : list text :=
  match s with
  | [] => []
  | c :: s' =>
      if is_linebreak c then
        match s' with
        | c' :: s'' =>
            if Ascii.eqb c cr && Ascii.eqb c' nl then [] :: splitlines s''
            else [] :: splitlines s'
        | [] => [[]]
        end
      else
        match splitlines s' with
        | l :: ls => (c :: l) :: ls
        | [] => [[c]]
        end
  end.

(** [s.split(" ", 1)]: the part before the first space and, when there is
    a space, the part after it. *)
Fixpoint split_space (s : text) : text * option text :=
  match s with
  | [] => ([], None)
  | c :: s' =>
      if Ascii.eqb c " " then ([], Some s')
      else let (a, b) := split_space s' in (c :: a, b)
  end.

(** [s.split(ch)] *)
Fixpoint split_on (ch : ascii) (s : text) : list text :=
  match s with
  | [] => [[]]
  | c :: s' =>
      if Ascii.eqb c ch then [] :: split_on ch s'
      else match split_on ch s' with
           | l :: ls => (c :: l) :: ls
           | [] => [[c]]
           end
  end.

Fixpoint lstrip (p : ascii -> bool) (s : text) : text :=
  match s with
  | [] => []
  | c :: s' => if p c then lstrip p s' else s
  end.

(** [s.strip("()")] *)
Definition is_paren (c : ascii) : bool := Ascii.eqb c "(" || Ascii.eqb c ")".

Definition strip_parens (s : text) : text :=
  rev (lstrip is_paren (rev (lstrip is_paren s))).

Definition is_digit (c : ascii) : bool :=
  (48 <=? nat_of_ascii c) && (nat_of_ascii c <=? 57).

(** [re.findall("\d+", s)]: the maximal runs of decimal digits, left to
    right. *)
Fixpoint findall_digits (s : text) : list text :=
  match s with
  | [] => []
  | c :: s' =>
      if is_digit c then
        match s' with
        | d :: _ =>
            if is_digit d then
              match findall_digits s' with
              | r :: rs => (c :: r) :: rs
              | [] => [[c]]
              end
            else [c] :: findall_digits s'
        | [] => [[c]]
        end
      else findall_digits s'
  end.

(** [int(s)] on a string of decimal digits. *)
Definition py_int (s : text) : Z :=
  fold_left (fun a c => (10 * a + Z.of_nat (nat_of_ascii c - 48))%Z) s 0%Z.

(** ["%d" % z] *)
Fixpoint little_digits (fuel n : nat) : list ascii :=
  match fuel with
  | O => []
  | S f =>
      ascii_of_nat (48 + n mod 10)
        :: (if n / 10 =? 0 then [] else little_digits f (n / 10))
  end.

Definition fmt_nat (n : nat) : text := rev (little_digits (S n) n).

Definition fmt_d (z : Z) : text :=
  if (z <? 0)%Z then "-"%char :: fmt_nat (Z.abs_nat z) else fmt_nat (Z.abs_nat z).

(** [s.lower()] on ASCII letters. *)
Definition lower_char (c : ascii) : ascii :=
  let n := nat_of_ascii c in
  if (65 <=? n) && (n <=? 90) then ascii_of_nat (n + 32) else c.

Definition lower (s : text) : text := map lower_char s.

(** [sep.join(l)] *)
Fixpoint join (sep : text) (l : list text) : text :=
  match l with
  | [] => []
  | [x] => x
  | x :: l' => x ++ sep ++ join sep l'
  end.

(** ** Dictionaries

    A [dict] keeps its keys in insertion order; assigning to a key that is
    present keeps its place. *)
Abbreviation dict := (list (Z * Z)).

Fixpoint dict_set (k v : Z) (d : dict) : dict :=
  match d with
  | [] => [(k, v)]
  | (k', v') :: d' =>
      if (k' =? k)%Z then (k, v) :: d' else (k', v') :: dict_set k v d'
  end.

(** [dict(zip(ks, vs))] *)
Definition dict_zip (ks vs : list Z) : dict :=
  fold_left (fun d kv => dict_set (fst kv) (snd kv) d) (combine ks vs) [].

Definition dict_keys (d : dict) : list Z := map fst d.

(** ** Gates

    The gate classes the builder of [quantum_circuit.py] instantiates, grouped
    by the base classes that [layered_circuit] and [to_openqasm] test with
    [isinstance]. *)
Inductive single_name := HGate | XGate | YGate | ZGate.
Inductive rotation_name := RXGate | RYGate | RZGate.
Inductive two_name := CXGate | CYGate | CZGate | SwapGate.

Inductive gate : Type :=
| FixedSingleQubitGate (cls : single_name) (pos : Z)
| ParaSingleQubitGate (cls : rotation_name) (pos : Z) (paras : float)
| FixedTwoQubitGate (cls : two_name) (pos0 pos1 : Z)
| Barrier (pos : list Z).

(** Modelled from the spec: the [name] attribute of each gate class is set
    in [element_gates.py], which is not part of the sources at hand; the
    names are the upper-case forms of the mnemonics the codec exchanges. *)
Definition single_gate_name (c : single_name) : text :=
  match c with
  | HGate => lit "H" | XGate => lit "X" | YGate => lit "Y" | ZGate => lit "Z"
  end.

Definition rotation_gate_name (c : rotation_name) : text :=
  match c with
  | RXGate => lit "RX" | RYGate => lit "RY" | RZGate => lit "RZ"
  end.

Definition two_gate_name (c : two_name) : text :=
  match c with
  | CXGate => lit "CX" | CYGate => lit "CY" | CZGate => lit "CZ"
  | SwapGate => lit "SWAP"
  end.

Definition gate_name (g : gate) : text :=
  match g with
  | FixedSingleQubitGate c _ => single_gate_name c
  | ParaSingleQubitGate c _ _ => rotation_gate_name c
  | FixedTwoQubitGate c _ _ => two_gate_name c
  | Barrier _ => lit "barrier"
  end.

(** [gate.pos] as a list (an [int] for single-qubit gates in the source). *)
Definition gate_pos (g : gate) : list Z :=
  match g with
  | FixedSingleQubitGate _ p => [p]
  | ParaSingleQubitGate _ p _ => [p]
  | FixedTwoQubitGate _ p q => [p; q]
  | Barrier ps => ps
  end.

(** ** The circuit container

    The fields [backend], [_compile], [circuit] and [used_qubits] (a cache of
    the last layout) play no part in what follows and are left out. *)
Record QuantumCircuit : Type := mkCircuit {
  num : Z;
  shots : Z;
  tomo : bool;
  gates : list gate;
  openqasm : text;
  measures : dict
}.

Definition set_gates (c : QuantumCircuit) (gs : list gate) : QuantumCircuit :=
  mkCircuit (num c) (shots c) (tomo c) gs (openqasm c) (measures c).

Definition set_measures (c : QuantumCircuit) (m : dict) : QuantumCircuit :=
  mkCircuit (num c) (shots c) (tomo c) (gates c) (openqasm c) m.

Definition set_num (c : QuantumCircuit) (n : Z) : QuantumCircuit :=
  mkCircuit n (shots c) (tomo c) (gates c) (openqasm c) (measures c).

Definition set_openqasm (c : QuantumCircuit) (t : text) : QuantumCircuit :=
  mkCircuit (num c) (shots c) (tomo c) (gates c) t (measures c).

(** [QuantumCircuit(num)] *)
Definition new_circuit (n : Z) : QuantumCircuit :=
  mkCircuit n 1000 false [] [] (dict_zip (zrange 0 n) (zrange 0 n)).

(** [self.gates.append(g); return self] *)
Definition append_gate (c : QuantumCircuit) (g : gate) : QuantumCircuit :=
  set_gates c (gates c ++ [g]).

Definition h (c : QuantumCircuit) (pos : Z) := append_gate c (FixedSingleQubitGate HGate pos).
Definition x (c : QuantumCircuit) (pos : Z) := append_gate c (FixedSingleQubitGate XGate pos).
Definition y (c : QuantumCircuit) (pos : Z) := append_gate c (FixedSingleQubitGate YGate pos).
Definition z (c : QuantumCircuit) (pos : Z) := append_gate c (FixedSingleQubitGate ZGate pos).

(** [if para != 0.: self.gates.append(...)], with the comparison of IEEE
    floats. *)
Definition rotation (cls : rotation_name) (c : QuantumCircuit) (pos : Z) (para : float)
  : QuantumCircuit :=
  if negb (PrimFloat.eqb para 0%float)
  then append_gate c (ParaSingleQubitGate cls pos para)
  else c.

Definition rx := rotation RXGate.
Definition ry := rotation RYGate.
Definition rz := rotation RZGate.

Definition cnot (c : QuantumCircuit) (ctrl tar : Z) := append_gate c (FixedTwoQubitGate CXGate ctrl tar).
Definition cy (c : QuantumCircuit) (ctrl tar : Z) := append_gate c (FixedTwoQubitGate CYGate ctrl tar).
Definition cz (c : QuantumCircuit) (ctrl tar : Z) := append_gate c (FixedTwoQubitGate CZGate ctrl tar).
Definition swap (c : QuantumCircuit) (q1 q2 : Z) := append_gate c (FixedTwoQubitGate SwapGate q1 q2).
Definition barrier (c : QuantumCircuit) (qlist : list Z) := append_gate c (Barrier qlist).

(** How a call ends: it returns, or it raises the named exception.  A call
    that raises has still made the assignments that precede the [raise]. *)
Inductive outcome := Returned | Raised (exn : string).

(** [measure(pos, shots, cbits, tomo)] *)
Definition measure (c : QuantumCircuit) (pos : list Z) (shots' : Z) (cbits : list Z)
           (tomo' : bool) : QuantumCircuit * outcome :=
  let c1 := mkCircuit (num c) shots' tomo' (gates c) (openqasm c)
                      (dict_zip pos (zrange 0 (Z.of_nat (length pos)))) in
  match cbits with
  | [] => (c1, Returned)
  | _ :: _ =>
      if length cbits =? length (measures c1)
      then (set_measures c1 (dict_zip pos cbits), Returned)
      else (c1, Raised "CircuitError")
  end.

(** ** The layering scheduler ([layered_circuit]) *)

Abbreviation wire := (list (option gate)).

Fixpoint update_row {X : Type} (i : nat) (f : X -> X) (l : list X) : list X :=
  match l, i with
  | [], _ => []
  | r :: l', O => f r :: l'
  | r :: l', S i' => r :: update_row i' f l'
  end.

(** [l.insert(pos, v)] for [0 <= pos] *)
Definition list_insert {X : Type} (pos : nat) (v : X) (l : list X) : list X :=
  firstn pos l ++ v :: skipn pos l.

Fixpoint foldM {S X : Type} (f : S -> X -> option S) (l : list X) (s : S) : option S :=
  match l with
  | [] => Some s
  | a :: l' => s' <- f s a ;; foldM f l' s'
  end.

(** [if q not in used_qubits: used_qubits.append(q)] *)
Definition mark_used (used : list Z) (q : Z) : list Z :=
  if existsb (Z.eqb q) used then used else used ++ [q].

(** [gateQlist[j].append(v)] *)
Definition append_to (v : option gate) (q : list wire) (j : Z) : option (list wire) :=
  i <- py_index (length q) j ;;
  Some (update_row i (fun w => w ++ [v]) q).

(** [len(gateQlist[j])] *)
Definition wire_len (q : list wire) (j : Z) : option nat :=
  i <- py_index (length q) j ;;
  Some (length (nth i q [])).

Fixpoint mapM {X Y : Type} (f : X -> option Y) (l : list X) : option (list Y) :=
  match l with
  | [] => Some []
  | a :: l' => b <- f a ;; bs <- mapM f l' ;; Some (b :: bs)
  end.

(** [max(l)] on lengths; ValueError on an empty list. *)
Definition max_len (l : list nat) : option nat :=
  match l with
  | [] => None
  | a :: l' => Some (fold_left Nat.max l' a)
  end.

(** The body of the loop that left-justifies wire [j] of a span. *)
Definition justify (maxlayer : nat) (q : list wire) (j : Z) : option (list wire) :=
  i <- py_index (length q) j ;;
  let layerj := length (nth i q []) in
  let pos := layerj - 1 in
  if layerj =? maxlayer then Some q
  else Some (update_row i
               (Nat.iter (Z.abs_nat (Z.of_nat layerj - Z.of_nat maxlayer))
                         (list_insert pos None)) q).

(** The branch for barriers and two-qubit gates. *)
Definition place_span (g : gate) (is_two : bool) (st : list wire * list Z)
  : option (list wire * list Z) :=
  let (q, used) := st in
  pos1 <- py_min (gate_pos g) ;;
  pos2 <- py_max (gate_pos g) ;;
  q <- append_to (Some g) q pos1 ;;
  q <- foldM (append_to None) (zrange (pos1 + 1) (pos2 + 1)) q ;;
  let used := if is_two then fold_left mark_used (gate_pos g) used else used in
  lens <- mapM (wire_len q) (zrange pos1 (pos2 + 1)) ;;
  maxlayer <- max_len lens ;;
  q <- foldM (justify maxlayer) (zrange pos1 (pos2 + 1)) q ;;
  Some (q, used).

(** One iteration of [for gate in gatelist]. *)
Definition place_gate (st : list wire * list Z) (g : gate) : option (list wire * list Z) :=
  match g with
  | FixedSingleQubitGate _ p | ParaSingleQubitGate _ p _ =>
      q <- append_to (Some g) (fst st) p ;;
      Some (q, mark_used (snd st) p)
  | FixedTwoQubitGate _ _ _ => place_span g true st
  | Barrier _ => place_span g false st
  end.

(** The state after the gate loop: the per-qubit lists and [used_qubits]. *)
Definition place_gates (c : QuantumCircuit) : option (list wire * list Z) :=
  foldM place_gate (gates c) (repeat [] (Z.to_nat (num c)), []).

(** [np.sort] *)
Fixpoint insert_sorted (a : Z) (l : list Z) : list Z :=
  match l with
  | [] => [a]
  | b :: l' => if (a <=? b)%Z then a :: l else b :: insert_sorted a l'
  end.

Definition np_sort (l : list Z) : list Z := fold_right insert_sorted [] l.

(** A cell of the returned array: column 0 holds the qubit index, the other
    columns a gate or [None]. *)
Inductive cell := Qubit (q : Z) | Slot (g : option gate).

Definition pad_wire (maxdepth : nat) (w : wire) : wire :=
  w ++ repeat None (maxdepth - length w).

(** [layered_circuit()]: the layout and the sorted [used_qubits].
    [np.vstack((used_qubits, lc.T))] raises ValueError unless there are as
    many used qubits as rows kept. *)
Definition layered_circuit (c : QuantumCircuit) : option (list (list cell) * list Z) :=
  st <- place_gates c ;;
  let (q, used) := st in
  maxdepth <- max_len (map (@length _) q) ;;
  let q := map (pad_wire maxdepth) q in
  let used := np_sort (fold_left mark_used (dict_keys (measures c)) used) in
  let rows := filter (fun qi => existsb (Z.eqb (Z.of_nat qi)) used) (seq 0 (length q)) in
  if length used =? length rows
  then Some (map (fun ur => Qubit (fst ur) :: map Slot (nth (snd ur) q []))
                 (combine used rows), used)
  else None.

(** ** The OpenQASM codec *)

Definition pi : float := 0x1.921fb54442d18p+1%float.

Section Codec.

(** Python's own text forms of a float are taken as given: [float_str] is
    ["%s" % para] and [py_eval] is [eval(s, {"pi": pi})], [None] when it
    raises. *)
Variable float_str : float -> text.
Variable py_eval : text -> option float.

Definition qubit_ref (p : Z) : text := lit "q[" ++ fmt_d p ++ lit "]".

(** One statement of [to_openqasm]'s gate loop. *)
Definition gate_qasm (g : gate) : text :=
  match g with
  | FixedSingleQubitGate _ p =>
      lower (gate_name g) ++ lit " " ++ qubit_ref p ++ lit ";" ++ [nl]
  | ParaSingleQubitGate _ p a =>
      lower (gate_name g) ++ lit "(" ++ float_str a ++ lit ") " ++ qubit_ref p
            ++ lit ";" ++ [nl]
  | FixedTwoQubitGate _ p q =>
      lower (gate_name g) ++ lit " " ++ qubit_ref p ++ lit "," ++ qubit_ref q
            ++ lit ";" ++ [nl]
  | Barrier ps =>
      lit "barrier " ++ join (lit ",") (map qubit_ref ps) ++ lit ";" ++ [nl]
  end.

Definition measure_qasm (kv : Z * Z) : text :=
  lit "measure q[" ++ fmt_d (fst kv) ++ lit "] -> meas[" ++ fmt_d (snd kv)
      ++ lit "];" ++ [nl].

Definition qasm_header (c : QuantumCircuit) : text :=
  lit "OPENQASM 2.0;" ++ [nl] ++ lit "include " ++ ["034"%char]
      ++ lit "qelib1.inc" ++ ["034"%char] ++ lit ";" ++ [nl]
      ++ lit "qreg q[" ++ fmt_d (num c) ++ lit "];" ++ [nl]
      ++ lit "creg meas[" ++ fmt_d (Z.of_nat (length (measures c))) ++ lit "];" ++ [nl].

(** [to_openqasm()]: the text returned (and stored in [self.openqasm]). *)
Definition to_openqasm (c : QuantumCircuit) : text :=
  qasm_header c
    ++ concat (map gate_qasm (gates c))
    ++ concat (map measure_qasm (measures c)).

(** The local variables of [from_openqasm] next to [self].  [im_paras] is
    the local [paras]: it is assigned only by a statement with a
    parenthesis and keeps its value afterwards. *)
Record import_state : Type := mkImport {
  im_circ : QuantumCircuit;
  im_measured : list Z;
  im_valid : bool;
  im_paras : option (list float)
}.

Definition with_circ (st : import_state) (c : QuantumCircuit) : import_state :=
  mkImport c (im_measured st) (im_valid st) (im_paras st).

(** [[int(s) for s in re.findall("\d+", qbs)]] *)
Definition operands (qbs : text) : list Z := map py_int (findall_digits qbs).

Definition text_eqb (a b : text) : bool :=
  if list_eq_dec ascii_dec a b then true else false.

(** The dispatch on [gatename]; [inds[i]] and [paras[i]] raise IndexError
    when missing and a use of [paras] before its assignment raises
    UnboundLocalError.  An unknown name only prints a warning. *)
Definition apply_gate (gatename : text) (inds : list Z) (paras : option (list float))
           (c : QuantumCircuit) : option QuantumCircuit :=
  let ind i := nth_error inds i in
  let para i := ps <- paras ;; nth_error ps i in
  if text_eqb gatename (lit "cx") then a <- ind 0 ;; b <- ind 1 ;; Some (cnot c a b)
  else if text_eqb gatename (lit "cy") then a <- ind 0 ;; b <- ind 1 ;; Some (cy c a b)
  else if text_eqb gatename (lit "cz") then a <- ind 0 ;; b <- ind 1 ;; Some (cz c a b)
  else if text_eqb gatename (lit "swap") then a <- ind 0 ;; b <- ind 1 ;; Some (swap c a b)
  else if text_eqb gatename (lit "rx") then a <- ind 0 ;; t <- para 0 ;; Some (rx c a t)
  else if text_eqb gatename (lit "ry") then a <- ind 0 ;; t <- para 0 ;; Some (ry c a t)
  else if text_eqb gatename (lit "rz") then a <- ind 0 ;; t <- para 0 ;; Some (rz c a t)
  else if text_eqb gatename (lit "x") then a <- ind 0 ;; Some (x c a)
  else if text_eqb gatename (lit "y") then a <- ind 0 ;; Some (y c a)
  else if text_eqb gatename (lit "z") then a <- ind 0 ;; Some (z c a)
  else if text_eqb gatename (lit "h") then a <- ind 0 ;; Some (h c a)
  else if text_eqb gatename (lit "u1") then a <- ind 0 ;; t <- para 0 ;; Some (rz c a t)
  else if text_eqb gatename (lit "u2") then
    a <- ind 0 ;; t1 <- para 1 ;;
    let c := rz c a t1 in
    let c := ry c a (pi / 2)%float in
    t0 <- para 0 ;; Some (rz c a t0)
  else if text_eqb gatename (lit "u3") then
    a <- ind 0 ;; t2 <- para 2 ;;
    let c := rz c a t2 in
    t0 <- para 0 ;;
    let c := ry c a t0 in
    t1 <- para 1 ;; Some (rz c a t1)
  else Some c.

(** The statement branch ([else:]) of the line loop. *)
Definition import_gate (operations : text) (qbs : text) (st : import_state)
  : option import_state :=
  let inds := operands qbs in
  if existsb (fun pos => existsb (Z.eqb pos) (im_measured st)) inds then
    Some (mkImport (im_circ st) (im_measured st) false (im_paras st))
  else if text_eqb operations (lit "barrier") then
    Some (with_circ st (barrier (im_circ st) inds))
  else
    match split_on "(" operations with
    | gatename :: sp_rest =>
        paras <- match sp_rest with
                 | [] => Some (im_paras st)
                 | p :: _ =>
                     ps <- mapM py_eval (split_on "," (strip_parens p)) ;;
                     Some (Some ps)
                 end ;;
        c <- apply_gate gatename inds paras (im_circ st) ;;
        Some (mkImport c (im_measured st) (im_valid st) paras)
    | [] => None
    end.

(** One iteration of [for line in lines[2:]]. *)
Definition import_line (st : import_state) (line : text) : option import_state :=
  match line with
  | [] => Some st
  | _ :: _ =>
      let (operations, rest) := split_space line in
      if text_eqb operations (lit "qreg") then
        qbs <- rest ;;
        n <- nth_error (findall_digits qbs) 0 ;;
        Some (with_circ st (set_num (im_circ st) (py_int n)))
      else if text_eqb operations (lit "creg") then Some st
      else if text_eqb operations (lit "measure") then
        qbs <- rest ;;
        let inds := operands qbs in
        mb <- nth_error inds 0 ;;
        cb <- nth_error inds 1 ;;
        Some (mkImport (set_measures (im_circ st) (dict_set mb cb (measures (im_circ st))))
                       (im_measured st ++ [mb]) (im_valid st) (im_paras st))
      else
        qbs <- rest ;;
        import_gate operations qbs st
  end.

Definition import_lines (st : import_state) (lines : list text) : option import_state :=
  foldM import_line lines st.

(** [from_openqasm(openqasm)]: the circuit afterwards and [global_valid];
    the warning about removed operations is printed when the latter is
    false. *)
Definition from_openqasm (c : QuantumCircuit) (src : text) : option (QuantumCircuit * bool) :=
  let c := set_measures (set_gates (set_openqasm c src) []) [] in
  st <- import_lines (mkImport c [] true None) (skipn 2 (splitlines src)) ;;
  let c := im_circ st in
  let c := match measures c with
           | [] => set_measures c (dict_zip (zrange 0 (num c)) (zrange 0 (num c)))
           | _ :: _ => c
           end in
  Some (c, im_valid st).

End Codec.

(** ** Notions used in the statements *)

(** [p] lists every number below its length exactly once. *)
Definition is_perm (p : list Z) : Prop :=
  Permutation p (map Z.of_nat (seq 0 (length p))).

(** The inverse permutation: entry [j] is the place of [j] in [p]. *)
Definition inverse_perm (p : list Z) : list Z :=
  map (fun j => Z.of_nat (index_ofZ (Z.of_nat j) p)) (seq 0 (length p)).

Definition identity_perm (k : nat) : list Z := map Z.of_nat (seq 0 k).

(** The axes list built by [reorder_matrix]. *)
Definition reorder_axes (pos : list Z) : list nat :=
  argsort pos ++ map (fun i => i + length pos) (argsort pos).

(** A matrix with [n] rows of [n] entries. *)
Definition square {A : Type} (n : nat) (m : list (list A)) : Prop :=
  length m = n /\ Forall (fun r => length r = n) m.

(** A qubit position of a register of [n] qubits. *)
Definition in_register (n : Z) (p : Z) : Prop := (0 <= p < n)%Z.

(** A gate whose positions are given and lie in the register. *)
Definition wf_gate (n : Z) (g : gate) : Prop :=
  gate_pos g <> [] /\ Forall (in_register n) (gate_pos g).

(** A circuit on a register that is not empty, with all gates and all
    measured qubits in the register. *)
Definition wf_circuit (c : QuantumCircuit) : Prop :=
  (0 < num c)%Z
  /\ Forall (wf_gate (num c)) (gates c)
  /\ Forall (in_register (num c)) (dict_keys (measures c)).

(** [f] applied to the rows [a <= i < b] of [q]. *)
Definition map_range {X : Type} (a b : nat) (f : nat -> X -> X) (q : list X) : list X :=
  mapi (fun i w => if (a <=? i) && (i <? b) then f i w else w) q.

(** One loop body of the scheduler: [gateQlist[j]] is replaced by [f] of
    it. *)
Definition row_op (f : wire -> wire) (q : list wire) (j : Z) : option (list wire) :=
  i <- py_index (length q) j ;;
  Some (update_row i f q).

(** What [justify] does to the wire it visits. *)
Definition justify_row (maxlayer : nat) (w : wire) : wire :=
  if length w =? maxlayer then w
  else Nat.iter (Z.abs_nat (Z.of_nat (length w) - Z.of_nat maxlayer))
                (list_insert (length w - 1) None) w.

(** A wire of a span after the step that places [v] on it at layer
    [maxlayer]: what was there, placeholders up to the layer, then [v]. *)
Definition span_row (maxlayer : nat) (v : option gate) (w : wire) : wire :=
  w ++ repeat None (maxlayer - S (length w)) ++ [v].

(** The wires after a gate has been placed on the span [lo .. hi] at layer
    [maxlayer]: the gate on wire [lo], placeholders on the others. *)
Definition span_fill (lo hi maxlayer : nat) (g : gate) (q : list wire) : list wire :=
  map_range lo (S hi)
            (fun i => span_row maxlayer (if i =? lo then Some g else None)) q.

(** The column of the layout in which the last entry of wire [qb] stands
    (column 0 of a layout row is the qubit index).  Right after a step this
    is the entry the step has put on the wire. *)
Definition placed_column (q : list wire) (qb : Z) : nat :=
  length (nth (Z.to_nat qb) q []).

(** The row of a layout that belongs to qubit [qb], and its entry in
    column [col]. *)
Definition layout_row (l : list (list cell)) (qb : Z) : option (list cell) :=
  find (fun row => match row with
                   | Qubit q :: _ => (q =? qb)%Z
                   | _ => false
                   end) l.

Definition entry_at (l : list (list cell)) (qb : Z) (col : nat) : option cell :=
  row <- layout_row l qb ;; nth_error row col.

(** [used_qubits] after one iteration of the gate loop. *)
Definition used_after (g : gate) (used : list Z) : list Z :=
  match g with
  | FixedSingleQubitGate _ p | ParaSingleQubitGate _ p _ => mark_used used p
  | FixedTwoQubitGate _ _ _ => fold_left mark_used (gate_pos g) used
  | Barrier _ => used
  end.

(** Every wire of [q'] starts with the wire of [q] at the same place. *)
Definition extends (q q' : list wire) : Prop :=
  length q' = length q /\ forall i, exists ext, nth i q' [] = nth i q [] ++ ext.

(** The circuit of the end-to-end example: [H(0)], [CX(0,1)], then
    [measure([0, 1], cbits=[0, 1])] on two qubits. *)
Definition bell : QuantumCircuit :=
  fst (measure (cnot (h (new_circuit 2) 0) 0 1) [0; 1]%Z 1000 [0; 1]%Z false).

Definition bell_lines : list text :=
  [ lit "OPENQASM 2.0;";
    lit "include " ++ ["034"%char] ++ lit "qelib1.inc" ++ ["034"%char] ++ lit ";";
    lit "qreg q[2];";
    lit "creg meas[2];";
    lit "h q[0];";
    lit "cx q[0],q[1];";
    lit "measure q[0] -> meas[0];";
    lit "measure q[1] -> meas[1];" ].

(** A line that the importer reads as [measure q -> cb]: its first word is
    [measure] and the first two integers after it are [q] and [cb]. *)
Definition measure_statement (line : text) (q cb : Z) : Prop :=
  exists qbs rest,
    split_space line = (lit "measure", Some qbs) /\ operands qbs = q :: cb :: rest.

(** A line that the importer reads as a gate statement with the operand
    text [qbs]: its first word, followed by a space, is none of [qreg],
    [creg], [measure]. *)
Definition gate_statement (line operations qbs : text) : Prop :=
  line <> []
  /\ split_space line = (operations, Some qbs)
  /\ operations <> lit "qreg"
  /\ operations <> lit "creg"
  /\ operations <> lit "measure".

(** Clearing [global_valid]. *)
Definition invalidate (st : import_state) : import_state :=
  mkImport (im_circ st) (im_measured st) false (im_paras st).

(** The same import state around another stored source text. *)
Definition with_source (t : text) (st : import_state) : import_state :=
  with_circ st (set_openqasm (im_circ st) t).

(** What an import leaves behind, the stored source text apart: the gate
    list, the measurement map, the register size, and [global_valid]. *)
Definition imported (py_eval : text -> option float) (c : QuantumCircuit) (src : text)
  : option (list gate * dict * Z * bool) :=
  option_map (fun r => (gates (fst r), measures (fst r), num (fst r), snd r))
             (from_openqasm py_eval c src).

(** The mnemonic and the operand positions of a gate. *)
Definition gate_sig (g : gate) : text * list Z := (lower (gate_name g), gate_pos g).

(** Characters that may occur in the text of a parameter without breaking
    the statement apart. *)
Definition para_char_ok (c : ascii) : bool :=
  negb (is_linebreak c || Ascii.eqb c " " || is_paren c || Ascii.eqb c ",").

Section Exportable.

Variable float_str : float -> text.
Variable py_eval : text -> option float.

(** The text of the angle [a] is one word and evaluates to an angle that
    is not zero. *)
Definition para_text_ok (a : float) : Prop :=
  forallb para_char_ok (float_str a) = true
  /\ exists b, py_eval (float_str a) = Some b /\ PrimFloat.eqb b 0%float = false.

(** A gate that survives the export and the import: positions are not
    negative and the angle of a rotation is as above. *)
Definition exportable (g : gate) : Prop :=
  Forall (fun p => (0 <= p)%Z) (gate_pos g)
  /\ match g with
     | ParaSingleQubitGate _ _ a => para_text_ok a
     | _ => True
     end.

(** The statements of [to_openqasm] without the line end: the word before
    the first space, and the operand text after it. *)
Definition gate_ops (g : gate) : text :=
  match g with
  | ParaSingleQubitGate _ _ a => lower (gate_name g) ++ lit "(" ++ float_str a ++ lit ")"
  | _ => lower (gate_name g)
  end.

Definition gate_qbs (g : gate) : text :=
  match g with
  | FixedSingleQubitGate _ p | ParaSingleQubitGate _ p _ => qubit_ref p ++ lit ";"
  | FixedTwoQubitGate _ p q => qubit_ref p ++ lit "," ++ qubit_ref q ++ lit ";"
  | Barrier ps => join (lit ",") (map qubit_ref ps) ++ lit ";"
  end.

Definition gate_line (g : gate) : text := gate_ops g ++ lit " " ++ gate_qbs g.

Definition measure_line (kv : Z * Z) : text :=
  lit "measure q[" ++ fmt_d (fst kv) ++ lit "] -> meas[" ++ fmt_d (snd kv) ++ lit "];".

(** The lines of the text that [to_openqasm] returns. *)
Definition qasm_lines (c : QuantumCircuit) : list text :=
  [ lit "OPENQASM 2.0;";
    lit "include " ++ ["034"%char] ++ lit "qelib1.inc" ++ ["034"%char] ++ lit ";";
    lit "qreg q[" ++ fmt_d (num c) ++ lit "];";
    lit "creg meas[" ++ fmt_d (Z.of_nat (length (measures c))) ++ lit "];" ]
    ++ map gate_line (gates c) ++ map measure_line (measures c).

End Exportable.

(** The value of a list of decimal digits, lowest digit first. *)
Fixpoint little_value (l : list ascii) : nat :=
  match l with
  | [] => 0
  | d :: l' => (nat_of_ascii d - 48) + 10 * little_value l'
  end.

(** Nothing or a character that is not a digit comes first. *)
Definition starts_nondigit (s : text) : Prop :=
  match s with
  | [] => True
  | c :: _ => is_digit c = false
  end.

(** A text without line boundary. *)
Definition no_break (t : text) : Prop :=
  forallb (fun c => negb (is_linebreak c)) t = true.

(** A text without the character [ch]. *)
Definition free_of (ch : ascii) (t : text) : Prop :=
  forallb (fun c => negb (Ascii.eqb c ch)) t = true.

(** ** Further parts of [quantum_gate.py] *)

Section TargetMatrix.

Variable A : Type.
Variable c0 : A.

(** [MultiQubitGate.get_targ_matrix(reverse_order)] on [self.matrix] and
    [self.pos], and [ControlledGate.get_targ_matrix(reverse_order)] on
    [self._targ_matrix] and [self.targs]: the same code on another matrix
    and position list.  [range(n)[::-1]] is [rev (seq 0 n)]. *)
Definition get_targ_matrix (targ_matrix : list (list A)) (pos : list Z)
           (reverse_order : bool) : option (list (list A)) :=
  if reverse_order && (1 <? length pos) then
    let qnum := length pos in
    let dim := 2 ^ qnum in
    let order := rev (seq 0 qnum) in
    let order := order ++ map (fun i => i + qnum) order in
    let flat := concat targ_matrix in
    if length flat =? 2 ^ (2 * qnum)
    then Some (chunks dim dim (transpose_flat c0 flat order))
    else None
  else Some targ_matrix.

End TargetMatrix.

(** [QuantumGate]: the attributes that [to_qasm] reads.  [pos] is an [int]
    or a list, [paras] is [None], a float or a list of floats. *)
Module QuantumGate.

Inductive pos_type := Int (p : Z) | Ints (ps : list Z).
Inductive paras_type := NoParas | Float (a : float) | Floats (l : list float).

Record t : Type := new { name : text; pos : pos_type; paras : paras_type }.

(** [if self.paras:] -- [None], a zero float and an empty list are false. *)
Definition truthy (p : paras_type) : bool :=
  match p with
  | NoParas => false
  | Float a => negb (PrimFloat.eqb a 0%float)
  | Floats l => negb (length l =? 0)
  end.

Section ToQasm.

Variable float_str : float -> text.

(** [to_qasm()] *)
Definition to_qasm (g : t) : text :=
  let qstr := lower (name g) in
  let qstr :=
    if truthy (paras g) then
      match paras g with
      | Floats l => qstr ++ lit "(" ++ join (lit ",") (map float_str l) ++ lit ")"
      | Float a => qstr ++ lit "(" ++ float_str a ++ lit ")"
      | NoParas => qstr
      end
    else qstr in
  let qstr := qstr ++ lit " " in
  match pos g with
  | Ints ps => qstr ++ join (lit ",") (map (fun p => lit "q[" ++ fmt_d p ++ lit "]") ps)
  | Int p => qstr ++ lit "q[" ++ fmt_d p ++ lit "]"
  end.

End ToQasm.

End QuantumGate.

(** The [QuantumGate] attributes that the constructors of
    [FixedSingleQubitGate], [ParaSingleQubitGate] and [FixedMultiQubitGate]
    pass on to [QuantumGate.__init__]; a [Barrier] is no [QuantumGate]. *)
Definition as_quantum_gate (g : gate) : option QuantumGate.t :=
  match g with
  | FixedSingleQubitGate _ p =>
      Some (QuantumGate.new (gate_name g) (QuantumGate.Int p) QuantumGate.NoParas)
  | ParaSingleQubitGate _ p a =>
      Some (QuantumGate.new (gate_name g) (QuantumGate.Int p) (QuantumGate.Float a))
  | FixedTwoQubitGate _ p q =>
      Some (QuantumGate.new (gate_name g) (QuantumGate.Ints [p; q]) QuantumGate.NoParas)
  | Barrier _ => None
  end.

(** ** Further parts of [quantum_circuit.py] *)

(** [get_used_qubits()] *)
Definition get_used_qubits (c : QuantumCircuit) : option (list Z) :=
  option_map snd (layered_circuit c).

(** The positions that the scheduler enters into [used_qubits] for a gate:
    those of a single- or two-qubit gate, none for a barrier. *)
Definition used_positions (g : gate) : list Z :=
  match g with
  | Barrier _ => []
  | _ => gate_pos g
  end.

Definition is_barrier (g : gate) : bool :=
  match g with
  | Barrier _ => true
  | _ => false
  end.

(** The wire whose list receives the gate: [gate.pos] for a single-qubit
    gate, [min(gate.pos)] otherwise. *)
Definition gate_wire (g : gate) : option Z :=
  match g with
  | FixedSingleQubitGate _ p | ParaSingleQubitGate _ p _ => Some p
  | _ => py_min (gate_pos g)
  end.

Definition on_wire (qb : Z) (g : gate) : bool :=
  match gate_wire g with
  | Some p => (p =? qb)%Z
  | None => false
  end.

(** The gates of a wire and of a layout row, placeholders left out. *)
Definition wire_gates (w : wire) : list gate :=
  flat_map (fun e => match e with Some g => [g] | None => [] end) w.

Definition row_gates (row : list cell) : list gate :=
  flat_map (fun e => match e with Slot (Some g) => [g] | _ => [] end) row.

(** The number of layer columns of a layout. *)
Definition layout_depth (l : list (list cell)) : nat :=
  length (hd [] l) - 1.

(** The gate names that [from_openqasm] dispatches on. *)
Definition mnemonics : list text :=
  [ lit "barrier"; lit "cx"; lit "cy"; lit "cz"; lit "swap"; lit "rx"; lit "ry";
    lit "rz"; lit "x"; lit "y"; lit "z"; lit "h"; lit "u1"; lit "u2"; lit "u3" ].

(** The gates of [added] act on qubits of [inds] only. *)
Definition acts_within (inds : list Z) (added : list gate) : Prop :=
  forall g q, In g added -> In q (gate_pos g) -> In q inds.

(** ** Running on the device ([send], [run], [submit_task])

    [submit_task] keeps a second name, [inputs], for the list object that
    [self.gates] names, and [run] appends to that object.  So here the list
    objects live in a store, and the circuit object holds the address of its
    gate list next to its other attributes. *)
Record circuit_object : Type := mkObject {
  o_num : Z;
  o_shots : Z;
  o_tomo : bool;
  o_gates : nat;
  o_backend : text;
  o_openqasm : text;
  o_measures : dict;
  o_compile : bool
}.

(** The form data that [send] posts. *)
Record request : Type := mkRequest {
  qtasm : text;
  r_shots : Z;
  qubits : Z;
  scan : Z;
  r_tomo : Z;
  selected_server : Z;
  r_compile : Z
}.

(** The store of list objects, [self], and the requests posted so far. *)
Record world : Type := mkWorld {
  heap : list (list gate);
  self : circuit_object;
  posted : list request
}.

(** How a call ends, and the world it leaves. *)
Inductive result (X : Type) : Type :=
| Return (v : X) (w : world)
| Raise (exn : string) (w : world).

Arguments Return {X} v w.
Arguments Raise {X} exn w.

Definition M (X : Type) : Type := world -> result X.

Definition ret {X : Type} (v : X) : M X := fun w => Return v w.

Definition raise {X : Type} (exn : string) : M X := fun w => Raise exn w.

Definition bindM {X Y : Type} (m : M X) (k : X -> M Y) : M Y :=
  fun w => match m w with
           | Return v w' => k v w'
           | Raise exn w' => Raise exn w'
           end.

Notation "x <~ m ;; k" := (bindM m (fun x => k))
  (at level 61, m at next level, right associativity).

(** [for v in l: f(v)] *)
Fixpoint for_each {X : Type} (l : list X) (f : X -> M unit) : M unit :=
  match l with
  | [] => ret tt
  | v :: l' => _ <~ f v ;; for_each l' f
  end.

(** A loop that appends one value per element to a list of results. *)
Fixpoint collect {X Y : Type} (l : list X) (f : X -> M Y) : M (list Y) :=
  match l with
  | [] => ret []
  | v :: l' => r <~ f v ;; rs <~ collect l' f ;; ret (r :: rs)
  end.

Definition set_o_gates (o : circuit_object) (a : nat) : circuit_object :=
  mkObject (o_num o) (o_shots o) (o_tomo o) a (o_backend o) (o_openqasm o)
           (o_measures o) (o_compile o).

Definition set_o_backend (o : circuit_object) (b : text) : circuit_object :=
  mkObject (o_num o) (o_shots o) (o_tomo o) (o_gates o) b (o_openqasm o)
           (o_measures o) (o_compile o).

Definition set_o_openqasm (o : circuit_object) (t : text) : circuit_object :=
  mkObject (o_num o) (o_shots o) (o_tomo o) (o_gates o) (o_backend o) t
           (o_measures o) (o_compile o).

Definition set_o_compile (o : circuit_object) (b : bool) : circuit_object :=
  mkObject (o_num o) (o_shots o) (o_tomo o) (o_gates o) (o_backend o) (o_openqasm o)
           (o_measures o) b.

(** The list that [self.gates] names. *)
Definition self_gates (w : world) : list gate := nth (o_gates (self w)) (heap w) [].

(** The circuit as the functions above see it. *)
Definition circuit_of (w : world) : QuantumCircuit :=
  mkCircuit (o_num (self w)) (o_shots (self w)) (o_tomo (self w)) (self_gates w)
            (o_openqasm (self w)) (o_measures (self w)).

(** [QuantumCircuit(num)] in a store: the gate list is a new object. *)
Definition new_object (hp : list (list gate)) (n : Z) : world :=
  mkWorld (hp ++ [[]])
          (mkObject n 1000 false (length hp) (lit "ScQ-P10") []
                    (dict_zip (zrange 0 n) (zrange 0 n)) true)
          [].

(** [set_backend(backend)] and [get_backend()] *)
Definition set_backend (backend : text) : M unit :=
  fun w => Return tt (mkWorld (heap w) (set_o_backend (self w) backend) (posted w)).

Definition get_backend : M text := fun w => Return (o_backend (self w)) w.

(** [self.gates.append(g)] *)
Definition gates_append (g : gate) : M unit :=
  fun w => Return tt (mkWorld (update_row (o_gates (self w)) (fun l => l ++ [g]) (heap w))
                              (self w) (posted w)).

(** [rx], [ry], [rz] on the object *)
Definition rotate (cls : rotation_name) (pos : Z) (para : float) : M unit :=
  if negb (PrimFloat.eqb para 0%float)
  then gates_append (ParaSingleQubitGate cls pos para)
  else ret tt.

(** [backends = {"ScQ-P10": 0, "ScQ-P20": 1, "ScQ-P50": 2}] and
    [backends[name]] *)
Definition backends : list (text * Z) :=
  [(lit "ScQ-P10", 0%Z); (lit "ScQ-P20", 1%Z); (lit "ScQ-P50", 2%Z)].

Fixpoint lookup (k : text) (d : list (text * Z)) : option Z :=
  match d with
  | [] => None
  | (k', v) :: d' => if text_eqb k' k then Some v else lookup k d'
  end.

Definition int_of_bool (b : bool) : Z := if b then 1%Z else 0%Z.

Section Device.

(** The text of a float as before; the server's answer to a request and the
    [stat] field of the answer; [merge_measure] and
    [ExecResult.calculate_obs] of [quantum_tools], which is not part of the
    sources at hand. *)
Variable float_str : float -> text.
Variable response : Type.
Variable post : request -> response.
Variable stat : response -> Z.
Variable observable : Type.
Variable merge_measure : list (text * list Z) -> list (text * list Z) * list Z.

(** [ExecResult(json, measures)] with the [measure_base] that [run] sets
    afterwards ([None] stands for the empty string). *)
Record ExecResult : Type := mkExec {
  er_json : response;
  er_measures : dict;
  er_measure_base : option (text * list Z)
}.

Variable calculate_obs : ExecResult -> list nat -> observable.

(** [send(compile)]: the text is exported and stored, the request is
    posted, and the [stat] of the answer decides. *)
Definition send (compile : bool) : M ExecResult :=
  fun w =>
    let text := to_openqasm float_str (circuit_of w) in
    let o := set_o_compile (set_o_openqasm (self w) text) compile in
    let w := mkWorld (heap w) o (posted w) in
    match lookup (o_backend o) backends with
    | None => Raise "KeyError" w
    | Some server =>
        let data := mkRequest (o_openqasm o) (o_shots o) (o_num o) 0
                              (int_of_bool (o_tomo o)) server
                              (int_of_bool (o_compile o)) in
        let res := post data in
        let w := mkWorld (heap w) o (posted w ++ [data]) in
        if (stat res =? 5002)%Z then Raise "ServerError" w
        else if (stat res =? 5001)%Z then Raise "ServerError" w
        else Return (mkExec res (o_measures o) None) w
    end.

(** The gate that [run] adds for one letter of the measurement base. *)
Definition basis_change (bp : ascii * Z) : M unit :=
  if Ascii.eqb (fst bp) "X" then rotate RYGate (snd bp) (- pi / 2)%float
  else if Ascii.eqb (fst bp) "Y" then rotate RXGate (snd bp) (pi / 2)%float
  else ret tt.

(** [run(measure_base, compile)]; [None] is the default, the empty list. *)
Definition run (measure_base : option (text * list Z)) (compile : bool) : M ExecResult :=
  match measure_base with
  | None => res <~ send compile ;; ret (mkExec (er_json res) (er_measures res) None)
  | Some (bases, pos) =>
      _ <~ for_each (combine bases pos) basis_change ;;
      res <~ send compile ;;
      ret (mkExec (er_json res) (er_measures res) measure_base)
  end.

(** What [submit_task] returns: [(res, [])] for an empty [obslist],
    otherwise [(exec_res, measure_results)]. *)
Inductive task_result : Type :=
| OneRun (res : ExecResult)
| AllRuns (exec_res : list ExecResult) (measure_results : list observable).

(** One iteration of the last loop of [submit_task]:
    [obs = obslist[obi]], [rpos = [measures.index(p) for p in obs[1]]],
    [exec_res[targlist[obi]].calculate_obs(rpos)]. *)
Definition observe (measures : list Z) (exec_res : list ExecResult)
           (obslist : list (text * list Z)) (targlist : list Z) (obi : nat)
  : M observable :=
  match nth_error obslist obi with
  | Some obs =>
      let rpos := map (fun p => index_ofZ p measures) (snd obs) in
      match nth_error targlist obi with
      | Some t =>
          match py_index (length exec_res) t with
          | Some i =>
              match nth_error exec_res i with
              | Some res => ret (calculate_obs res rpos)
              | None => raise "IndexError"
              end
          | None => raise "IndexError"
          end
      | None => raise "IndexError"
      end
  | None => raise "IndexError"
  end.

(** [submit_task(obslist, compile)] *)
Definition submit_task (obslist : list (text * list Z)) (compile : bool) : M task_result :=
  fun w =>
    let inputs := o_gates (self w) in
    let measures := dict_keys (o_measures (self w)) in
    match obslist with
    | [] => (res <~ run None compile ;; ret (OneRun res)) w
    | _ :: _ =>
        if forallb (fun obs => forallb (fun p => existsb (Z.eqb p) measures) (snd obs))
                   obslist
        then
          let (measure_basis, targlist) := merge_measure obslist in
          (exec_res <~ collect measure_basis
                       (fun measure_base =>
                          res <~ run (Some measure_base) compile ;;
                          _ <~ (fun w => Return tt (mkWorld (heap w)
                                                       (set_o_gates (self w) inputs)
                                                       (posted w))) ;;
                          ret res) ;;
           measure_results <~ collect (seq 0 (length obslist))
                                      (observe measures exec_res obslist targlist) ;;
           ret (AllRuns exec_res measure_results)) w
        else Raise "CircuitError" w
    end.

End Device.

(** The gates that [run] appends for a measurement base. *)
Definition basis_gates (measure_base : text * list Z) : list gate :=
  flat_map (fun bp =>
              if Ascii.eqb (fst bp) "X"
              then [ParaSingleQubitGate RYGate (snd bp) (- pi / 2)%float]
              else if Ascii.eqb (fst bp) "Y"
                   then [ParaSingleQubitGate RXGate (snd bp) (pi / 2)%float]
                   else [])
           (combine (fst measure_base) (snd measure_base)).

(** The gate lists after one, two, ... measurement bases when each base
    adds its gates to what is there. *)
Fixpoint accumulated (gs : list gate) (measure_basis : list (text * list Z))
  : list (list gate) :=
  match measure_basis with
  | [] => []
  | b :: bs => (gs ++ basis_gates b) :: accumulated (gs ++ basis_gates b) bs
  end.

(** The world that a call leaves. *)
Definition world_of {X : Type} (r : result X) : world :=
  match r with
  | Return _ w => w
  | Raise _ w => w
  end.

Definition is_single (g : gate) : bool :=
  match g with
  | FixedSingleQubitGate _ _ | ParaSingleQubitGate _ _ _ => true
  | _ => false
  end.

(** * Properties *)

(** ** Bits and flat indices *)

Lemma length_to_bits n i : length (to_bits n i) = n.
Proof.
  revert i; induction n as [|n IH]; intros i; simpl; [reflexivity|].
  rewrite length_app, IH; simpl; lia.
Qed.

Lemma from_bits_snoc l b : from_bits (l ++ [b]) = 2 * from_bits l + Nat.b2n b.
Proof. unfold from_bits; rewrite fold_left_app; reflexivity. Qed.

Lemma odd_b2n i : Nat.b2n (Nat.odd i) = i mod 2.
Proof.
  rewrite <- Nat.bit0_odd, Nat.bit0_mod; reflexivity.
Qed.

Lemma from_to_bits n : forall i, i < 2 ^ n -> from_bits (to_bits n i) = i.
Proof.
  induction n as [|n IH]; intros i Hi.
  - simpl in *; unfold from_bits; simpl; lia.
  - cbn [to_bits]; rewrite Nat.pow_succ_r' in Hi.
    rewrite from_bits_snoc, IH, odd_b2n.
    + symmetry; apply Nat.div_mod_eq.
    + apply Nat.Div0.div_lt_upper_bound; lia.
Qed.

Lemma to_from_bits bs : to_bits (length bs) (from_bits bs) = bs.
Proof.
  induction bs as [|b bs IH] using rev_ind; [reflexivity|].
  rewrite length_app; cbn [length].
  replace (length bs + 1) with (S (length bs)) by lia; cbn [to_bits].
  rewrite from_bits_snoc.
  assert (Hd : (2 * from_bits bs + Nat.b2n b) / 2 = from_bits bs).
  { generalize (from_bits bs); intros v.
    rewrite (Nat.mul_comm 2 v), Nat.div_add_l by lia.
    destruct b; cbn [Nat.b2n]; rewrite Nat.div_small by lia; lia. }
  assert (Ho : Nat.odd (2 * from_bits bs + Nat.b2n b) = b).
  { generalize (from_bits bs); intros v.
    rewrite Nat.add_comm, Nat.odd_add_mul_2; destruct b; reflexivity. }
  rewrite Hd, Ho, IH; reflexivity.
Qed.

Lemma from_bits_lt bs : from_bits bs < 2 ^ length bs.
Proof.
  induction bs as [|b bs IH] using rev_ind; [simpl; unfold from_bits; simpl; lia|].
  rewrite from_bits_snoc, length_app; cbn [length].
  replace (length bs + 1) with (S (length bs)) by lia; rewrite Nat.pow_succ_r'.
  destruct b; cbn [Nat.b2n]; lia.
Qed.

Lemma map_nth_seq {X} (l : list X) d : map (fun j => nth j l d) (seq 0 (length l)) = l.
Proof.
  apply nth_ext with (d := d) (d' := d).
  - rewrite length_map, length_seq; reflexivity.
  - intros n Hn; rewrite length_map, length_seq in Hn.
    rewrite (nth_indep _ d (nth 0 l d)) by (rewrite length_map, length_seq; exact Hn).
    rewrite (map_nth (fun j => nth j l d)), seq_nth by exact Hn; reflexivity.
Qed.

Lemma map_nth_seq_len {X} (l : list X) n d :
  length l = n -> map (fun j => nth j l d) (seq 0 n) = l.
Proof. intros <-; apply map_nth_seq. Qed.

Lemma nth_map_seq {X} (f : nat -> X) n i d : i < n -> nth i (map f (seq 0 n)) d = f i.
Proof.
  intros Hi.
  rewrite (nth_indep _ d (f 0)) by (rewrite length_map, length_seq; exact Hi).
  rewrite map_nth, seq_nth by exact Hi; reflexivity.
Qed.

Lemma map_seq_ext {X} (f g : nat -> X) n :
  (forall i, i < n -> f i = g i) -> map f (seq 0 n) = map g (seq 0 n).
Proof.
  intros H; apply map_ext_in; intros i Hi; apply in_seq in Hi; apply H; lia.
Qed.

(** ** Transposition of axes *)

Lemma transpose_src_lt axes idx : transpose_src axes idx < 2 ^ length axes.
Proof.
  unfold transpose_src.
  pose proof (from_bits_lt (map (fun j => nth (index_of j axes) (to_bits (length axes) idx) false)
                                (seq 0 (length axes)))) as H.
  rewrite length_map, length_seq in H; exact H.
Qed.

Lemma transpose_src_id axes idx :
  (forall j, j < length axes -> index_of j axes = j) ->
  idx < 2 ^ length axes -> transpose_src axes idx = idx.
Proof.
  intros Hid Hidx; unfold transpose_src.
  rewrite (map_seq_ext _ (fun j => nth j (to_bits (length axes) idx) false)).
  - rewrite map_nth_seq_len by apply length_to_bits.
    apply from_to_bits; exact Hidx.
  - intros i Hi; rewrite Hid by exact Hi; reflexivity.
Qed.

Lemma transpose_src_compose ax1 ax2 idx :
  length ax1 = length ax2 ->
  (forall j, j < length ax1 ->
             index_of j ax1 < length ax1 /\ index_of (index_of j ax1) ax2 = j) ->
  idx < 2 ^ length ax1 ->
  transpose_src ax1 (transpose_src ax2 idx) = idx.
Proof.
  intros Hlen Hinv Hidx.
  unfold transpose_src at 1.
  set (n := length ax1) in *.
  assert (Hy : to_bits n (transpose_src ax2 idx)
               = map (fun j => nth (index_of j ax2) (to_bits n idx) false) (seq 0 n)).
  { unfold transpose_src; rewrite <- Hlen; fold n.
    set (y := map _ (seq 0 n)).
    assert (Hl : length y = n) by (unfold y; rewrite length_map, length_seq; reflexivity).
    rewrite <- Hl at 1; apply to_from_bits. }
  rewrite Hy.
  rewrite (map_seq_ext _ (fun j => nth j (to_bits n idx) false)).
  - rewrite map_nth_seq_len by apply length_to_bits.
    apply from_to_bits; exact Hidx.
  - intros j Hj; destruct (Hinv j Hj) as [Hlt Heq].
    rewrite nth_map_seq by exact Hlt; rewrite Heq; reflexivity.
Qed.

(** ** Sorting *)

Lemma sorted_perm_unique (l1 l2 : list Z) :
  StronglySorted Z.le l1 -> StronglySorted Z.le l2 -> Permutation l1 l2 -> l1 = l2.
Proof.
  revert l2; induction l1 as [|a l1 IH]; intros l2 H1 H2 HP.
  - apply Permutation_nil in HP; subst; reflexivity.
  - destruct l2 as [|b l2]; [apply Permutation_sym, Permutation_nil in HP; discriminate|].
    inversion H1 as [|? ? S1 F1]; inversion H2 as [|? ? S2 F2]; subst.
    assert (a = b).
    { assert (Ha : In a (b :: l2)) by (eapply Permutation_in; [exact HP | left; reflexivity]).
      assert (Hb : In b (a :: l1))
        by (eapply Permutation_in; [apply Permutation_sym; exact HP | left; reflexivity]).
      rewrite Forall_forall in F1, F2.
      destruct Ha as [Ha|Ha]; [congruence|]; destruct Hb as [Hb|Hb]; [congruence|].
      apply F2 in Ha; apply F1 in Hb; lia. }
    subst b; f_equal; apply IH; auto.
    eapply Permutation_cons_inv; exact HP.
Qed.

Lemma range_sorted a n : StronglySorted Z.le (map Z.of_nat (seq a n)).
Proof.
  revert a; induction n as [|n IH]; intros a; simpl; constructor; [apply IH|].
  apply Forall_forall; intros v Hv; apply in_map_iff in Hv.
  destruct Hv as [w [<- Hw]]; apply in_seq in Hw; lia.
Qed.

Lemma insert_key_perm p l : Permutation (insert_key p l) (p :: l).
Proof.
  induction l as [|q l IH]; simpl; [reflexivity|].
  destruct (fst p <=? fst q)%Z; [reflexivity|].
  rewrite IH; apply perm_swap.
Qed.

Lemma sort_keys_perm l : Permutation (sort_keys l) l.
Proof.
  induction l as [|p l IH]; simpl; [reflexivity|].
  rewrite insert_key_perm; constructor; exact IH.
Qed.

Lemma insert_key_sorted p l :
  StronglySorted Z.le (map fst l) -> StronglySorted Z.le (map fst (insert_key p l)).
Proof.
  induction l as [|q l IH]; intros Hs; simpl.
  - constructor; constructor.
  - inversion Hs as [|? ? Hs' Hf]; subst.
    destruct (fst p <=? fst q)%Z eqn:E.
    + constructor; [exact Hs|].
      apply Z.leb_le in E; constructor; [exact E|].
      eapply Forall_impl; [|exact Hf]; simpl; intros; lia.
    + apply Z.leb_gt in E; simpl; constructor; [apply IH; exact Hs'|].
      apply (Permutation_Forall (Permutation_sym (Permutation_map fst (insert_key_perm p l)))).
      simpl; constructor; [lia | exact Hf].
Qed.

Lemma sort_keys_sorted l : StronglySorted Z.le (map fst (sort_keys l)).
Proof.
  induction l as [|p l IH]; simpl; [constructor|].
  apply insert_key_sorted; exact IH.
Qed.

Lemma insert_sorted_perm a l : Permutation (insert_sorted a l) (a :: l).
Proof.
  induction l as [|b l IH]; simpl; [reflexivity|].
  destruct (a <=? b)%Z; [reflexivity|].
  rewrite IH; apply perm_swap.
Qed.

Lemma np_sort_perm l : Permutation (np_sort l) l.
Proof.
  induction l as [|a l IH]; simpl; [reflexivity|].
  rewrite insert_sorted_perm; constructor; exact IH.
Qed.

Lemma insert_sorted_sorted a l :
  StronglySorted Z.le l -> StronglySorted Z.le (insert_sorted a l).
Proof.
  induction l as [|b l IH]; intros Hs; simpl.
  - constructor; constructor.
  - inversion Hs as [|? ? Hs' Hf]; subst.
    destruct (a <=? b)%Z eqn:E.
    + constructor; [exact Hs|].
      apply Z.leb_le in E; constructor; [exact E|].
      eapply Forall_impl; [|exact Hf]; simpl; intros; lia.
    + apply Z.leb_gt in E; constructor; [apply IH; exact Hs'|].
      apply (Permutation_Forall (Permutation_sym (insert_sorted_perm a l))).
      constructor; [lia | exact Hf].
Qed.

Lemma np_sort_sorted l : StronglySorted Z.le (np_sort l).
Proof.
  induction l as [|a l IH]; simpl; [constructor|].
  apply insert_sorted_sorted; exact IH.
Qed.

(** ** [argsort] on a permutation *)


Lemma is_perm_NoDup p : is_perm p -> NoDup p.
Proof.
  intros H; eapply Permutation_NoDup; [apply Permutation_sym; exact H|].
  apply Finite.Injective_map_NoDup; [intros a b; apply Nat2Z.inj | apply seq_NoDup].
Qed.

Lemma is_perm_range p a :
  is_perm p -> In a p -> (0 <= a < Z.of_nat (length p))%Z.
Proof.
  intros H Ha; eapply Permutation_in in Ha; [|exact H].
  apply in_map_iff in Ha; destruct Ha as [w [<- Hw]]; apply in_seq in Hw; lia.
Qed.

Lemma is_perm_nth p j :
  is_perm p -> j < length p -> (0 <= nth j p 0 < Z.of_nat (length p))%Z.
Proof. intros H Hj; apply is_perm_range; [exact H | apply nth_In; exact Hj]. Qed.

Lemma map_fst_combine {X Y} (l : list X) (l' : list Y) :
  length l = length l' -> map fst (combine l l') = l.
Proof.
  revert l'; induction l as [|a l IH]; intros [|b l'] H; simpl in *; try discriminate; auto.
  f_equal; apply IH; lia.
Qed.

Lemma map_snd_combine {X Y} (l : list X) (l' : list Y) :
  length l = length l' -> map snd (combine l l') = l'.
Proof.
  revert l'; induction l as [|a l IH]; intros [|b l'] H; simpl in *; try discriminate; auto.
  f_equal; apply IH; lia.
Qed.

Lemma in_combine_seq (p : list Z) s a i :
  In (a, i) (combine p (seq s (length p))) ->
  s <= i < s + length p /\ nth (i - s) p 0%Z = a.
Proof.
  revert s; induction p as [|b p IH]; intros s H; simpl in H; [contradiction|].
  destruct H as [H|H].
  - inversion H; subst; simpl; rewrite Nat.sub_diag; split; [lia | reflexivity].
  - apply IH in H; destruct H as [Hr Hn]; split; [simpl; lia|].
    replace (i - s) with (S (i - S s)) by lia; exact Hn.
Qed.

Lemma argsort_length p : length (argsort p) = length p.
Proof.
  unfold argsort; rewrite length_map.
  rewrite (Permutation_length (sort_keys_perm _)), length_combine, length_seq; lia.
Qed.

Lemma argsort_perm p : Permutation (argsort p) (seq 0 (length p)).
Proof.
  unfold argsort.
  rewrite (Permutation_map snd (sort_keys_perm _)).
  rewrite map_snd_combine by (rewrite length_seq; reflexivity); reflexivity.
Qed.

Lemma argsort_keys p :
  is_perm p ->
  map fst (sort_keys (combine p (seq 0 (length p)))) = map Z.of_nat (seq 0 (length p)).
Proof.
  intros H; apply sorted_perm_unique.
  - apply sort_keys_sorted.
  - apply range_sorted.
  - rewrite (Permutation_map fst (sort_keys_perm _)).
    rewrite map_fst_combine by (rewrite length_seq; reflexivity); exact H.
Qed.

Lemma argsort_nth p i :
  is_perm p -> i < length p ->
  nth i (argsort p) 0 < length p /\ nth (nth i (argsort p) 0) p 0%Z = Z.of_nat i.
Proof.
  intros H Hi.
  set (srt := sort_keys (combine p (seq 0 (length p)))).
  assert (Hlen : length srt = length p).
  { unfold srt; rewrite (Permutation_length (sort_keys_perm _)), length_combine, length_seq; lia. }
  assert (Hin : In (nth i srt (0%Z, 0)) (combine p (seq 0 (length p)))).
  { eapply Permutation_in; [apply sort_keys_perm|]; apply nth_In; fold srt; lia. }
  assert (Hfst : fst (nth i srt (0%Z, 0)) = Z.of_nat i).
  { rewrite <- (map_nth fst); unfold srt; rewrite argsort_keys by exact H.
    rewrite (nth_indep _ _ (Z.of_nat 0)) by (rewrite length_map, length_seq; exact Hi).
    rewrite map_nth, seq_nth by exact Hi; reflexivity. }
  assert (Hsnd : nth i (argsort p) 0 = snd (nth i srt (0%Z, 0))).
  { unfold argsort; fold srt; change 0 with (snd (0%Z, 0)) at 1; apply map_nth. }
  destruct (nth i srt (0%Z, 0)) as [a j] eqn:E; simpl in *.
  apply in_combine_seq in Hin; destruct Hin as [Hr Hn].
  rewrite Nat.sub_0_r in Hn; rewrite Hsnd; split; [lia | congruence].
Qed.

Lemma index_of_nth l i :
  NoDup l -> i < length l -> index_of (nth i l 0) l = i.
Proof.
  revert i; induction l as [|a l IH]; intros i Hnd Hi; simpl in *; [lia|].
  inversion Hnd as [|? ? Hna Hnd']; subst.
  destruct i as [|i].
  - rewrite Nat.eqb_refl; reflexivity.
  - destruct (a =? nth i l 0) eqn:E.
    + apply Nat.eqb_eq in E; exfalso; apply Hna; rewrite E; apply nth_In; lia.
    + f_equal; apply IH; [exact Hnd' | lia].
Qed.

Lemma index_ofZ_nth l i :
  NoDup l -> i < length l -> index_ofZ (nth i l 0%Z) l = i.
Proof.
  revert i; induction l as [|a l IH]; intros i Hnd Hi; simpl in *; [lia|].
  inversion Hnd as [|? ? Hna Hnd']; subst.
  destruct i as [|i].
  - rewrite Z.eqb_refl; reflexivity.
  - destruct (a =? nth i l 0%Z)%Z eqn:E.
    + apply Z.eqb_eq in E; exfalso; apply Hna; rewrite E; apply nth_In; lia.
    + f_equal; apply IH; [exact Hnd' | lia].
Qed.

Lemma nth_index_ofZ l a :
  In a l -> index_ofZ a l < length l /\ nth (index_ofZ a l) l 0%Z = a.
Proof.
  induction l as [|b l IH]; intros H; simpl in *; [contradiction|].
  destruct (b =? a)%Z eqn:E.
  - apply Z.eqb_eq in E; split; [lia | exact E].
  - apply Z.eqb_neq in E; destruct H as [H|H]; [congruence|].
    destruct (IH H); split; [lia | assumption].
Qed.

(** On a permutation, the place of [j] in [argsort p] is [p[j]]. *)
Lemma argsort_index p j :
  is_perm p -> j < length p -> index_of j (argsort p) = Z.to_nat (nth j p 0%Z).
Proof.
  intros H Hj.
  pose proof (is_perm_nth H Hj) as Hr.
  set (i := Z.to_nat (nth j p 0%Z)).
  assert (Hi : i < length p) by (unfold i; lia).
  destruct (argsort_nth H Hi) as [Hlt Hn].
  assert (Hs : nth i (argsort p) 0 = j).
  { pose proof (is_perm_NoDup H) as Hnd.
    rewrite (NoDup_nth p 0%Z) in Hnd; apply Hnd; [exact Hlt | exact Hj|].
    rewrite Hn; unfold i; lia. }
  rewrite <- Hs at 1; apply index_of_nth.
  - eapply Permutation_NoDup; [apply Permutation_sym, argsort_perm | apply seq_NoDup].
  - rewrite argsort_length; exact Hi.
Qed.

Lemma index_of_app_in j l1 l2 :
  In j l1 -> index_of j (l1 ++ l2) = index_of j l1.
Proof.
  induction l1 as [|a l1 IH]; intros H; simpl in *; [contradiction|].
  destruct (a =? j) eqn:E; [reflexivity|].
  apply Nat.eqb_neq in E; destruct H as [H|H]; [congruence|]; f_equal; auto.
Qed.

Lemma index_of_app_out j l1 l2 :
  ~ In j l1 -> index_of j (l1 ++ l2) = length l1 + index_of j l2.
Proof.
  induction l1 as [|a l1 IH]; intros H; simpl in *; [reflexivity|].
  destruct (a =? j) eqn:E.
  - apply Nat.eqb_eq in E; exfalso; apply H; left; exact E.
  - f_equal; apply IH; intros Hin; apply H; right; exact Hin.
Qed.

Lemma index_of_shift j k l :
  index_of (j + k) (map (fun i => i + k) l) = index_of j l.
Proof.
  induction l as [|a l IH]; simpl; [reflexivity|].
  destruct (a =? j) eqn:E.
  - apply Nat.eqb_eq in E; subst; rewrite Nat.eqb_refl; reflexivity.
  - apply Nat.eqb_neq in E.
    destruct (a + k =? j + k) eqn:E'; [apply Nat.eqb_eq in E'; lia|].
    f_equal; exact IH.
Qed.


Lemma length_reorder_axes pos : length (reorder_axes pos) = 2 * length pos.
Proof. unfold reorder_axes; rewrite length_app, length_map, argsort_length; lia. Qed.

Lemma reorder_axes_index p j :
  is_perm p -> j < 2 * length p ->
  index_of j (reorder_axes p)
  = if j <? length p then Z.to_nat (nth j p 0%Z)
    else length p + Z.to_nat (nth (j - length p) p 0%Z).
Proof.
  intros H Hj; unfold reorder_axes.
  destruct (j <? length p) eqn:E.
  - apply Nat.ltb_lt in E.
    rewrite index_of_app_in; [apply argsort_index; assumption|].
    eapply Permutation_in; [apply Permutation_sym, argsort_perm | apply in_seq; lia].
  - apply Nat.ltb_ge in E.
    rewrite index_of_app_out.
    + rewrite argsort_length; f_equal.
      replace j with ((j - length p) + length p) at 1 by lia.
      rewrite index_of_shift; apply argsort_index; [exact H | lia].
    + intros Hin; eapply Permutation_in in Hin; [|apply argsort_perm].
      apply in_seq in Hin; lia.
Qed.

Lemma inverse_perm_length p : length (inverse_perm p) = length p.
Proof. unfold inverse_perm; rewrite length_map, length_seq; reflexivity. Qed.

Lemma inverse_perm_nth p i :
  i < length p -> nth i (inverse_perm p) 0%Z = Z.of_nat (index_ofZ (Z.of_nat i) p).
Proof.
  intros Hi; unfold inverse_perm; rewrite nth_map_seq by exact Hi; reflexivity.
Qed.

Lemma is_perm_mem p i : is_perm p -> i < length p -> In (Z.of_nat i) p.
Proof.
  intros H Hi; eapply Permutation_in; [apply Permutation_sym; exact H|].
  apply in_map; apply in_seq; lia.
Qed.

Lemma inverse_perm_is_perm p : is_perm p -> is_perm (inverse_perm p).
Proof.
  intros H; unfold is_perm; rewrite inverse_perm_length.
  apply NoDup_Permutation_bis.
  - apply (NoDup_nth _ 0%Z); rewrite inverse_perm_length; intros i j Hi Hj Heq.
    rewrite !inverse_perm_nth in Heq by assumption.
    apply Nat2Z.inj in Heq.
    destruct (nth_index_ofZ _ _ (is_perm_mem H Hi)) as [_ Hni].
    destruct (nth_index_ofZ _ _ (is_perm_mem H Hj)) as [_ Hnj].
    rewrite Heq in Hni; rewrite Hni in Hnj; apply Nat2Z.inj; exact Hnj.
  - rewrite inverse_perm_length, length_map, length_seq; lia.
  - intros a Ha; unfold inverse_perm in Ha; apply in_map_iff in Ha.
    destruct Ha as [j [<- Hj]]; apply in_seq in Hj.
    apply in_map, in_seq.
    destruct (nth_index_ofZ _ _ (is_perm_mem H (proj2 Hj))); lia.
Qed.

Lemma inverse_perm_cancel p j :
  is_perm p -> j < length p ->
  Z.to_nat (nth (Z.to_nat (nth j p 0%Z)) (inverse_perm p) 0%Z) = j.
Proof.
  intros H Hj; pose proof (is_perm_nth H Hj) as Hr.
  rewrite inverse_perm_nth by lia.
  rewrite Z2Nat.id by lia.
  rewrite index_ofZ_nth; [lia | apply is_perm_NoDup; exact H | exact Hj].
Qed.

(** ** [reorder_matrix] *)

Section ReorderFacts.

Variable A : Type.
Variable c0 : A.

Lemma chunks_concat (m : list (list A)) d :
  Forall (fun r => length r = d) m -> chunks (length m) d (concat m) = m.
Proof.
  induction m as [|r m IH]; intros H; simpl; [reflexivity|].
  inversion H as [|? ? Hr Hm]; subst.
  rewrite firstn_app, Nat.sub_diag, firstn_O, app_nil_r, firstn_all.
  rewrite skipn_app, Nat.sub_diag, skipn_all, skipn_O; simpl.
  rewrite IH by exact Hm; reflexivity.
Qed.

Lemma length_concat_rows (m : list (list A)) d :
  Forall (fun r => length r = d) m -> length (concat m) = length m * d.
Proof.
  induction 1 as [|r m Hr Hm IH]; simpl; [reflexivity|].
  rewrite length_app, IH, Hr; reflexivity.
Qed.

Lemma concat_chunks r d : forall l : list A,
  length l = r * d -> concat (chunks r d l) = l.
Proof.
  induction r as [|r IH]; intros l H; simpl in *.
  - destruct l; [reflexivity | discriminate].
  - rewrite IH; [apply firstn_skipn | rewrite length_skipn; lia].
Qed.

Lemma chunks_rows r d : forall l : list A,
  length l = r * d ->
  length (chunks r d l) = r /\ Forall (fun w => length w = d) (chunks r d l).
Proof.
  induction r as [|r IH]; intros l H; simpl in *; [split; [reflexivity | constructor]|].
  destruct (IH (skipn d l)) as [Hl Hf]; [rewrite length_skipn; lia|].
  split; [rewrite Hl; reflexivity|].
  constructor; [rewrite length_firstn; lia | exact Hf].
Qed.

Lemma length_transpose_flat (flat : list A) axes :
  length (transpose_flat c0 flat axes) = length flat.
Proof. unfold transpose_flat; rewrite length_map, length_seq; reflexivity. Qed.

Lemma transpose_flat_id (flat : list A) axes :
  length flat = 2 ^ length axes ->
  (forall j, j < length axes -> index_of j axes = j) ->
  transpose_flat c0 flat axes = flat.
Proof.
  intros Hlen Hid; unfold transpose_flat.
  rewrite (map_seq_ext _ (fun idx => nth idx flat c0)); [apply map_nth_seq|].
  intros i Hi; rewrite transpose_src_id; [reflexivity | exact Hid | lia].
Qed.

Lemma transpose_flat_compose (flat : list A) ax1 ax2 :
  length flat = 2 ^ length ax1 ->
  length ax1 = length ax2 ->
  (forall j, j < length ax1 ->
             index_of j ax1 < length ax1 /\ index_of (index_of j ax1) ax2 = j) ->
  transpose_flat c0 (transpose_flat c0 flat ax1) ax2 = flat.
Proof.
  intros Hlen Hax Hinv.
  unfold transpose_flat at 1; rewrite length_transpose_flat.
  rewrite (map_seq_ext _ (fun idx => nth idx flat c0)); [apply map_nth_seq|].
  intros i Hi; unfold transpose_flat.
  rewrite nth_map_seq by (rewrite Hlen, Hax; apply transpose_src_lt).
  rewrite transpose_src_compose; [reflexivity | exact Hax | exact Hinv | lia].
Qed.

Lemma pow2_double k : 2 ^ (2 * k) = 2 ^ k * 2 ^ k.
Proof. replace (2 * k) with (k + k) by lia; apply Nat.pow_add_r. Qed.

Lemma reorder_matrix_square (m : list (list A)) pos :
  square (2 ^ length pos) m ->
  reorder_matrix c0 m pos
  = Some (chunks (2 ^ length pos) (2 ^ length pos)
                 (transpose_flat c0 (concat m) (reorder_axes pos))).
Proof.
  intros [Hl Hf]; unfold reorder_matrix.
  rewrite (length_concat_rows Hf), Hl, <- pow2_double, Nat.eqb_refl.
  reflexivity.
Qed.

Lemma reorder_axes_inverse p j :
  is_perm p -> j < 2 * length p ->
  index_of j (reorder_axes p) < 2 * length p
  /\ index_of (index_of j (reorder_axes p)) (reorder_axes (inverse_perm p)) = j.
Proof.
  intros H Hj.
  pose proof (inverse_perm_is_perm H) as Hq.
  pose proof (inverse_perm_length p) as Hql.
  rewrite (reorder_axes_index H Hj).
  destruct (j <? length p) eqn:E.
  - apply Nat.ltb_lt in E; pose proof (is_perm_nth H E) as Hr.
    split; [lia|].
    rewrite (reorder_axes_index Hq) by (rewrite Hql; lia).
    rewrite Hql.
    destruct (Nat.ltb_spec (Z.to_nat (nth j p 0%Z)) (length p)); [|lia].
    apply inverse_perm_cancel; assumption.
  - apply Nat.ltb_ge in E.
    assert (E' : j - length p < length p) by lia.
    pose proof (is_perm_nth H E') as Hr.
    split; [lia|].
    rewrite (reorder_axes_index Hq) by (rewrite Hql; lia).
    rewrite Hql.
    destruct (Nat.ltb_spec (length p + Z.to_nat (nth (j - length p) p 0%Z)) (length p));
      [lia|].
    replace (length p + Z.to_nat (nth (j - length p) p 0%Z) - length p)
      with (Z.to_nat (nth (j - length p) p 0%Z)) by lia.
    rewrite inverse_perm_cancel by assumption; lia.
Qed.

Lemma identity_perm_is_perm k : is_perm (identity_perm k).
Proof.
  unfold is_perm, identity_perm; rewrite length_map, length_seq; reflexivity.
Qed.

Lemma reorder_axes_identity k j :
  j < 2 * k -> index_of j (reorder_axes (identity_perm k)) = j.
Proof.
  intros Hj.
  assert (Hl : length (identity_perm k) = k)
    by (unfold identity_perm; rewrite length_map, length_seq; reflexivity).
  rewrite (reorder_axes_index (identity_perm_is_perm k)) by (rewrite Hl; exact Hj).
  rewrite Hl; unfold identity_perm.
  destruct (Nat.ltb_spec j k).
  - rewrite nth_map_seq by assumption; lia.
  - rewrite nth_map_seq by lia; lia.
Qed.

(** C7: on a square matrix of side [2 ^ k], reordering by a permutation
    [p] of [0 .. k-1] and then by its inverse gives back the matrix,
    entry for entry, and reordering by the identity permutation changes
    nothing. *)
Theorem reorder_matrix_inverse (k : nat) (m : list (list A)) (p : list Z) :
  length p = k -> square (2 ^ k) m -> is_perm p ->
  (exists m1, reorder_matrix c0 m p = Some m1
              /\ reorder_matrix c0 m1 (inverse_perm p) = Some m)
  /\ reorder_matrix c0 m (identity_perm k) = Some m.
Proof.
  intros Hk Hsq Hp; subst k.
  assert (Hflat : length (concat m) = 2 ^ (2 * length p)).
  { destruct Hsq as [Hl Hf]; rewrite (length_concat_rows Hf), Hl, pow2_double; reflexivity. }
  split.
  - eexists; split; [apply reorder_matrix_square; exact Hsq|].
    set (flat1 := transpose_flat c0 (concat m) (reorder_axes p)).
    assert (Hl1 : length flat1 = 2 ^ length p * 2 ^ length p).
    { unfold flat1; rewrite length_transpose_flat, Hflat; apply pow2_double. }
    rewrite reorder_matrix_square; rewrite inverse_perm_length.
    + rewrite concat_chunks by exact Hl1.
      unfold flat1; rewrite transpose_flat_compose.
      * destruct Hsq as [Hl Hf]; rewrite <- Hl at 1; rewrite chunks_concat by exact Hf.
        reflexivity.
      * rewrite length_reorder_axes; exact Hflat.
      * rewrite !length_reorder_axes, inverse_perm_length; reflexivity.
      * intros j Hj; rewrite length_reorder_axes in *.
        apply reorder_axes_inverse; assumption.
    + destruct (chunks_rows _ _ _ Hl1); split; assumption.
  - assert (Hl : length (identity_perm (length p)) = length p)
      by (unfold identity_perm; rewrite length_map, length_seq; reflexivity).
    rewrite reorder_matrix_square by (rewrite Hl; exact Hsq).
    rewrite Hl, transpose_flat_id.
    + destruct Hsq as [Hlm Hf]; rewrite <- Hlm at 1; rewrite chunks_concat by exact Hf.
      reflexivity.
    + rewrite length_reorder_axes, Hl; exact Hflat.
    + intros j Hj; rewrite length_reorder_axes, Hl in Hj.
      apply reorder_axes_identity; exact Hj.
Qed.

End ReorderFacts.

Lemma reorder_matrix_inverse_witness :
  (exists m1, reorder_matrix 0%Z
                [[1; 2; 3; 4]; [5; 6; 7; 8]; [9; 10; 11; 12]; [13; 14; 15; 16]]%Z
                [1; 0]%Z = Some m1
              /\ reorder_matrix 0%Z m1 (inverse_perm [1; 0]%Z)
                 = Some [[1; 2; 3; 4]; [5; 6; 7; 8]; [9; 10; 11; 12]; [13; 14; 15; 16]]%Z)
  /\ reorder_matrix 0%Z
       [[1; 2; 3; 4]; [5; 6; 7; 8]; [9; 10; 11; 12]; [13; 14; 15; 16]]%Z
       (identity_perm 2)
     = Some [[1; 2; 3; 4]; [5; 6; 7; 8]; [9; 10; 11; 12]; [13; 14; 15; 16]]%Z.
Proof.
  apply (@reorder_matrix_inverse Z 0%Z 2).
  - reflexivity.
  - split; [reflexivity | repeat constructor].
  - unfold is_perm; simpl; apply perm_swap.
Defined.

(** ** The controlled-gate embedding *)

Section ControlledFacts.

Variable A : Type.
Variables c0 c1 : A.

Lemma length_mapi_from {X Y} (f : nat -> X -> Y) l i : length (mapi_from i f l) = length l.
Proof. revert i; induction l; intros i; simpl; [reflexivity | rewrite IHl; reflexivity]. Qed.

Lemma mapi_from_rows {X Y} (f : nat -> list X -> list Y) d l i :
  (forall k r, length (f k r) = length r) ->
  Forall (fun r => length r = d) l ->
  Forall (fun r => length r = d) (mapi_from i f l).
Proof.
  intros Hf H; revert i; induction H as [|r l Hr Hl IH]; intros i; simpl; constructor.
  - rewrite Hf; exact Hr.
  - apply IH.
Qed.

Lemma eye_square dim : square dim (eye c0 c1 dim).
Proof.
  unfold square, eye; split; [rewrite length_map, length_seq; reflexivity|].
  apply Forall_forall; intros r Hr; apply in_map_iff in Hr.
  destruct Hr as [i [<- _]]; rewrite length_map, length_seq; reflexivity.
Qed.

Lemma set_block_square dim (m : list (list A)) cd u m' :
  square dim m -> set_block m cd u = Some m' -> square dim m'.
Proof.
  intros [Hl Hf] H; unfold set_block in H.
  destruct (_ && _); [|discriminate]; inversion H; subst m'; clear H.
  split; [unfold mapi; rewrite length_mapi_from; exact Hl|].
  apply mapi_from_rows; [|exact Hf].
  intros k r; unfold mapi; apply length_mapi_from.
Qed.

Lemma pow2_pos n : 1 <= 2 ^ n.
Proof. induction n; simpl; lia. Qed.

Lemma pow2_is_2 n : 2 ^ n = 2 -> n = 1.
Proof.
  destruct n as [|[|n]]; simpl; [lia | reflexivity|].
  pose proof (pow2_pos n); lia.
Qed.

(** The only register on which [ControlledGate.__init__] gets through is one
    control and one target: the identity is created with side
    [2^t + 2^c], and that is the side [2^(c+t)] which [reorder_matrix]
    needs for these sizes alone. *)
Lemma controlled_matrix_defined ctrls targs (u m : list (list A)) :
  controlled_matrix c0 c1 ctrls targs u = Some m ->
  length ctrls = 1 /\ length targs = 1.
Proof.
  unfold controlled_matrix; intros H.
  destruct (set_block _ _ _) as [m1|] eqn:Hb; simpl in H; [|discriminate].
  pose proof (set_block_square _ _ (eye_square _) Hb) as [Hl Hf].
  unfold reorder_matrix in H.
  destruct (Nat.eqb_spec (length (concat m1)) (2 ^ (2 * length (ctrls ++ targs))));
    [|discriminate].
  rewrite (length_concat_rows Hf), Hl, pow2_double, length_app, Nat.pow_add_r in e.
  pose proof (pow2_pos (length ctrls)) as Hc.
  pose proof (pow2_pos (length targs)) as Ht.
  set (a := 2 ^ length ctrls) in *; set (b := 2 ^ length targs) in *.
  assert (Hab : b + a = a * b).
  { destruct (Nat.lt_trichotomy (b + a) (a * b)) as [L|[E|G]]; [|exact E|]; exfalso.
    - pose proof (Nat.mul_lt_mono _ _ _ _ L L); lia.
    - pose proof (Nat.mul_lt_mono _ _ _ _ G G); lia. }
  assert (a = 2 /\ b = 2) as [Ha2 Hb2].
  { destruct a as [|[|a]]; [lia | lia|].
    destruct b as [|[|b]]; [lia | lia|]. nia. }
  split; apply pow2_is_2; assumption.
Qed.

(** With one control below one target the embedding is the expected one:
    identity on the block where the control is 0, [u] where it is 1. *)
Lemma controlled_matrix_one_one (a b : Z) (u00 u01 u10 u11 : A) :
  (a <= b)%Z ->
  controlled_matrix c0 c1 [a] [b] [[u00; u01]; [u10; u11]]
  = Some [[c1; c0; c0; c0]; [c0; c1; c0; c0]; [c0; c0; u00; u01]; [c0; c0; u10; u11]].
Proof.
  intros Hab; unfold controlled_matrix, reorder_matrix, argsort; simpl combine.
  simpl sort_keys; simpl fst.
  destruct (Z.leb_spec a b); [|lia].
  reflexivity.
Qed.

End ControlledFacts.

(** C1 (fails on the code): with two controls and one target the constructor
    does not produce a matrix of side [2^3]; the identity has side
    [2 + 4 = 6], the block [6:, 6:] is empty and the assignment of the
    2 x 2 target matrix raises. *)
Theorem controlled_matrix_two_controls :
  controlled_matrix 0%Z 1%Z [0; 1]%Z [2%Z] [[0; 1]; [1; 0]]%Z = None.
Proof. reflexivity. Qed.

(** The same with one control and two targets: side [4 + 2 = 6], a block of
    side 2 for a 4 x 4 target matrix. *)
Lemma controlled_matrix_two_targets :
  controlled_matrix 0%Z 1%Z [0%Z] [1; 2]%Z
    [[1; 0; 0; 0]; [0; 0; 1; 0]; [0; 1; 0; 0]; [0; 0; 0; 1]]%Z = None.
Proof. reflexivity. Qed.

(** ** Membership lists and dictionaries *)

Lemma existsb_Zeqb_In a l : existsb (Z.eqb a) l = true <-> In a l.
Proof.
  rewrite existsb_exists; split.
  - intros [b [Hb E]]; apply Z.eqb_eq in E; subst; exact Hb.
  - intros H; exists a; split; [exact H | apply Z.eqb_refl].
Qed.

Lemma mark_used_In used q a : In a (mark_used used q) <-> In a used \/ a = q.
Proof.
  unfold mark_used; destruct (existsb (Z.eqb q) used) eqn:E.
  - apply existsb_Zeqb_In in E; split; [auto | intros [H|H]; subst; auto].
  - rewrite in_app_iff; simpl; split; intros [H|H]; auto.
    + destruct H as [H|[]]; auto.
Qed.

Lemma mark_used_NoDup used q : NoDup used -> NoDup (mark_used used q).
Proof.
  intros H; unfold mark_used; destruct (existsb (Z.eqb q) used) eqn:E; [exact H|].
  assert (Hn : ~ In q used).
  { intros Hin; apply existsb_Zeqb_In in Hin; congruence. }
  apply NoDup_app; [exact H | constructor; [intros [] | constructor]|].
  intros a Ha [Hq|[]]; subst; auto.
Qed.

Lemma fold_mark_used_In l : forall used a,
  In a (fold_left mark_used l used) <-> In a used \/ In a l.
Proof.
  induction l as [|q l IH]; intros used a; simpl; [tauto|].
  rewrite IH, mark_used_In; split; intros H; intuition auto.
Qed.

Lemma fold_mark_used_NoDup l : forall used,
  NoDup used -> NoDup (fold_left mark_used l used).
Proof.
  induction l as [|q l IH]; intros used H; simpl; [exact H|].
  apply IH, mark_used_NoDup, H.
Qed.

Lemma dict_keys_set k v d : dict_keys (dict_set k v d) = mark_used (dict_keys d) k.
Proof.
  unfold mark_used; induction d as [|[k' v'] d IH]; simpl; [reflexivity|].
  rewrite (Z.eqb_sym k k'); destruct (k' =? k)%Z eqn:E; simpl.
  - apply Z.eqb_eq in E; subst; reflexivity.
  - rewrite IH; destruct (existsb (Z.eqb k) (dict_keys d)); reflexivity.
Qed.

Lemma dict_keys_fold l : forall d,
  dict_keys (fold_left (fun d kv => dict_set (fst kv) (snd kv) d) l d)
  = fold_left mark_used (map fst l) (dict_keys d).
Proof.
  induction l as [|[k v] l IH]; intros d; simpl; [reflexivity|].
  rewrite IH, dict_keys_set; reflexivity.
Qed.

Lemma length_zrange a b : length (zrange a b) = Z.to_nat (b - a).
Proof. unfold zrange; rewrite length_map, length_seq; reflexivity. Qed.

(** The default mapping has one entry for each distinct qubit of [pos]. *)
Lemma length_dict_zip_range pos :
  length (dict_zip pos (zrange 0 (Z.of_nat (length pos)))) = length (nodup Z.eq_dec pos).
Proof.
  unfold dict_zip.
  rewrite <- (length_map fst), (dict_keys_fold _ []).
  rewrite map_fst_combine by (rewrite length_zrange; lia).
  apply Permutation_length, NoDup_Permutation.
  - apply fold_mark_used_NoDup; constructor.
  - apply NoDup_nodup.
  - intros a; rewrite fold_mark_used_In, nodup_In; simpl; tauto.
Qed.

Lemma dict_set_fresh k v d : ~ In k (dict_keys d) -> dict_set k v d = d ++ [(k, v)].
Proof.
  induction d as [|[k' v'] d IH]; intros H; simpl in *; [reflexivity|].
  destruct (k' =? k)%Z eqn:E; [apply Z.eqb_eq in E; tauto|].
  rewrite IH by tauto; reflexivity.
Qed.

Lemma dict_fold_fresh ks : forall vs d,
  NoDup (dict_keys d ++ ks) ->
  fold_left (fun d kv => dict_set (fst kv) (snd kv) d) (combine ks vs) d
  = d ++ combine ks vs.
Proof.
  induction ks as [|k ks IH]; intros vs d H; simpl; [rewrite app_nil_r; reflexivity|].
  destruct vs as [|v vs]; simpl; [rewrite app_nil_r; reflexivity|].
  pose proof (NoDup_remove_2 _ _ _ H) as Hk.
  rewrite dict_set_fresh by (intros Hin; apply Hk, in_or_app; left; exact Hin).
  rewrite IH.
  - rewrite <- app_assoc; reflexivity.
  - unfold dict_keys; rewrite map_app; simpl.
    rewrite <- app_assoc; exact H.
Qed.

Lemma dict_zip_distinct ks vs : NoDup ks -> dict_zip ks vs = combine ks vs.
Proof. intros H; unfold dict_zip; rewrite dict_fold_fresh; [reflexivity | exact H]. Qed.

(** ** The builder *)

(** C9: a rotation builder called with angle [0.0] returns the circuit as it
    is, and called with an angle that does not compare equal to zero it
    appends exactly that one gate. *)
Theorem rotation_zero_or_one_gate (c : QuantumCircuit) (p : Z) (a : float) :
  (rx c p 0%float = c /\ ry c p 0%float = c /\ rz c p 0%float = c)
  /\ (PrimFloat.eqb a 0%float = false ->
      rx c p a = set_gates c (gates c ++ [ParaSingleQubitGate RXGate p a])
      /\ ry c p a = set_gates c (gates c ++ [ParaSingleQubitGate RYGate p a])
      /\ rz c p a = set_gates c (gates c ++ [ParaSingleQubitGate RZGate p a])).
Proof.
  split; [repeat split|].
  intros H; unfold rx, ry, rz, rotation; rewrite H; repeat split.
Qed.

Lemma rotation_zero_or_one_gate_witness :
  PrimFloat.eqb 1.5%float 0%float = false
  /\ rx (new_circuit 2) 1 1.5%float
     = set_gates (new_circuit 2) [ParaSingleQubitGate RXGate 1 1.5%float]
  /\ rx (new_circuit 2) 1 0%float = new_circuit 2.
Proof.
  destruct (rotation_zero_or_one_gate (new_circuit 2) 1 1.5%float) as [[Hz _] Hn].
  split; [reflexivity|].
  split; [apply Hn; reflexivity | exact Hz].
Defined.

(** C10: when [cbits] is given and its length is not the number of distinct
    qubits of [pos], [measure] raises CircuitError after it has replaced
    [measures] by the default mapping of [pos] and stored the new [shots] and
    [tomo]; the two other fields are the old ones.  Without a repeated qubit
    the default mapping is [pos[i] -> i]. *)
Theorem measure_mismatch_keeps_assignments
        (c : QuantumCircuit) (pos : list Z) (sh : Z) (cbits : list Z) (tm : bool) :
  cbits <> [] ->
  length cbits <> length (nodup Z.eq_dec pos) ->
  measure c pos sh cbits tm
  = (mkCircuit (num c) sh tm (gates c) (openqasm c)
               (dict_zip pos (zrange 0 (Z.of_nat (length pos)))),
     Raised "CircuitError")
  /\ (NoDup pos ->
      dict_zip pos (zrange 0 (Z.of_nat (length pos)))
      = combine pos (zrange 0 (Z.of_nat (length pos)))).
Proof.
  intros Hne Hlen; split; [|apply dict_zip_distinct].
  unfold measure; destruct cbits as [|b cbits]; [congruence|].
  cbn [measures].
  rewrite length_dict_zip_range.
  destruct (Nat.eqb_spec (length (b :: cbits)) (length (nodup Z.eq_dec pos)));
    [contradiction | reflexivity].
Qed.

Lemma measure_mismatch_keeps_assignments_witness :
  measure (new_circuit 3) [2; 0]%Z 50 [7]%Z true
  = (mkCircuit 3 50 true [] [] [(2, 0); (0, 1)]%Z, Raised "CircuitError").
Proof.
  destruct (@measure_mismatch_keeps_assignments (new_circuit 3) [2; 0]%Z 50 [7]%Z true)
    as [H _]; [discriminate | simpl; lia | exact H].
Defined.

(** ** Rows of the scheduler state *)

Lemma length_update_row {X} i (f : X -> X) l : length (update_row i f l) = length l.
Proof.
  revert i; induction l as [|r l IH]; intros [|i]; simpl; auto.
Qed.

Lemma nth_update_row {X} a (f : X -> X) l i d :
  nth i (update_row a f l) d
  = if (i =? a) && (i <? length l) then f (nth i l d) else nth i l d.
Proof.
  revert a i; induction l as [|r l IH]; intros a i; simpl.
  - destruct a, i; simpl; try reflexivity; rewrite andb_false_r; reflexivity.
  - destruct a as [|a], i as [|i]; simpl; try reflexivity.
    rewrite IH; reflexivity.
Qed.

Lemma nth_mapi_from {X Y} (g : nat -> X -> Y) l : forall s i dx dy,
  nth i (mapi_from s g l) dy = if i <? length l then g (s + i) (nth i l dx) else dy.
Proof.
  induction l as [|r l IH]; intros s i dx dy; simpl.
  - destruct i; reflexivity.
  - destruct i as [|i]; simpl; [rewrite Nat.add_0_r; reflexivity|].
    rewrite (IH (S s) i dx dy).
    replace (S s + i) with (s + S i) by lia; reflexivity.
Qed.

Lemma nth_mapi {X Y} (g : nat -> X -> Y) l i dx dy :
  nth i (mapi g l) dy = if i <? length l then g i (nth i l dx) else dy.
Proof. unfold mapi; rewrite (nth_mapi_from g l 0 i dx dy); reflexivity. Qed.

Lemma length_map_range {X} a b (f : nat -> X -> X) q : length (map_range a b f q) = length q.
Proof. unfold map_range, mapi; apply length_mapi_from. Qed.

Lemma nth_map_range {X} a b (f : nat -> X -> X) q i d :
  nth i (map_range a b f q) d
  = if (a <=? i) && (i <? b) && (i <? length q) then f i (nth i q d) else nth i q d.
Proof.
  unfold map_range; rewrite (nth_mapi _ q i d d).
  destruct (Nat.ltb_spec i (length q)).
  - rewrite andb_true_r; reflexivity.
  - rewrite andb_false_r, nth_overflow by lia; reflexivity.
Qed.

Lemma update_row_fix {X} i (f : X -> X) l d :
  (i < length l -> f (nth i l d) = nth i l d) -> update_row i f l = l.
Proof.
  intros H; apply nth_ext with (d := d) (d' := d); [apply length_update_row|].
  intros k Hk; rewrite nth_update_row.
  destruct (Nat.eqb_spec k i); simpl; [|reflexivity].
  subst; destruct (Nat.ltb_spec i (length l)); [apply H; assumption | reflexivity].
Qed.

Lemma update_row_ext {X} i (f g : X -> X) l d :
  f (nth i l d) = g (nth i l d) -> update_row i f l = update_row i g l.
Proof.
  intros H; apply nth_ext with (d := d) (d' := d);
    [rewrite !length_update_row; reflexivity|].
  intros k Hk; rewrite !nth_update_row.
  destruct (Nat.eqb_spec k i); simpl; [|reflexivity].
  subst; rewrite H; reflexivity.
Qed.

Lemma map_range_step {X} a b (f : nat -> X -> X) q :
  a < b ->
  map_range (S a) b f (update_row a (f a) q) = map_range a b f q.
Proof.
  intros Hab.
  destruct q as [|r0 q0] eqn:Eq; [destruct a; reflexivity|]; rewrite <- Eq; clear Eq.
  apply nth_ext with (d := r0) (d' := r0);
    [rewrite !length_map_range, length_update_row; reflexivity|].
  intros i Hi; rewrite !nth_map_range, length_update_row, nth_update_row.
  destruct (Nat.eqb_spec i a) as [E|Hne];
    destruct (Nat.leb_spec (S a) i), (Nat.leb_spec a i), (Nat.ltb_spec i b),
             (Nat.ltb_spec i (length q));
    cbn [andb]; try reflexivity; try lia; subst i; reflexivity.
Qed.

Lemma map_range_empty {X} a (f : nat -> X -> X) q : map_range a a f q = q.
Proof.
  destruct q as [|r0 q0] eqn:Eq; [reflexivity|]; rewrite <- Eq; clear Eq.
  apply nth_ext with (d := r0) (d' := r0); [apply length_map_range|].
  intros i Hi; rewrite nth_map_range.
  destruct (Nat.leb_spec a i), (Nat.ltb_spec i a); simpl; try reflexivity; lia.
Qed.

Lemma map_range_compose {X} a b (f g : nat -> X -> X) q :
  map_range a b g (map_range a b f q) = map_range a b (fun i w => g i (f i w)) q.
Proof.
  destruct q as [|r0 q0] eqn:Eq; [reflexivity|]; rewrite <- Eq; clear Eq.
  apply nth_ext with (d := r0) (d' := r0); [rewrite !length_map_range; reflexivity|].
  intros i Hi; rewrite !nth_map_range, length_map_range.
  destruct ((a <=? i) && (i <? b) && (i <? length q)); reflexivity.
Qed.

Lemma map_range_ext {X} a b (f g : nat -> X -> X) q d :
  (forall i, a <= i < b -> i < length q -> f i (nth i q d) = g i (nth i q d)) ->
  map_range a b f q = map_range a b g q.
Proof.
  intros H; apply nth_ext with (d := d) (d' := d);
    [rewrite !length_map_range; reflexivity|].
  intros i Hi; rewrite length_map_range in Hi; rewrite !nth_map_range.
  destruct (Nat.leb_spec a i), (Nat.ltb_spec i b), (Nat.ltb_spec i (length q));
    simpl; try reflexivity; try lia.
  apply H; lia.
Qed.

(** ** One step of the scheduler *)

Lemma py_index_in_register n p :
  in_register (Z.of_nat n) p -> py_index n p = Some (Z.to_nat p).
Proof.
  intros [H0 H1]; unfold py_index.
  destruct (Z.leb_spec 0 p), (Z.ltb_spec p (Z.of_nat n)); simpl; try lia; reflexivity.
Qed.

Lemma zrange_nil a b : (b <= a)%Z -> zrange a b = [].
Proof. intros H; unfold zrange; replace (Z.to_nat (b - a)) with 0 by lia; reflexivity. Qed.

Lemma zrange_cons a b : (a < b)%Z -> zrange a b = a :: zrange (a + 1) b.
Proof.
  intros H; unfold zrange.
  replace (Z.to_nat (b - a)) with (S (Z.to_nat (b - (a + 1)))) by lia.
  cbn [seq map]; f_equal; [lia|].
  rewrite <- seq_shift, map_map; apply map_ext; intros k; lia.
Qed.

Lemma in_zrange a b v : In v (zrange a b) <-> (a <= v < b)%Z.
Proof.
  unfold zrange; rewrite in_map_iff; split.
  - intros [k [<- Hk]]; apply in_seq in Hk; lia.
  - intros H; exists (Z.to_nat (v - a)); split; [lia | apply in_seq; lia].
Qed.

Lemma foldM_ext {S X} (f g : S -> X -> option S) l :
  (forall s v, f s v = g s v) -> forall s, foldM f l s = foldM g l s.
Proof.
  intros H; induction l as [|a l IH]; intros s; simpl; [reflexivity|].
  rewrite H; destruct (g s a); simpl; auto.
Qed.

Lemma foldM_app {S X} (f : S -> X -> option S) l1 l2 s :
  foldM f (l1 ++ l2) s = (s1 <- foldM f l1 s ;; foldM f l2 s1).
Proof.
  revert s; induction l1 as [|a l1 IH]; intros s; simpl; [reflexivity|].
  destruct (f s a); simpl; auto.
Qed.

Lemma foldM_row_range f : forall k a q,
  (0 <= a)%Z -> (a + Z.of_nat k <= Z.of_nat (length q))%Z ->
  foldM (row_op f) (zrange a (a + Z.of_nat k)) q
  = Some (map_range (Z.to_nat a) (Z.to_nat a + k) (fun _ => f) q).
Proof.
  induction k as [|k IH]; intros a q Ha Hb.
  - rewrite zrange_nil by lia; simpl.
    rewrite Nat.add_0_r, map_range_empty; reflexivity.
  - rewrite zrange_cons by lia; cbn [foldM].
    unfold row_op at 1; rewrite py_index_in_register by (split; lia); cbn [bind].
    replace (a + Z.of_nat (S k))%Z with (a + 1 + Z.of_nat k)%Z by lia.
    rewrite IH by (rewrite ?length_update_row; lia).
    replace (Z.to_nat (a + 1)) with (S (Z.to_nat a)) by lia.
    replace (S (Z.to_nat a) + k) with (Z.to_nat a + S k) by lia.
    rewrite (@map_range_step _ _ _ (fun _ => f)) by lia; reflexivity.
Qed.

Lemma mapM_wire_len q js :
  Forall (in_register (Z.of_nat (length q))) js ->
  mapM (wire_len q) js = Some (map (fun j => length (nth (Z.to_nat j) q [])) js).
Proof.
  induction 1 as [|j js Hj Hjs IH]; simpl; [reflexivity|].
  unfold wire_len at 1; rewrite py_index_in_register by exact Hj; cbn [bind].
  rewrite IH; reflexivity.
Qed.

Lemma fold_max_ge l : forall a v, v = a \/ In v l -> v <= fold_left Nat.max l a.
Proof.
  induction l as [|b l IH]; intros a v H; simpl.
  - destruct H as [->|[]]; lia.
  - destruct H as [->|[->|H]].
    + etransitivity; [|apply IH; left; reflexivity]; lia.
    + etransitivity; [|apply IH; left; reflexivity]; lia.
    + apply IH; right; exact H.
Qed.

Lemma max_len_ge l m v : max_len l = Some m -> In v l -> v <= m.
Proof.
  destruct l as [|a l]; simpl; [discriminate|].
  intros H Hv; inversion H; subst; apply fold_max_ge.
  destruct Hv; [left; congruence | right; assumption].
Qed.

Lemma fold_min_spec l : forall a,
  In (fold_left Z.min l a) (a :: l)
  /\ forall v, In v (a :: l) -> (fold_left Z.min l a <= v)%Z.
Proof.
  induction l as [|b l IH]; intros a; simpl.
  - split; [left; reflexivity | intros v [->|[]]; lia].
  - destruct (IH (Z.min a b)) as [Hin Hle]; split.
    + destruct Hin as [Hin|Hin]; [|right; right; exact Hin].
      rewrite <- Hin; destruct (Z.min_spec a b) as [[_ ->]|[_ ->]]; auto.
    + intros v [->|[->|Hv]].
      * etransitivity; [apply Hle; left; reflexivity | lia].
      * etransitivity; [apply Hle; left; reflexivity | lia].
      * apply Hle; right; exact Hv.
Qed.

Lemma fold_max_spec l : forall a,
  In (fold_left Z.max l a) (a :: l)
  /\ forall v, In v (a :: l) -> (v <= fold_left Z.max l a)%Z.
Proof.
  induction l as [|b l IH]; intros a; simpl.
  - split; [left; reflexivity | intros v [->|[]]; lia].
  - destruct (IH (Z.max a b)) as [Hin Hle]; split.
    + destruct Hin as [Hin|Hin]; [|right; right; exact Hin].
      rewrite <- Hin; destruct (Z.max_spec a b) as [[_ ->]|[_ ->]]; auto.
    + intros v [->|[->|Hv]].
      * etransitivity; [|apply Hle; left; reflexivity]; lia.
      * etransitivity; [|apply Hle; left; reflexivity]; lia.
      * apply Hle; right; exact Hv.
Qed.

Lemma list_insert_at {X} (w r : list X) v :
  list_insert (length w) v (w ++ r) = w ++ v :: r.
Proof.
  unfold list_insert.
  rewrite firstn_app, Nat.sub_diag, firstn_O, app_nil_r, firstn_all.
  rewrite skipn_app, Nat.sub_diag, skipn_all, skipn_O; reflexivity.
Qed.

Lemma iter_insert (w : wire) v k :
  Nat.iter k (list_insert (length w) None) (w ++ [v]) = w ++ repeat None k ++ [v].
Proof.
  induction k as [|k IH]; simpl; [reflexivity|].
  rewrite IH, list_insert_at; reflexivity.
Qed.

Lemma justify_row_snoc m (w : wire) v :
  S (length w) <= m -> justify_row m (w ++ [v]) = span_row m v w.
Proof.
  intros H; unfold justify_row, span_row.
  rewrite length_app; cbn [length].
  replace (length w + 1) with (S (length w)) by lia.
  destruct (Nat.eqb_spec (S (length w)) m) as [E|E].
  - rewrite <- E, Nat.sub_diag; reflexivity.
  - replace (S (length w) - 1) with (length w) by lia.
    replace (Z.abs_nat (Z.of_nat (S (length w)) - Z.of_nat m)) with (m - S (length w)) by lia.
    apply iter_insert.
Qed.

Ltac if_known E :=
  match goal with
  | |- context [if ?c then _ else _] =>
      (replace c with true by (symmetry; exact E))
      || (replace c with false by (symmetry; exact E))
  end.

Lemma justify_row_op m q j : justify m q j = row_op (justify_row m) q j.
Proof.
  unfold justify, row_op; destruct (py_index (length q) j) as [i|]; [|reflexivity].
  cbn [bind].
  match goal with |- (if ?c then _ else _) = _ => destruct c eqn:E end.
  - f_equal; symmetry; apply update_row_fix with (d := []).
    intros _; unfold justify_row; if_known E; reflexivity.
  - f_equal; apply update_row_ext with (d := []).
    unfold justify_row; if_known E; reflexivity.
Qed.

Lemma length_span_row m v w : length w < m -> length (span_row m v w) = m.
Proof.
  intros H; unfold span_row; rewrite !length_app, repeat_length; simpl; lia.
Qed.

Lemma nth_error_span_row m v w :
  length w < m -> nth_error (span_row m v w) (m - 1) = Some v.
Proof.
  intros H; unfold span_row; rewrite app_assoc.
  rewrite nth_error_app2; rewrite length_app, repeat_length; [|lia].
  replace (m - 1 - (length w + (m - S (length w)))) with 0 by lia; reflexivity.
Qed.

Lemma span_bounds n g :
  wf_gate (Z.of_nat n) g ->
  exists lo hi,
    py_min (gate_pos g) = Some (Z.of_nat lo)
    /\ py_max (gate_pos g) = Some (Z.of_nat hi)
    /\ lo <= hi < n.
Proof.
  intros [Hne Hall]; destruct (gate_pos g) as [|a l]; [congruence|].
  destruct (fold_min_spec l a) as [Hmin Hminle].
  destruct (fold_max_spec l a) as [Hmax Hmaxle].
  rewrite Forall_forall in Hall.
  pose proof (Hall _ Hmin) as [H1 H2]; pose proof (Hall _ Hmax) as [H3 H4].
  pose proof (Hminle _ Hmax).
  exists (Z.to_nat (fold_left Z.min l a)), (Z.to_nat (fold_left Z.max l a)); simpl.
  rewrite !Z2Nat.id by lia; repeat split; lia.
Qed.

(** The span branch on a gate inside the register: every wire of the span
    ends at the same layer, the gate on the lowest wire and placeholders on
    the others; the other wires are untouched. *)
Lemma place_span_wf g is_two q used :
  wf_gate (Z.of_nat (length q)) g ->
  exists lo hi m,
    py_min (gate_pos g) = Some (Z.of_nat lo)
    /\ py_max (gate_pos g) = Some (Z.of_nat hi)
    /\ lo <= hi < length q
    /\ (forall i, lo <= i <= hi -> length (nth i q []) < m)
    /\ place_span g is_two (q, used)
       = Some (span_fill lo hi m g q,
               if is_two then fold_left mark_used (gate_pos g) used else used).
Proof.
  intros Hwf; destruct (@span_bounds _ _ Hwf) as [lo [hi [Hmin [Hmax Hb]]]].
  set (v := fun i : nat => if i =? lo then Some g else @None gate).
  set (q2 := map_range lo (S hi) (fun i w => w ++ [v i]) q).
  assert (Hq2 : forall i, lo <= i <= hi ->
                          length (nth i q2 []) = S (length (nth i q []))).
  { intros i Hi; unfold q2; rewrite nth_map_range.
    destruct (Nat.leb_spec lo i), (Nat.ltb_spec i (S hi)), (Nat.ltb_spec i (length q));
      try lia; simpl.
    rewrite length_app; simpl; lia. }
  assert (Hlens : mapM (wire_len q2) (zrange (Z.of_nat lo) (Z.of_nat hi + 1))
                  = Some (map (fun j => length (nth (Z.to_nat j) q2 []))
                              (zrange (Z.of_nat lo) (Z.of_nat hi + 1)))).
  { apply mapM_wire_len, Forall_forall; intros j Hj; apply in_zrange in Hj.
    unfold q2; rewrite length_map_range; split; lia. }
  destruct (max_len (map (fun j => length (nth (Z.to_nat j) q2 []))
                         (zrange (Z.of_nat lo) (Z.of_nat hi + 1)))) as [m|] eqn:Hm.
  2:{ rewrite zrange_cons in Hm by lia; discriminate. }
  assert (Hle : forall i, lo <= i <= hi -> length (nth i q2 []) <= m).
  { intros i Hi; eapply max_len_ge; [exact Hm|].
    apply in_map_iff; exists (Z.of_nat i); rewrite Nat2Z.id; split; [reflexivity|].
    apply in_zrange; lia. }
  exists lo, hi, m; repeat split; try lia; try assumption.
  { intros i Hi; pose proof (Hle i Hi); rewrite Hq2 in * by exact Hi; lia. }
  unfold place_span; rewrite Hmin, Hmax; cbn [bind].
  unfold append_to at 1; rewrite py_index_in_register by (split; lia); cbn [bind].
  rewrite Nat2Z.id.
  rewrite (foldM_ext _ (row_op (fun w => w ++ [None]))) by reflexivity.
  replace (Z.of_nat hi + 1)%Z with (Z.of_nat lo + 1 + Z.of_nat (hi - lo))%Z at 1 by lia.
  rewrite foldM_row_range by (rewrite ?length_update_row; lia); cbn [bind].
  replace (Z.to_nat (Z.of_nat lo + 1)) with (S lo) by lia.
  replace (S lo + (hi - lo)) with (S hi) by lia.
  assert (E2 : map_range (S lo) (S hi) (fun _ w => w ++ [None])
                         (update_row lo (fun w => w ++ [Some g]) q) = q2).
  { unfold q2; rewrite <- (@map_range_step _ lo (S hi) (fun i w => w ++ [v i])) by lia.
    replace (v lo) with (Some g) by (unfold v; rewrite Nat.eqb_refl; reflexivity).
    apply map_range_ext with (d := []); intros i Hi _.
    unfold v; destruct (Nat.eqb_spec i lo); [lia | reflexivity]. }
  rewrite E2, Hlens; cbn [bind]; rewrite Hm; cbn [bind].
  rewrite (foldM_ext _ (row_op (justify_row m))) by (intros; apply justify_row_op).
  replace (Z.of_nat hi + 1)%Z with (Z.of_nat lo + Z.of_nat (S hi - lo))%Z by lia.
  rewrite foldM_row_range by (unfold q2; rewrite ?length_map_range; lia); cbn [bind].
  rewrite Nat2Z.id; replace (lo + (S hi - lo)) with (S hi) by lia.
  f_equal; f_equal.
  unfold q2, span_fill; rewrite map_range_compose.
  apply map_range_ext with (d := []); intros i Hi Hlt.
  apply justify_row_snoc.
  assert (Hi' : lo <= i <= hi) by lia.
  pose proof (Hle i Hi') as H; rewrite (Hq2 i Hi') in H; exact H.
Qed.

Lemma extends_refl q : extends q q.
Proof. split; [reflexivity | intros i; exists []; rewrite app_nil_r; reflexivity]. Qed.

Lemma extends_trans q1 q2 q3 : extends q1 q2 -> extends q2 q3 -> extends q1 q3.
Proof.
  intros [L1 E1] [L2 E2]; split; [congruence|].
  intros i; destruct (E1 i) as [e1 H1], (E2 i) as [e2 H2].
  exists (e1 ++ e2); rewrite H2, H1, app_assoc; reflexivity.
Qed.

Lemma extends_update_row q i v : extends q (update_row i (fun w => w ++ [v]) q).
Proof.
  split; [apply length_update_row|].
  intros k; rewrite nth_update_row.
  destruct ((k =? i) && (k <? length q)); [exists [v] | exists []];
    rewrite ?app_nil_r; reflexivity.
Qed.

Lemma extends_span_fill lo hi m g q : extends q (span_fill lo hi m g q).
Proof.
  split; [apply length_map_range|].
  intros k; unfold span_fill; rewrite nth_map_range.
  destruct ((lo <=? k) && (k <? S hi) && (k <? length q)).
  - unfold span_row; eexists; reflexivity.
  - exists []; rewrite app_nil_r; reflexivity.
Qed.

(** One iteration of the gate loop on a gate inside the register. *)
Lemma place_gate_wf q used g :
  wf_gate (Z.of_nat (length q)) g ->
  exists q', place_gate (q, used) g = Some (q', used_after g used) /\ extends q q'.
Proof.
  intros Hwf; destruct g as [cls p|cls p a|cls p0 p1|ps].
  - destruct Hwf as [_ Hp]; inversion Hp as [|? ? Hin _]; subst.
    eexists; split; [|apply extends_update_row].
    cbn [place_gate fst snd]; unfold append_to.
    rewrite py_index_in_register by exact Hin; reflexivity.
  - destruct Hwf as [_ Hp]; inversion Hp as [|? ? Hin _]; subst.
    eexists; split; [|apply extends_update_row].
    cbn [place_gate fst snd]; unfold append_to.
    rewrite py_index_in_register by exact Hin; reflexivity.
  - destruct (place_span_wf true q used Hwf) as [lo [hi [m [_ [_ [_ [_ H]]]]]]].
    eexists; split; [exact H | apply extends_span_fill].
  - destruct (place_span_wf false q used Hwf) as [lo [hi [m [_ [_ [_ [_ H]]]]]]].
    eexists; split; [exact H | apply extends_span_fill].
Qed.

Lemma place_gates_wf gs : forall q used,
  Forall (wf_gate (Z.of_nat (length q))) gs ->
  exists q', foldM place_gate gs (q, used) = Some (q', fold_left (fun u g => used_after g u) gs used)
             /\ extends q q'.
Proof.
  induction gs as [|g gs IH]; intros q used H; simpl.
  - exists q; split; [reflexivity | apply extends_refl].
  - inversion H as [|? ? Hg Hgs]; subst.
    destruct (place_gate_wf q used Hg) as [q1 [H1 E1]].
    rewrite H1; cbn [bind].
    destruct (IH q1 (used_after g used)) as [q2 [H2 E2]].
    { destruct E1 as [L1 _]; rewrite L1; exact Hgs. }
    exists q2; split; [exact H2 | eapply extends_trans; eassumption].
Qed.

(** What happens to [used_qubits] does not depend on the wires. *)
Lemma place_gate_used q used g q' used' :
  place_gate (q, used) g = Some (q', used') -> used' = used_after g used.
Proof.
  assert (Hspan : forall b, place_span g b (q, used) = Some (q', used') ->
                            used' = if b then fold_left mark_used (gate_pos g) used else used).
  { intros b; unfold place_span.
    destruct (py_min (gate_pos g)); cbn [bind]; [|discriminate].
    destruct (py_max (gate_pos g)); cbn [bind]; [|discriminate].
    destruct (append_to _ _ _); cbn [bind]; [|discriminate].
    destruct (foldM _ _ _); cbn [bind]; [|discriminate].
    destruct (mapM _ _); cbn [bind]; [|discriminate].
    destruct (max_len _); cbn [bind]; [|discriminate].
    destruct (foldM _ _ _); cbn [bind]; [|discriminate].
    intros H; inversion H; reflexivity. }
  destruct g; cbn [place_gate used_after fst snd]; try apply Hspan.
  - destruct (append_to _ _ _); cbn [bind]; [|discriminate].
    intros H; inversion H; reflexivity.
  - destruct (append_to _ _ _); cbn [bind]; [|discriminate].
    intros H; inversion H; reflexivity.
Qed.

Lemma place_gates_used gs : forall q used q' used',
  foldM place_gate gs (q, used) = Some (q', used') ->
  used' = fold_left (fun u g => used_after g u) gs used.
Proof.
  induction gs as [|g gs IH]; intros q used q' used' H; simpl in *.
  - inversion H; reflexivity.
  - destruct (place_gate (q, used) g) as [[q1 u1]|] eqn:E; cbn [bind] in H; [|discriminate].
    apply place_gate_used in E; subst u1; eapply IH; exact H.
Qed.

Lemma used_after_NoDup g used : NoDup used -> NoDup (used_after g used).
Proof.
  intros H; destruct g; simpl; auto using mark_used_NoDup.
Qed.

Lemma used_after_In g used a :
  In a (used_after g used) ->
  In a used \/ In a (gate_pos g).
Proof.
  destruct g; simpl; rewrite ?mark_used_In; intros H; auto.
  - destruct H; auto.
  - destruct H; auto.
  - destruct H as [[H|H]|H]; auto.
Qed.

Lemma used_after_incl g used a : In a used -> In a (used_after g used).
Proof.
  intros H; destruct g; simpl; rewrite ?mark_used_In; auto.
Qed.

Lemma fold_used_NoDup gs : forall used,
  NoDup used -> NoDup (fold_left (fun u g => used_after g u) gs used).
Proof.
  induction gs as [|g gs IH]; intros used H; simpl; [exact H|].
  apply IH, used_after_NoDup, H.
Qed.

Lemma fold_used_In gs : forall used a,
  In a (fold_left (fun u g => used_after g u) gs used) ->
  In a used \/ exists g, In g gs /\ In a (gate_pos g).
Proof.
  induction gs as [|g gs IH]; intros used a H; simpl in *; [auto|].
  apply IH in H; destruct H as [H|[g' [Hg Ha]]].
  - apply used_after_In in H; destruct H; [auto | right; exists g; auto].
  - right; exists g'; auto.
Qed.

Lemma fold_used_incl gs : forall used a,
  In a used -> In a (fold_left (fun u g => used_after g u) gs used).
Proof.
  induction gs as [|g gs IH]; intros used a H; simpl; [exact H|].
  apply IH, used_after_incl, H.
Qed.

(** ** The layout *)

Lemma filter_seq_sorted (P : nat -> bool) n : forall a,
  StronglySorted Z.lt (map Z.of_nat (filter P (seq a n))).
Proof.
  induction n as [|n IH]; intros a; simpl; [constructor|].
  destruct (P a); simpl; [|apply IH].
  constructor; [apply IH|].
  apply Forall_forall; intros v Hv; apply in_map_iff in Hv.
  destruct Hv as [w [<- Hw]]; apply filter_In in Hw; destruct Hw as [Hw _].
  apply in_seq in Hw; lia.
Qed.

Lemma sorted_lt_le l : StronglySorted Z.lt l -> StronglySorted Z.le l.
Proof.
  induction 1 as [|a l Hs IH Hf]; constructor; [exact IH|].
  eapply Forall_impl; [|exact Hf]; simpl; intros; lia.
Qed.

Lemma sorted_lt_NoDup l : StronglySorted Z.lt l -> NoDup l.
Proof.
  induction 1 as [|a l Hs IH Hf]; constructor; [|exact IH].
  intros Hin; rewrite Forall_forall in Hf; apply Hf in Hin; lia.
Qed.

Lemma combine_map_self {X Y} (f : X -> Y) l :
  combine (map f l) l = map (fun r => (f r, r)) l.
Proof. induction l; simpl; [reflexivity | f_equal; assumption]. Qed.

Lemma fold_max_in l : forall a, In (fold_left Nat.max l a) (a :: l).
Proof.
  induction l as [|b l IH]; intros a; simpl; [left; reflexivity|].
  destruct (IH (Nat.max a b)) as [H|H]; [|right; right; exact H].
  rewrite <- H; destruct (Nat.max_spec a b) as [[_ ->]|[_ ->]]; auto.
Qed.

Lemma max_len_in l m : max_len l = Some m -> In m l.
Proof.
  destruct l as [|a l]; simpl; [discriminate|].
  intros H; inversion H; apply fold_max_in.
Qed.

Lemma length_pad_wire d (w : wire) : length w <= d -> length (pad_wire d w) = d.
Proof. intros H; unfold pad_wire; rewrite length_app, repeat_length; lia. Qed.

(** Used qubits that are as many as the rows kept are the indices of these
    rows, in ascending order. *)
Lemma used_are_rows (used : list Z) n :
  NoDup used ->
  length (np_sort used)
  = length (filter (fun qi => existsb (Z.eqb (Z.of_nat qi)) (np_sort used)) (seq 0 n)) ->
  np_sort used
  = map Z.of_nat (filter (fun qi => existsb (Z.eqb (Z.of_nat qi)) (np_sort used)) (seq 0 n)).
Proof.
  intros Hnd Hlen.
  set (us := np_sort used) in *.
  set (rows := filter _ (seq 0 n)) in *.
  assert (Hs : StronglySorted Z.lt (map Z.of_nat rows)) by apply filter_seq_sorted.
  apply sorted_perm_unique.
  - apply np_sort_sorted.
  - apply sorted_lt_le, Hs.
  - apply Permutation_sym, NoDup_Permutation_bis.
    + apply sorted_lt_NoDup, Hs.
    + rewrite length_map; lia.
    + intros v Hv; apply in_map_iff in Hv; destruct Hv as [r [<- Hr]].
      apply filter_In in Hr; destruct Hr as [_ Hr].
      apply existsb_Zeqb_In; exact Hr.
Qed.

Lemma layered_circuit_inv c l us :
  layered_circuit c = Some (l, us) ->
  exists q used0 d,
    place_gates c = Some (q, used0)
    /\ max_len (map (@length _) q) = Some d
    /\ us = np_sort (fold_left mark_used (dict_keys (measures c)) used0)
    /\ us = map Z.of_nat
                (filter (fun qi => existsb (Z.eqb (Z.of_nat qi)) us) (seq 0 (length q)))
    /\ l = map (fun qb => Qubit qb :: map Slot (pad_wire d (nth (Z.to_nat qb) q []))) us.
Proof.
  unfold layered_circuit; intros H.
  destruct (place_gates c) as [[q used0]|] eqn:Hp; cbn [bind] in H; [|discriminate].
  destruct (max_len (map (@length _) q)) as [d|] eqn:Hd; cbn [bind] in H; [|discriminate].
  rewrite length_map in H.
  set (us0 := np_sort (fold_left mark_used (dict_keys (measures c)) used0)) in *.
  set (rows := filter (fun qi => existsb (Z.eqb (Z.of_nat qi)) us0) (seq 0 (length q))) in *.
  destruct (Nat.eqb_spec (length us0) (length rows)) as [E|E]; [|discriminate].
  inversion H; subst l us; clear H.
  assert (Hus : us0 = map Z.of_nat rows).
  { apply used_are_rows; [|exact E].
    apply fold_mark_used_NoDup.
    unfold place_gates in Hp; apply place_gates_used in Hp; subst used0.
    apply fold_used_NoDup; constructor. }
  exists q, used0, d; repeat split; try assumption; try reflexivity.
  rewrite Hus at 1 2; rewrite combine_map_self, !map_map.
  apply map_ext_in; intros r Hr; cbn [fst snd].
  apply filter_In in Hr; destruct Hr as [Hr _]; apply in_seq in Hr.
  rewrite Nat2Z.id; do 2 f_equal.
  rewrite (nth_indep _ [] (pad_wire d [])) by (rewrite length_map; lia).
  apply map_nth.
Qed.

Lemma place_gate_length st g st' :
  place_gate st g = Some st' -> length (fst st') = length (fst st).
Proof.
  assert (Hrow : forall f q j q', row_op f q j = Some q' -> length q' = length q).
  { intros f q j q'; unfold row_op; destruct (py_index _ _); cbn [bind]; [|discriminate].
    intros H; inversion H; apply length_update_row. }
  assert (Hfold : forall (f : list wire -> Z -> option (list wire)) l,
             (forall q j q', f q j = Some q' -> length q' = length q) ->
             forall q q', foldM f l q = Some q' -> length q' = length q).
  { intros f l Hf; induction l as [|a l IH]; intros q q' H; simpl in H.
    - inversion H; reflexivity.
    - destruct (f q a) as [q1|] eqn:E; cbn [bind] in H; [|discriminate].
      rewrite (IH _ _ H); eapply Hf; exact E. }
  assert (Hspan : forall b, place_span g b st = Some st' ->
                            length (fst st') = length (fst st)).
  { intros b; destruct st as [q used]; unfold place_span.
    destruct (py_min (gate_pos g)); cbn [bind]; [|discriminate].
    destruct (py_max (gate_pos g)); cbn [bind]; [|discriminate].
    destruct (append_to _ _ _) as [q1|] eqn:E1; cbn [bind]; [|discriminate].
    destruct (foldM (append_to None) _ _) as [q2|] eqn:E2; cbn [bind]; [|discriminate].
    destruct (mapM _ _); cbn [bind]; [|discriminate].
    destruct (max_len _); cbn [bind]; [|discriminate].
    destruct (foldM (justify _) _ _) as [q3|] eqn:E3; cbn [bind]; [|discriminate].
    intros H; inversion H; subst; cbn [fst].
    apply Hfold in E3; [|intros ? ? ?; rewrite justify_row_op; apply Hrow].
    apply Hfold in E2; [|intros ? ? ?; apply (Hrow (fun w => w ++ [None]))].
    apply (Hrow (fun w => w ++ [Some g])) in E1; congruence. }
  destruct g; cbn [place_gate]; try apply Hspan.
  - destruct (append_to _ _ _) as [q1|] eqn:E1; cbn [bind]; [|discriminate].
    intros H; inversion H; subst; cbn [fst].
    apply (Hrow (fun w => w ++ [Some (FixedSingleQubitGate cls pos)])) in E1; exact E1.
  - destruct (append_to _ _ _) as [q1|] eqn:E1; cbn [bind]; [|discriminate].
    intros H; inversion H; subst; cbn [fst].
    apply (Hrow (fun w => w ++ [Some (ParaSingleQubitGate cls pos paras)])) in E1; exact E1.
Qed.

Lemma place_gates_length gs : forall st st',
  foldM place_gate gs st = Some st' -> length (fst st') = length (fst st).
Proof.
  induction gs as [|g gs IH]; intros st st' H; simpl in H.
  - inversion H; reflexivity.
  - destruct (place_gate st g) as [st1|] eqn:E; cbn [bind] in H; [|discriminate].
    rewrite (IH _ _ H); apply place_gate_length with (g := g); exact E.
Qed.

(** C8: a layout that [layered_circuit] returns has one row for each used
    qubit, in strictly ascending order of the qubit index; a row starts with
    its qubit index, continues with the wire of that qubit padded with
    placeholders, and has length 1 plus the maximum length of a wire after
    the gate loop. *)
Theorem layered_circuit_shape (c : QuantumCircuit) (l : list (list cell)) (us : list Z) :
  layered_circuit c = Some (l, us) ->
  exists q used0 d,
    place_gates c = Some (q, used0)
    /\ max_len (map (@length _) q) = Some d
    /\ In d (map (@length _) q)
    /\ (forall w, In w q -> length w <= d)
    /\ Forall (fun row => length row = 1 + d) l
    /\ l = map (fun qb => Qubit qb :: map Slot (pad_wire d (nth (Z.to_nat qb) q []))) us
    /\ StronglySorted Z.lt us
    /\ Forall (in_register (Z.of_nat (length q))) us.
Proof.
  intros H; destruct (layered_circuit_inv _ H) as [q [used0 [d [Hp [Hd [_ [Hus Hl]]]]]]].
  assert (Hle : forall w, In w q -> length w <= d).
  { intros w Hw; eapply max_len_ge; [exact Hd | apply in_map; exact Hw]. }
  assert (Hreg : Forall (in_register (Z.of_nat (length q))) us).
  { apply Forall_forall; intros v Hv; rewrite Hus in Hv.
    apply in_map_iff in Hv; destruct Hv as [r [<- Hr]].
    apply filter_In in Hr; destruct Hr as [Hr _]; apply in_seq in Hr.
    split; lia. }
  exists q, used0, d; repeat split; try assumption.
  - apply max_len_in; exact Hd.
  - rewrite Hl; apply Forall_forall; intros row Hrow.
    apply in_map_iff in Hrow; destruct Hrow as [qb [<- Hqb]].
    rewrite Forall_forall in Hreg; destruct (Hreg _ Hqb).
    cbn [length]; rewrite length_map, length_pad_wire; [reflexivity|].
    apply Hle, nth_In; lia.
  - rewrite Hus; apply filter_seq_sorted.
Qed.

Lemma layered_circuit_shape_witness :
  exists q used0 d,
    place_gates (cnot (h (new_circuit 3) 2) 2 0) = Some (q, used0)
    /\ max_len (map (@length _) q) = Some d
    /\ In d (map (@length _) q)
    /\ (forall w, In w q -> length w <= d)
    /\ Forall (fun row => length row = 1 + d)
              [[Qubit 0; Slot None; Slot (Some (FixedTwoQubitGate CXGate 2 0))];
               [Qubit 1; Slot None; Slot None];
               [Qubit 2; Slot (Some (FixedSingleQubitGate HGate 2)); Slot None]]
    /\ [[Qubit 0; Slot None; Slot (Some (FixedTwoQubitGate CXGate 2 0))];
        [Qubit 1; Slot None; Slot None];
        [Qubit 2; Slot (Some (FixedSingleQubitGate HGate 2)); Slot None]]
       = map (fun qb => Qubit qb :: map Slot (pad_wire d (nth (Z.to_nat qb) q [])))
             [0; 1; 2]%Z
    /\ StronglySorted Z.lt [0; 1; 2]%Z
    /\ Forall (in_register (Z.of_nat (length q))) [0; 1; 2]%Z.
Proof.
  apply (@layered_circuit_shape (cnot (h (new_circuit 3) 2) 2 0)).
  reflexivity.
Defined.

(** ** Scheduling a well-formed circuit *)

Lemma wf_register c :
  wf_circuit c -> Z.of_nat (length (repeat (@nil (option gate)) (Z.to_nat (num c)))) = num c.
Proof. intros [H _]; rewrite repeat_length; lia. Qed.

Lemma place_gates_total c :
  wf_circuit c ->
  exists q, place_gates c
            = Some (q, fold_left (fun u g => used_after g u) (gates c) [])
            /\ length q = Z.to_nat (num c).
Proof.
  intros Hwf; pose proof (wf_register Hwf) as Hn.
  destruct Hwf as [_ [Hg _]].
  destruct (@place_gates_wf (gates c) (repeat [] (Z.to_nat (num c))) []) as [q [H [Hl _]]].
  { rewrite Hn; exact Hg. }
  exists q; split; [exact H | rewrite Hl, repeat_length; reflexivity].
Qed.

(** A well-formed circuit has a layout. *)
Lemma layered_circuit_total c :
  wf_circuit c -> exists l us, layered_circuit c = Some (l, us).
Proof.
  intros Hwf; destruct (place_gates_total Hwf) as [q [Hp Hl]].
  pose proof Hwf as [Hpos [Hg Hm]].
  unfold layered_circuit; rewrite Hp; cbn [bind].
  destruct (max_len (map (@length _) q)) as [d|] eqn:Hd.
  2:{ destruct q; [simpl in Hl; lia | discriminate]. }
  cbn [bind]; rewrite length_map.
  set (used0 := fold_left (fun u g => used_after g u) (gates c) []).
  set (us := np_sort (fold_left mark_used (dict_keys (measures c)) used0)).
  set (rows := filter (fun qi => existsb (Z.eqb (Z.of_nat qi)) us) (seq 0 (length q))).
  assert (Hnd : NoDup us).
  { eapply Permutation_NoDup; [apply Permutation_sym, np_sort_perm|].
    apply fold_mark_used_NoDup, fold_used_NoDup; constructor. }
  assert (Hreg : forall v, In v us -> in_register (num c) v).
  { intros v Hv; eapply Permutation_in in Hv; [|apply np_sort_perm].
    apply fold_mark_used_In in Hv; destruct Hv as [Hv|Hv].
    - apply fold_used_In in Hv; destruct Hv as [[]|[g [Hin Hv]]].
      rewrite Forall_forall in Hg; destruct (Hg _ Hin) as [_ Hall].
      rewrite Forall_forall in Hall; apply Hall; exact Hv.
    - rewrite Forall_forall in Hm; apply Hm; exact Hv. }
  assert (Hperm : Permutation us (map Z.of_nat rows)).
  { apply NoDup_Permutation; [exact Hnd | apply sorted_lt_NoDup, filter_seq_sorted|].
    intros v; split; intros Hv.
    - destruct (Hreg _ Hv) as [H0 H1].
      apply in_map_iff; exists (Z.to_nat v); split; [lia|].
      apply filter_In; split; [apply in_seq; lia|].
      apply existsb_Zeqb_In; rewrite Z2Nat.id by lia; exact Hv.
    - apply in_map_iff in Hv; destruct Hv as [r [<- Hr]].
      apply filter_In in Hr; destruct Hr as [_ Hr]; apply existsb_Zeqb_In; exact Hr. }
  apply Permutation_length in Hperm; rewrite length_map in Hperm.
  rewrite Hperm, Nat.eqb_refl; eauto.
Qed.

Lemma layout_row_found (f : Z -> list cell) us qb :
  In qb us -> layout_row (map (fun v => Qubit v :: f v) us) qb = Some (Qubit qb :: f qb).
Proof.
  unfold layout_row; induction us as [|u us IH]; intros H; simpl in *; [contradiction|].
  destruct (Z.eqb_spec u qb) as [->|Hne]; [reflexivity|].
  destruct H as [H|H]; [contradiction | apply IH; exact H].
Qed.

(** C2: in a well-formed circuit a two-qubit gate is placed in the same
    column on the lowest and on the highest wire of its span, and the final
    layout has the gate at that column in the row of the lowest wire and, in
    the row of the highest wire, the entry placed there for it (a
    placeholder, the gate itself when both wires coincide). *)
Theorem two_qubit_gate_same_layer
        (c : QuantumCircuit) (pre post : list gate) (cls : two_name) (a b : Z) :
  wf_circuit c ->
  gates c = pre ++ FixedTwoQubitGate cls a b :: post ->
  exists st0 q1 u1 l us,
    foldM place_gate pre (repeat [] (Z.to_nat (num c)), []) = Some st0
    /\ place_gate st0 (FixedTwoQubitGate cls a b) = Some (q1, u1)
    /\ layered_circuit c = Some (l, us)
    /\ placed_column q1 (Z.min a b) = placed_column q1 (Z.max a b)
    /\ entry_at l (Z.min a b) (placed_column q1 (Z.min a b))
       = Some (Slot (Some (FixedTwoQubitGate cls a b)))
    /\ entry_at l (Z.max a b) (placed_column q1 (Z.max a b))
       = Some (Slot (if (Z.min a b =? Z.max a b)%Z
                     then Some (FixedTwoQubitGate cls a b) else None)).
Proof.
  intros Hwf Hgates.
  set (g := FixedTwoQubitGate cls a b) in *.
  pose proof (wf_register Hwf) as Hn.
  destruct (layered_circuit_total Hwf) as [l [us Hlay]].
  destruct (layered_circuit_inv _ Hlay) as [q [used0 [d [Hp [Hd [Hus [_ Hl]]]]]]].
  pose proof Hwf as [Hpos [Hg _]].
  rewrite Hgates in Hg; apply Forall_app in Hg; destruct Hg as [Hpre Hg].
  apply Forall_cons_iff in Hg; destruct Hg as [Hwfg Hpost].
  (* the gates before *)
  destruct (@place_gates_wf pre (repeat [] (Z.to_nat (num c))) []) as [q0 [H0 [L0 _]]].
  { rewrite Hn; exact Hpre. }
  set (u0 := fold_left (fun u g => used_after g u) pre []) in *.
  (* the gate itself *)
  assert (Hwfg0 : wf_gate (Z.of_nat (length q0)) g) by (rewrite L0, Hn; exact Hwfg).
  destruct (place_span_wf true q0 u0 Hwfg0) as [lo [hi [m [Hmin [Hmax [Hb [Hm H1]]]]]]].
  cbn in Hmin, Hmax; inversion Hmin as [Elo]; inversion Hmax as [Ehi]; clear Hmin Hmax.
  set (q1 := span_fill lo hi m g q0) in *.
  set (u1 := fold_left mark_used (gate_pos g) u0) in *.
  (* the gates after *)
  assert (L1 : length q1 = length q0) by apply length_map_range.
  destruct (@place_gates_wf post q1 u1) as [q2 [H2 [L2 E2]]].
  { rewrite L1, L0, Hn; exact Hpost. }
  assert (Hq : q = q2 /\ used0 = fold_left (fun u g => used_after g u) post u1).
  { unfold place_gates in Hp; rewrite Hgates, foldM_app, H0 in Hp; cbn [bind foldM] in Hp.
    change (place_gate (q0, u0) g) with (place_span g true (q0, u0)) in Hp.
    rewrite H1 in Hp; cbn [bind] in Hp; rewrite H2 in Hp; inversion Hp; auto. }
  destruct Hq as [-> ->].
  (* the wires of the span right after the gate *)
  assert (Hrow : forall i, lo <= i <= hi ->
                   nth i q1 [] = span_row m (if i =? lo then Some g else None) (nth i q0 [])).
  { intros i Hi; unfold q1, span_fill; rewrite nth_map_range.
    destruct (Nat.leb_spec lo i), (Nat.ltb_spec i (S hi)), (Nat.ltb_spec i (length q0));
      try lia; reflexivity. }
  assert (Hcol : forall i, lo <= i <= hi -> length (nth i q1 []) = m).
  { intros i Hi; rewrite Hrow by exact Hi; apply length_span_row, Hm; exact Hi. }
  (* and in the final layout *)
  assert (Hused : forall v, In v (gate_pos g) -> In v us).
  { intros v Hv; rewrite Hus.
    eapply Permutation_in; [apply Permutation_sym, np_sort_perm|].
    apply fold_mark_used_In; left; apply fold_used_incl.
    unfold u1; apply fold_mark_used_In; right; exact Hv. }
  assert (Hentry : forall i, lo <= i <= hi -> In (Z.of_nat i) us ->
                     entry_at l (Z.of_nat i) m
                     = Some (Slot (if i =? lo then Some g else None))).
  { intros i Hi Hin; unfold entry_at; rewrite Hl.
    rewrite (layout_row_found
               (fun v => map Slot (pad_wire d (nth (Z.to_nat v) q2 []))) _ _ Hin).
    cbn [bind]; rewrite Nat2Z.id.
    pose proof (Hm i Hi) as Hlt.
    replace m with (S (m - 1)) at 1 by lia; cbn [nth_error].
    rewrite nth_error_map; destruct (E2 i) as [ext Hext].
    unfold pad_wire; rewrite Hext, <- app_assoc, nth_error_app1
      by (rewrite Hcol by exact Hi; lia).
    rewrite Hrow by exact Hi.
    rewrite nth_error_span_row by exact Hlt; reflexivity. }
  assert (Hlo : Z.to_nat (Z.min a b) = lo) by lia.
  assert (Hhi : Z.to_nat (Z.max a b) = hi) by lia.
  exists (q0, u0), q1, u1, l, us.
  unfold placed_column; rewrite Hlo, Hhi, !Hcol by lia.
  repeat split; try assumption.
  - rewrite Elo, Hentry; [rewrite Nat.eqb_refl; reflexivity | lia|].
    rewrite <- Elo; apply Hused; simpl.
    destruct (Z.min_spec a b) as [[_ ->]|[_ ->]]; auto.
  - rewrite Ehi, Elo, Hentry; [|lia|].
    + do 2 f_equal.
      destruct (Nat.eqb_spec hi lo), (Z.eqb_spec (Z.of_nat lo) (Z.of_nat hi));
        try reflexivity; lia.
    + rewrite <- Ehi; apply Hused; simpl.
      destruct (Z.max_spec a b) as [[_ ->]|[_ ->]]; auto.
Qed.

Lemma two_qubit_gate_same_layer_witness :
  exists st0 q1 u1 l us,
    foldM place_gate [FixedSingleQubitGate HGate 2] (repeat [] 3, []) = Some st0
    /\ place_gate st0 (FixedTwoQubitGate CXGate 2 0) = Some (q1, u1)
    /\ layered_circuit (z (cnot (h (new_circuit 3) 2) 2 0) 1) = Some (l, us)
    /\ placed_column q1 0 = placed_column q1 2
    /\ entry_at l 0 (placed_column q1 0) = Some (Slot (Some (FixedTwoQubitGate CXGate 2 0)))
    /\ entry_at l 2 (placed_column q1 2) = Some (Slot None).
Proof.
  apply (@two_qubit_gate_same_layer (z (cnot (h (new_circuit 3) 2) 2 0) 1)
           [FixedSingleQubitGate HGate 2] [FixedSingleQubitGate ZGate 1] CXGate 2 0).
  - split; [reflexivity|].
    split; repeat constructor; simpl; try lia; discriminate.
  - reflexivity.
Defined.

(** ** The end-to-end example *)

(** C5 as stated fails: in the layout of the example the second layer of
    row 1 does not hold the CX gate. *)
Lemma bell_row1_not_cx :
  exists l us,
    layered_circuit bell = Some (l, us)
    /\ entry_at l 1 2 <> Some (Slot (Some (FixedTwoQubitGate CXGate 0 1))).
Proof.
  eexists; eexists; split; [reflexivity|].
  cbv; discriminate.
Qed.

(** C5, amended: the example exports to the header followed by the four
    statements, one per line, and its layout has two rows and two layers,
    row 0 with H and CX, row 1 with two placeholders (the gate stands on the
    lowest wire of its span only). *)
Theorem bell_qasm_and_layout (float_str : float -> text) :
  to_openqasm float_str bell = concat (map (fun l => l ++ [nl]) bell_lines)
  /\ splitlines (to_openqasm float_str bell) = bell_lines
  /\ layered_circuit bell
     = Some ([[Qubit 0; Slot (Some (FixedSingleQubitGate HGate 0));
               Slot (Some (FixedTwoQubitGate CXGate 0 1))];
              [Qubit 1; Slot None; Slot None]],
             [0; 1]%Z).
Proof. repeat split. Qed.

(** ** Positions are not checked by the builder *)

(** C6 as stated fails: [h(5)] on one qubit and [cnot(1, 1)] return with
    the gate appended. *)
Lemma builder_accepts_any_position :
  ~ in_register (num (new_circuit 1)) 5
  /\ gates (h (new_circuit 1) 5) = [FixedSingleQubitGate HGate 5]
  /\ gates (cnot (new_circuit 2) 1 1) = [FixedTwoQubitGate CXGate 1 1].
Proof.
  split; [unfold in_register; simpl; lia | split; reflexivity].
Qed.

Lemma layered_circuit_outside c cls p :
  ~ in_register (num c) p ->
  layered_circuit (append_gate c (FixedSingleQubitGate cls p)) = None.
Proof.
  intros Hout.
  destruct (layered_circuit _) as [[l us]|] eqn:E; [exfalso | reflexivity].
  destruct (layered_circuit_inv _ E) as [q [used0 [d [Hp [_ [Hus [Hrows _]]]]]]].
  unfold place_gates in Hp.
  pose proof (place_gates_used _ _ _ Hp) as Hu.
  apply place_gates_length in Hp; cbn [fst] in Hp; rewrite repeat_length in Hp.
  cbn [append_gate set_gates gates num] in *.
  rewrite fold_left_app in Hu; cbn [fold_left used_after] in Hu.
  assert (Hin : In p us).
  { rewrite Hus; eapply Permutation_in; [apply Permutation_sym, np_sort_perm|].
    apply fold_mark_used_In; left; rewrite Hu; apply mark_used_In; right; reflexivity. }
  rewrite Hrows in Hin; apply in_map_iff in Hin; destruct Hin as [r [<- Hr]].
  apply filter_In in Hr; destruct Hr as [Hr _]; apply in_seq in Hr.
  apply Hout; split; lia.
Qed.

(** C6, amended: a builder call appends its gate whatever the positions
    are; a position outside the register shows only later, when
    [layered_circuit] fails on the circuit. *)
Theorem builder_appends_unchecked (c : QuantumCircuit) (p q : Z) (ps : list Z) :
  (gates (h c p) = gates c ++ [FixedSingleQubitGate HGate p]
   /\ gates (x c p) = gates c ++ [FixedSingleQubitGate XGate p]
   /\ gates (y c p) = gates c ++ [FixedSingleQubitGate YGate p]
   /\ gates (z c p) = gates c ++ [FixedSingleQubitGate ZGate p]
   /\ gates (cnot c p q) = gates c ++ [FixedTwoQubitGate CXGate p q]
   /\ gates (cy c p q) = gates c ++ [FixedTwoQubitGate CYGate p q]
   /\ gates (cz c p q) = gates c ++ [FixedTwoQubitGate CZGate p q]
   /\ gates (swap c p q) = gates c ++ [FixedTwoQubitGate SwapGate p q]
   /\ gates (barrier c ps) = gates c ++ [Barrier ps])
  /\ (~ in_register (num c) p -> layered_circuit (h c p) = None).
Proof.
  split; [repeat split | apply layered_circuit_outside].
Qed.

Lemma builder_appends_unchecked_witness :
  gates (h (new_circuit 1) 5) = [FixedSingleQubitGate HGate 5]
  /\ layered_circuit (h (new_circuit 1) 5) = None.
Proof.
  destruct (builder_appends_unchecked (new_circuit 1) 5 0 []) as [[Hh _] Hfail].
  split; [exact Hh | apply Hfail; unfold in_register; simpl; lia].
Defined.

(** ** Import: statements after a measurement *)

Section ImportFacts.

Variable py_eval : text -> option float.

Lemma text_eqb_eq a b : text_eqb a b = true <-> a = b.
Proof. unfold text_eqb; destruct (list_eq_dec ascii_dec a b); split; congruence. Qed.

Lemma text_eqb_neq a b : a <> b -> text_eqb a b = false.
Proof. unfold text_eqb; destruct (list_eq_dec ascii_dec a b); congruence. Qed.

Lemma rotation_invalid_indep cls c t p a :
  rotation cls (set_openqasm c t) p a = set_openqasm (rotation cls c p a) t.
Proof. unfold rotation; destruct (negb _); reflexivity. Qed.

Lemma apply_gate_source name inds paras c t :
  apply_gate name inds paras (set_openqasm c t)
  = option_map (fun c' => set_openqasm c' t) (apply_gate name inds paras c).
Proof.
  unfold apply_gate, rx, ry, rz.
  repeat match goal with
         | |- context [if text_eqb ?a ?b then _ else _] => destruct (text_eqb a b)
         end;
    repeat match goal with
           | |- context [nth_error ?l ?i] => destruct (nth_error l i); cbn [bind option_map]
           | |- context [bind ?v _] => destruct v; cbn [bind option_map]
           end;
    rewrite ?rotation_invalid_indep; try reflexivity.
Qed.

Lemma import_gate_source ops qbs st t :
  import_gate py_eval ops qbs (with_source t st)
  = option_map (with_source t) (import_gate py_eval ops qbs st).
Proof.
  unfold import_gate; cbn [with_source with_circ im_measured im_circ im_valid im_paras].
  destruct (existsb _ _); [reflexivity|].
  destruct (text_eqb ops (lit "barrier")); [reflexivity|].
  destruct (split_on "(" ops) as [|name rest]; [reflexivity|].
  destruct rest as [|p rest]; cbn [bind].
  - rewrite apply_gate_source; destruct (apply_gate _ _ _ _); reflexivity.
  - destruct (mapM _ _); cbn [bind]; [|reflexivity].
    rewrite apply_gate_source; destruct (apply_gate _ _ _ _); reflexivity.
Qed.

Lemma import_gate_invalidate ops qbs st :
  import_gate py_eval ops qbs (invalidate st)
  = option_map invalidate (import_gate py_eval ops qbs st).
Proof.
  unfold import_gate; cbn [invalidate im_measured im_circ im_valid im_paras].
  destruct (existsb _ _); [reflexivity|].
  destruct (text_eqb ops (lit "barrier")); [reflexivity|].
  destruct (split_on "(" ops) as [|name rest]; [reflexivity|].
  destruct rest as [|p rest]; cbn [bind].
  - destruct (apply_gate _ _ _ _); reflexivity.
  - destruct (mapM _ _); cbn [bind]; [|reflexivity].
    destruct (apply_gate _ _ _ _); reflexivity.
Qed.

Lemma import_line_source st line t :
  import_line py_eval (with_source t st) line
  = option_map (with_source t) (import_line py_eval st line).
Proof.
  unfold import_line; destruct line as [|ch line]; [reflexivity|].
  destruct (split_space (ch :: line)) as [ops rest].
  destruct (text_eqb ops (lit "qreg")).
  { destruct rest; cbn [bind]; [|reflexivity].
    destruct (nth_error _ 0); reflexivity. }
  destruct (text_eqb ops (lit "creg")); [reflexivity|].
  destruct (text_eqb ops (lit "measure")).
  { destruct rest as [qbs|]; cbn [bind]; [|reflexivity].
    destruct (nth_error (operands qbs) 0); cbn [bind]; [|reflexivity].
    destruct (nth_error (operands qbs) 1); reflexivity. }
  destruct rest; cbn [bind]; [apply import_gate_source | reflexivity].
Qed.

Lemma import_line_invalidate st line :
  import_line py_eval (invalidate st) line
  = option_map invalidate (import_line py_eval st line).
Proof.
  unfold import_line; destruct line as [|ch line]; [reflexivity|].
  destruct (split_space (ch :: line)) as [ops rest].
  destruct (text_eqb ops (lit "qreg")).
  { destruct rest; cbn [bind]; [|reflexivity].
    destruct (nth_error _ 0); reflexivity. }
  destruct (text_eqb ops (lit "creg")); [reflexivity|].
  destruct (text_eqb ops (lit "measure")).
  { destruct rest as [qbs|]; cbn [bind]; [|reflexivity].
    destruct (nth_error (operands qbs) 0); cbn [bind]; [|reflexivity].
    destruct (nth_error (operands qbs) 1); reflexivity. }
  destruct rest; cbn [bind]; [apply import_gate_invalidate | reflexivity].
Qed.

Lemma import_lines_commute (f : import_state -> import_state) ls :
  (forall st line, import_line py_eval (f st) line
                   = option_map f (import_line py_eval st line)) ->
  forall st, import_lines py_eval (f st) ls = option_map f (import_lines py_eval st ls).
Proof.
  intros Hf; unfold import_lines; induction ls as [|l ls IH]; intros st; simpl;
    [reflexivity|].
  rewrite Hf; destruct (import_line py_eval st l); simpl; [apply IH | reflexivity].
Qed.

(** Qubits once measured stay in the list. *)
Lemma import_line_measured st line st' q :
  import_line py_eval st line = Some st' ->
  In q (im_measured st) -> In q (im_measured st').
Proof.
  unfold import_line; destruct line as [|ch line]; [intros H; inversion H; auto|].
  destruct (split_space (ch :: line)) as [ops rest].
  destruct (text_eqb ops (lit "qreg")).
  { destruct rest; cbn [bind]; [|discriminate].
    destruct (nth_error _ 0); cbn [bind]; [|discriminate].
    intros H; inversion H; auto. }
  destruct (text_eqb ops (lit "creg")); [intros H; inversion H; auto|].
  destruct (text_eqb ops (lit "measure")).
  { destruct rest as [qbs|]; cbn [bind]; [|discriminate].
    destruct (nth_error (operands qbs) 0); cbn [bind]; [|discriminate].
    destruct (nth_error (operands qbs) 1); cbn [bind]; [|discriminate].
    intros H; inversion H; cbn; intros; apply in_or_app; auto. }
  destruct rest as [qbs|]; cbn [bind]; [|discriminate].
  unfold import_gate.
  destruct (existsb _ _); [intros H; inversion H; auto|].
  destruct (text_eqb ops (lit "barrier")); [intros H; inversion H; auto|].
  destruct (split_on "(" ops) as [|name sp]; [discriminate|].
  destruct sp as [|p sp]; cbn [bind].
  - destruct (apply_gate _ _ _ _); cbn [bind]; [|discriminate].
    intros H; inversion H; auto.
  - destruct (mapM _ _); cbn [bind]; [|discriminate].
    destruct (apply_gate _ _ _ _); cbn [bind]; [|discriminate].
    intros H; inversion H; auto.
Qed.

Lemma import_lines_measured ls : forall st st' q,
  import_lines py_eval st ls = Some st' ->
  In q (im_measured st) -> In q (im_measured st').
Proof.
  unfold import_lines; induction ls as [|l ls IH]; intros st st' q H Hq; simpl in H.
  - inversion H; subst; exact Hq.
  - destruct (import_line py_eval st l) as [st1|] eqn:E; cbn [bind] in H; [|discriminate].
    eapply IH; [exact H | eapply import_line_measured; eassumption].
Qed.

Lemma import_measure_statement st line q cb :
  measure_statement line q cb ->
  exists st', import_line py_eval st line = Some st' /\ In q (im_measured st').
Proof.
  intros [qbs [rest [Hs Ho]]]; unfold import_line.
  destruct line as [|ch line]; [discriminate|].
  rewrite Hs; cbv iota beta.
  rewrite !text_eqb_neq by (cbv; discriminate).
  replace (text_eqb (lit "measure") (lit "measure")) with true
    by (symmetry; apply text_eqb_eq; reflexivity).
  cbn [bind]; rewrite Ho; cbn [nth_error bind].
  eexists; split; [reflexivity|]; cbn; apply in_or_app; right; left; reflexivity.
Qed.

Lemma import_gate_statement st line ops qbs q :
  gate_statement line ops qbs ->
  In q (operands qbs) -> In q (im_measured st) ->
  import_line py_eval st line = Some (invalidate st).
Proof.
  intros [Hne [Hs [H1 [H2 H3]]]] Hq Hm; unfold import_line.
  destruct line as [|ch line]; [congruence|].
  rewrite Hs; cbv iota beta.
  rewrite !text_eqb_neq by assumption; cbn [bind]; unfold import_gate.
  replace (existsb _ (operands qbs)) with true; [reflexivity|].
  symmetry; apply existsb_exists; exists q; split; [exact Hq|].
  apply existsb_Zeqb_In; exact Hm.
Qed.

(** A gate statement on a measured qubit is skipped and clears
    [global_valid]; nothing else changes. *)
Lemma import_lines_drop st pre mline mid gline post q cb ops qbs :
  measure_statement mline q cb ->
  gate_statement gline ops qbs ->
  In q (operands qbs) ->
  import_lines py_eval st (pre ++ mline :: mid ++ gline :: post)
  = option_map invalidate (import_lines py_eval st (pre ++ mline :: mid ++ post)).
Proof.
  intros Hm Hg Hq; unfold import_lines.
  rewrite !foldM_app; destruct (foldM _ pre st) as [s0|]; [|reflexivity].
  cbn [bind foldM].
  destruct (import_measure_statement s0 Hm) as [s1 [E1 Hin]]; rewrite E1; cbn [bind].
  rewrite !foldM_app; destruct (foldM _ mid s1) as [s2|] eqn:E2; [|reflexivity].
  cbn [bind foldM].
  assert (Hin2 : In q (im_measured s2))
    by (eapply import_lines_measured; [exact E2 | exact Hin]).
  rewrite (@import_gate_statement s2 gline ops qbs q Hg Hq Hin2); cbn [bind].
  apply (import_lines_commute invalidate post import_line_invalidate).
Qed.

End ImportFacts.

(** C4: when a gate statement has an operand that an earlier [measure]
    statement measured, the import gives what it gives without that
    statement, except that [global_valid] is cleared (the warning); the
    statement itself raises nothing and adds no gate. *)
Theorem import_skips_gate_on_measured_qubit
        (py_eval : text -> option float) (c : QuantumCircuit) (src src' : text)
        (pre mid post : list text) (mline gline ops qbs : text) (q cb : Z) :
  skipn 2 (splitlines src) = pre ++ mline :: mid ++ gline :: post ->
  skipn 2 (splitlines src') = pre ++ mline :: mid ++ post ->
  measure_statement mline q cb ->
  gate_statement gline ops qbs ->
  In q (operands qbs) ->
  imported py_eval c src
  = option_map (fun r => match r with (g, m, n, _) => (g, m, n, false) end)
               (imported py_eval c src').
Proof.
  intros Hsrc Hsrc' Hm Hg Hq; unfold imported, from_openqasm.
  rewrite Hsrc, Hsrc'.
  change (mkImport (set_measures (set_gates (set_openqasm c src) []) []) [] true None)
    with (with_source src
            (mkImport (set_measures (set_gates (set_openqasm c src') []) []) [] true None)).
  rewrite (@import_lines_commute py_eval (with_source src) _
             (fun st line => import_line_source py_eval st line src)).
  rewrite (@import_lines_drop py_eval _ pre mline mid gline post q cb ops qbs Hm Hg Hq).
  destruct (import_lines py_eval _ (pre ++ mline :: mid ++ post)) as [s|]; [|reflexivity].
  cbn [option_map bind invalidate with_source with_circ im_circ im_valid fst snd].
  unfold set_openqasm; cbn [measures].
  destruct (measures (im_circ s)) eqn:E; cbn [gates measures num]; rewrite ?E; reflexivity.
Qed.

Lemma import_skips_gate_on_measured_qubit_witness :
  imported (fun _ => None) (new_circuit 0)
           (lit "OPENQASM 2.0;" ++ [nl] ++ lit "include qelib1.inc;" ++ [nl]
                ++ lit "qreg q[2];" ++ [nl] ++ lit "x q[1];" ++ [nl]
                ++ lit "measure q[0] -> meas[0];" ++ [nl] ++ lit "h q[0];" ++ [nl])
  = Some ([FixedSingleQubitGate XGate 1], [(0, 0)]%Z, 2%Z, false).
Proof.
  rewrite (@import_skips_gate_on_measured_qubit
             (fun _ => None) (new_circuit 0) _
             (lit "OPENQASM 2.0;" ++ [nl] ++ lit "include qelib1.inc;" ++ [nl]
                  ++ lit "qreg q[2];" ++ [nl] ++ lit "x q[1];" ++ [nl]
                  ++ lit "measure q[0] -> meas[0];" ++ [nl])
             [lit "qreg q[2];"; lit "x q[1];"] [] []
             (lit "measure q[0] -> meas[0];") (lit "h q[0];") (lit "h") (lit "q[0];")
             0%Z 0%Z).
  - reflexivity.
  - reflexivity.
  - reflexivity.
  - exists (lit "q[0] -> meas[0];"), []; split; reflexivity.
  - repeat split; cbv; discriminate.
  - left; reflexivity.
Defined.

(** ** Text: decimal numbers *)

Lemma digit_char_spec d :
  d < 10 ->
  nat_of_ascii (ascii_of_nat (48 + d)) = 48 + d /\ is_digit (ascii_of_nat (48 + d)) = true.
Proof.
  intros H; assert (E : nat_of_ascii (ascii_of_nat (48 + d)) = 48 + d)
    by (apply nat_ascii_embedding; lia).
  split; [exact E|].
  unfold is_digit; rewrite E.
  apply andb_true_iff; split; apply Nat.leb_le; lia.
Qed.

Lemma little_digits_spec fuel : forall n,
  n < fuel ->
  little_value (little_digits fuel n) = n
  /\ Forall (fun c => is_digit c = true) (little_digits fuel n)
  /\ little_digits fuel n <> [].
Proof.
  induction fuel as [|f IH]; intros n Hn; [lia|].
  cbn [little_digits little_value].
  assert (Hd : n mod 10 < 10) by (apply Nat.mod_upper_bound; lia).
  destruct (digit_char_spec Hd) as [Hv Hdig]; rewrite Hv.
  pose proof (Nat.div_mod_eq n 10) as Hdm.
  destruct (Nat.eqb_spec (n / 10) 0) as [E|E].
  - cbn [little_value]; repeat split; [lia | repeat constructor; exact Hdig | discriminate].
  - assert (Hlt : n / 10 < f) by (pose proof (Nat.div_lt n 10); lia).
    destruct (IH _ Hlt) as [Hval [Hall _]]; rewrite Hval.
    repeat split; [lia | constructor; assumption | discriminate].
Qed.

Lemma py_int_rev l : py_int (rev l) = Z.of_nat (little_value l).
Proof.
  unfold py_int; induction l as [|d l IH]; [reflexivity|].
  cbn [rev little_value]; rewrite fold_left_app; cbn [fold_left]; rewrite IH; lia.
Qed.

Lemma fmt_nat_spec n :
  py_int (fmt_nat n) = Z.of_nat n
  /\ Forall (fun c => is_digit c = true) (fmt_nat n)
  /\ fmt_nat n <> [].
Proof.
  unfold fmt_nat; destruct (@little_digits_spec (S n) n) as [Hv [Hall Hne]]; [lia|].
  rewrite py_int_rev, Hv; repeat split.
  - apply Forall_rev; exact Hall.
  - intros E; apply Hne; apply (f_equal (@rev ascii)) in E.
    rewrite rev_involutive in E; exact E.
Qed.

(** ** Text: [re.findall] *)

Lemma findall_skip c s : is_digit c = false -> findall_digits (c :: s) = findall_digits s.
Proof. intros H; cbn [findall_digits]; rewrite H; reflexivity. Qed.

Lemma findall_run d : forall s,
  d <> [] -> Forall (fun c => is_digit c = true) d -> starts_nondigit s ->
  findall_digits (d ++ s) = d :: findall_digits s.
Proof.
  induction d as [|c d IH]; intros s Hne Hall Hs; [congruence|].
  inversion Hall as [|? ? Hc Hd]; subst.
  destruct d as [|c' d].
  - cbn [app findall_digits]; rewrite Hc.
    destruct s as [|e s]; [reflexivity|].
    simpl in Hs; rewrite Hs; reflexivity.
  - specialize (IH s ltac:(discriminate) Hd Hs).
    change ((c :: c' :: d) ++ s) with (c :: (c' :: d) ++ s).
    cbn [findall_digits]; rewrite Hc.
    change ((c' :: d) ++ s) with (c' :: d ++ s) at 1.
    cbv iota beta.
    inversion Hd as [|? ? Hc' _]; subst; rewrite Hc'.
    change (c' :: d ++ s) with ((c' :: d) ++ s); rewrite IH; reflexivity.
Qed.

Lemma findall_fmt_d v s :
  starts_nondigit s ->
  findall_digits (fmt_d v ++ s) = fmt_nat (Z.abs_nat v) :: findall_digits s.
Proof.
  intros Hs; destruct (fmt_nat_spec (Z.abs_nat v)) as [_ [Hall Hne]].
  unfold fmt_d; destruct (v <? 0)%Z.
  - change (("-"%char :: fmt_nat (Z.abs_nat v)) ++ s)
      with ("-"%char :: fmt_nat (Z.abs_nat v) ++ s).
    rewrite findall_skip by reflexivity; apply findall_run; assumption.
  - apply findall_run; assumption.
Qed.

Lemma operands_fmt_d v s :
  starts_nondigit s -> operands (fmt_d v ++ s) = Z.abs v :: operands s.
Proof.
  intros Hs; unfold operands; rewrite findall_fmt_d by exact Hs.
  cbn [map]; destruct (fmt_nat_spec (Z.abs_nat v)) as [Hv _]; rewrite Hv.
  f_equal; lia.
Qed.

(** The operand text [q[p]] yields [|p|], whatever follows. *)
Lemma operands_qubit_ref p s : operands (qubit_ref p ++ s) = Z.abs p :: operands s.
Proof.
  unfold qubit_ref; rewrite <- !app_assoc.
  change (lit "q[" ++ fmt_d p ++ lit "]" ++ s)
    with ("q"%char :: "["%char :: fmt_d p ++ "]"%char :: s).
  unfold operands at 1; rewrite !findall_skip by reflexivity.
  fold (operands (fmt_d p ++ "]"%char :: s)).
  rewrite operands_fmt_d by reflexivity.
  unfold operands at 1; rewrite findall_skip by reflexivity; reflexivity.
Qed.

Lemma operands_skip c s : is_digit c = false -> operands (c :: s) = operands s.
Proof. intros H; unfold operands; rewrite findall_skip by exact H; reflexivity. Qed.

Lemma operands_join ps s :
  starts_nondigit s ->
  operands (join (lit ",") (map qubit_ref ps) ++ s) = map Z.abs ps ++ operands s.
Proof.
  intros Hs; induction ps as [|p ps IH]; [reflexivity|].
  destruct ps as [|p' ps].
  - cbn [map join app]; apply operands_qubit_ref.
  - change (join (lit ",") (map qubit_ref (p :: p' :: ps)))
      with (qubit_ref p ++ lit "," ++ join (lit ",") (map qubit_ref (p' :: ps))).
    rewrite <- !app_assoc, operands_qubit_ref.
    change (lit "," ++ join (lit ",") (map qubit_ref (p' :: ps)) ++ s)
      with (","%char :: join (lit ",") (map qubit_ref (p' :: ps)) ++ s).
    rewrite operands_skip by reflexivity; rewrite IH; reflexivity.
Qed.

Lemma map_abs_nonneg ps : Forall (fun p => (0 <= p)%Z) ps -> map Z.abs ps = ps.
Proof.
  induction 1 as [|p ps Hp Hps IH]; cbn [map]; [reflexivity|].
  rewrite IH; f_equal; lia.
Qed.

(** ** Text: lines and words *)

Lemma splitlines_line line rest :
  no_break line -> splitlines (line ++ nl :: rest) = line :: splitlines rest.
Proof.
  unfold no_break; induction line as [|c line IH]; intros H.
  - cbn [app splitlines].
    replace (is_linebreak nl) with true by reflexivity.
    destruct rest as [|c' rest]; reflexivity.
  - cbn [forallb] in H; apply andb_true_iff in H; destruct H as [Hc Hl].
    apply negb_true_iff in Hc.
    change ((c :: line) ++ nl :: rest) with (c :: (line ++ nl :: rest)).
    cbn [splitlines]; rewrite Hc, (IH Hl); reflexivity.
Qed.

Lemma splitlines_lines ls :
  Forall no_break ls -> splitlines (concat (map (fun l => l ++ [nl]) ls)) = ls.
Proof.
  induction 1 as [|l ls Hl Hls IH]; [reflexivity|].
  cbn [map concat]; rewrite <- app_assoc; cbn [app].
  rewrite splitlines_line by exact Hl; rewrite IH; reflexivity.
Qed.

Lemma split_space_word t rest :
  free_of " " t -> split_space (t ++ " "%char :: rest) = (t, Some rest).
Proof.
  unfold free_of; induction t as [|c t IH]; intros H; [reflexivity|].
  cbn [forallb] in H; apply andb_true_iff in H; destruct H as [Hc Ht].
  apply negb_true_iff in Hc.
  change ((c :: t) ++ " "%char :: rest) with (c :: (t ++ " "%char :: rest)).
  cbn [split_space]; rewrite Hc, (IH Ht); reflexivity.
Qed.

Lemma split_on_app ch t s :
  free_of ch t ->
  split_on ch (t ++ s)
  = match split_on ch s with
    | l :: ls => (t ++ l) :: ls
    | [] => [t]
    end.
Proof.
  unfold free_of; induction t as [|c t IH]; intros H.
  - cbn [app]; destruct (split_on ch s) eqn:E; [|reflexivity].
    destruct s; cbn in E; [discriminate|].
    destruct (Ascii.eqb a ch); [discriminate|].
    destruct (split_on ch s); discriminate.
  - cbn [forallb] in H; apply andb_true_iff in H; destruct H as [Hc Ht].
    apply negb_true_iff in Hc.
    change ((c :: t) ++ s) with (c :: (t ++ s)).
    cbn [split_on]; rewrite Hc, (IH Ht).
    destruct (split_on ch s); reflexivity.
Qed.

Lemma lstrip_keep p t : (forall c, hd_error t = Some c -> p c = false) -> lstrip p t = t.
Proof.
  destruct t as [|c t]; intros H; [reflexivity|].
  cbn [lstrip]; rewrite (H c eq_refl); reflexivity.
Qed.

Lemma strip_parens_closing t :
  forallb para_char_ok t = true -> strip_parens (t ++ lit ")") = t.
Proof.
  intros H.
  assert (Hp : forall c, In c t -> is_paren c = false).
  { intros c Hc; rewrite forallb_forall in H; specialize (H c Hc).
    unfold para_char_ok in H; apply negb_true_iff in H.
    apply orb_false_iff in H; destruct H as [H _].
    apply orb_false_iff in H; destruct H as [_ H]; exact H. }
  unfold strip_parens.
  assert (E1 : lstrip is_paren (t ++ lit ")") = t ++ lit ")" \/ t = []).
  { destruct t as [|c t]; [right; reflexivity | left].
    apply lstrip_keep; intros c' E; inversion E; subst; apply Hp; left; reflexivity. }
  destruct E1 as [E1 | ->]; [|reflexivity].
  rewrite E1, rev_app_distr; cbn [lit list_ascii_of_string rev app lstrip].
  replace (is_paren ")"%char) with true by reflexivity.
  rewrite lstrip_keep; [apply rev_involutive|].
  intros c E; apply Hp, in_rev.
  destruct (rev t); inversion E; subst; left; reflexivity.
Qed.

Lemma para_text_parts t :
  forallb para_char_ok t = true ->
  no_break t /\ free_of " " t /\ free_of "(" t /\ free_of "," t.
Proof.
  intros H; unfold no_break, free_of; rewrite !forallb_forall.
  rewrite forallb_forall in H.
  repeat split; intros c Hc; specialize (H c Hc);
    unfold para_char_ok, is_paren in H; apply negb_true_iff in H;
    apply orb_false_iff in H; destruct H as [H Hcomma];
    apply orb_false_iff in H; destruct H as [H Hparen];
    apply orb_false_iff in H; destruct H as [Hbreak Hspace];
    apply orb_false_iff in Hparen; destruct Hparen as [Hopen Hclose];
    apply negb_true_iff; assumption.
Qed.

Lemma digit_not_break c : is_digit c = true -> is_linebreak c = false.
Proof.
  unfold is_digit, is_linebreak; intros H.
  apply andb_true_iff in H; destruct H as [H1 H2].
  apply Nat.leb_le in H1; apply Nat.leb_le in H2.
  cbn [existsb].
  repeat match goal with
         | |- context [Nat.eqb ?a ?b] => destruct (Nat.eqb_spec a b); [lia|]
         end.
  reflexivity.
Qed.

Lemma no_break_app a b : no_break a -> no_break b -> no_break (a ++ b).
Proof. unfold no_break; intros Ha Hb; rewrite forallb_app, Ha, Hb; reflexivity. Qed.

Lemma no_break_fmt_d v : no_break (fmt_d v).
Proof.
  assert (H : no_break (fmt_nat (Z.abs_nat v))).
  { destruct (fmt_nat_spec (Z.abs_nat v)) as [_ [Hall _]].
    unfold no_break; apply forallb_forall; intros c Hc.
    rewrite Forall_forall in Hall; apply negb_true_iff, digit_not_break, Hall, Hc. }
  unfold fmt_d; destruct (v <? 0)%Z; [|exact H].
  unfold no_break in *; cbn [forallb]; rewrite H; reflexivity.
Qed.

Lemma no_break_qubit_ref p : no_break (qubit_ref p).
Proof.
  unfold qubit_ref; repeat apply no_break_app;
    try apply no_break_fmt_d; reflexivity.
Qed.

Lemma no_break_join ps : no_break (join (lit ",") (map qubit_ref ps)).
Proof.
  induction ps as [|p ps IH]; [reflexivity|].
  destruct ps as [|p' ps]; [apply no_break_qubit_ref|].
  change (join (lit ",") (map qubit_ref (p :: p' :: ps)))
    with (qubit_ref p ++ lit "," ++ join (lit ",") (map qubit_ref (p' :: ps))).
  apply no_break_app; [apply no_break_qubit_ref|].
  apply no_break_app; [reflexivity | exact IH].
Qed.

(** ** Export followed by import *)

Section RoundTrip.

Variable float_str : float -> text.
Variable py_eval : text -> option float.

Lemma gate_qasm_line g : gate_qasm float_str g = gate_line float_str g ++ [nl].
Proof.
  destruct g; unfold gate_qasm, gate_line, gate_ops, gate_qbs;
    repeat rewrite <- app_assoc; reflexivity.
Qed.

Lemma to_openqasm_lines c :
  to_openqasm float_str c
  = concat (map (fun l => l ++ [nl]) (qasm_lines float_str c)).
Proof.
  unfold to_openqasm, qasm_lines, qasm_header.
  rewrite !map_app, !concat_app, !map_map.
  rewrite (map_ext _ _ gate_qasm_line).
  cbn [map concat]; repeat rewrite <- app_assoc.
  unfold measure_qasm, measure_line.
  rewrite (map_ext (fun kv => (lit "measure q[" ++ fmt_d (fst kv) ++ lit "] -> meas["
                                   ++ fmt_d (snd kv) ++ lit "];") ++ [nl])
                   (fun kv => lit "measure q[" ++ fmt_d (fst kv) ++ lit "] -> meas["
                                  ++ fmt_d (snd kv) ++ lit "];" ++ [nl]))
    by (intros; repeat rewrite <- app_assoc; reflexivity).
  reflexivity.
Qed.

Lemma free_of_app ch a b : free_of ch a -> free_of ch b -> free_of ch (a ++ b).
Proof. unfold free_of; intros Ha Hb; rewrite forallb_app, Ha, Hb; reflexivity. Qed.

Lemma gate_ops_word g : exportable float_str py_eval g -> free_of " " (gate_ops float_str g).
Proof.
  intros [_ Hp]; destruct g as [cls p|cls p a|cls p0 p1|ps]; cbn [gate_ops gate_name].
  - destruct cls; reflexivity.
  - destruct Hp as [Hp _]; apply para_text_parts in Hp; destruct Hp as [_ [Hsp _]].
    apply free_of_app; [destruct cls; reflexivity|].
    apply free_of_app; [reflexivity|].
    apply free_of_app; [exact Hsp | reflexivity].
  - destruct cls; reflexivity.
  - reflexivity.
Qed.

Lemma gate_ops_no_break g : exportable float_str py_eval g -> no_break (gate_ops float_str g).
Proof.
  intros [_ Hp]; destruct g as [cls p|cls p a|cls p0 p1|ps]; cbn [gate_ops gate_name].
  - destruct cls; reflexivity.
  - destruct Hp as [Hp _]; apply para_text_parts in Hp; destruct Hp as [Hb _].
    apply no_break_app; [destruct cls; reflexivity|].
    apply no_break_app; [reflexivity|].
    apply no_break_app; [exact Hb | reflexivity].
  - destruct cls; reflexivity.
  - reflexivity.
Qed.

Lemma gate_qbs_no_break g : no_break (gate_qbs g).
Proof.
  destruct g as [cls p|cls p a|cls p0 p1|ps]; cbn [gate_qbs].
  - apply no_break_app; [apply no_break_qubit_ref | reflexivity].
  - apply no_break_app; [apply no_break_qubit_ref | reflexivity].
  - apply no_break_app; [apply no_break_qubit_ref|].
    apply no_break_app; [reflexivity|].
    apply no_break_app; [apply no_break_qubit_ref | reflexivity].
  - apply no_break_app; [apply no_break_join | reflexivity].
Qed.

Lemma measure_line_no_break kv : no_break (measure_line kv).
Proof.
  unfold measure_line.
  apply no_break_app; [reflexivity|].
  apply no_break_app; [apply no_break_fmt_d|].
  apply no_break_app; [reflexivity|].
  apply no_break_app; [apply no_break_fmt_d | reflexivity].
Qed.

Lemma qasm_lines_no_break c :
  Forall (exportable float_str py_eval) (gates c) ->
  Forall no_break (qasm_lines float_str c).
Proof.
  intros Hg; unfold qasm_lines.
  apply Forall_app; split; [|apply Forall_app; split].
  - constructor; [reflexivity|].
    constructor; [reflexivity|].
    constructor.
    { apply no_break_app; [reflexivity|].
      apply no_break_app; [apply no_break_fmt_d | reflexivity]. }
    constructor; [|constructor].
    apply no_break_app; [reflexivity|].
    apply no_break_app; [apply no_break_fmt_d | reflexivity].
  - apply Forall_forall; intros l Hl; apply in_map_iff in Hl.
    destruct Hl as [g [<- Hin]]; rewrite Forall_forall in Hg.
    unfold gate_line; apply no_break_app; [apply gate_ops_no_break, Hg, Hin|].
    apply no_break_app; [reflexivity | apply gate_qbs_no_break].
  - apply Forall_forall; intros l Hl; apply in_map_iff in Hl.
    destruct Hl as [kv [<- _]]; apply measure_line_no_break.
Qed.

(** The text that [to_openqasm] returns splits into its lines. *)
Lemma splitlines_to_openqasm c :
  Forall (exportable float_str py_eval) (gates c) ->
  splitlines (to_openqasm float_str c) = qasm_lines float_str c.
Proof.
  intros Hg; rewrite to_openqasm_lines; apply splitlines_lines, qasm_lines_no_break, Hg.
Qed.

Lemma gate_line_statement g :
  exportable float_str py_eval g ->
  gate_statement (gate_line float_str g) (gate_ops float_str g) (gate_qbs g).
Proof.
  intros Hg; unfold gate_statement, gate_line; repeat split.
  - destruct (gate_ops float_str g); discriminate.
  - apply split_space_word, gate_ops_word, Hg.
  - destruct g as [[]|[]|[]|]; cbn; discriminate.
  - destruct g as [[]|[]|[]|]; cbn; discriminate.
  - destruct g as [[]|[]|[]|]; cbn; discriminate.
Qed.

Lemma import_line_gate_statement st line ops qbs :
  gate_statement line ops qbs ->
  import_line py_eval st line = import_gate py_eval ops qbs st.
Proof.
  intros [Hne [Hs [H1 [H2 H3]]]]; unfold import_line.
  destruct line as [|ch line]; [congruence|].
  rewrite Hs; cbv iota beta.
  rewrite !text_eqb_neq by assumption; reflexivity.
Qed.

Lemma operands_gate_qbs g :
  Forall (fun p => (0 <= p)%Z) (gate_pos g) -> operands (gate_qbs g) = gate_pos g.
Proof.
  intros H; rewrite <- (map_abs_nonneg H).
  destruct g as [cls p|cls p a|cls p0 p1|ps]; cbn [gate_qbs gate_pos map].
  - rewrite operands_qubit_ref; reflexivity.
  - rewrite operands_qubit_ref; reflexivity.
  - rewrite operands_qubit_ref.
    change (lit "," ++ qubit_ref p1 ++ lit ";") with (","%char :: qubit_ref p1 ++ lit ";").
    rewrite operands_skip by reflexivity; rewrite operands_qubit_ref; reflexivity.
  - rewrite operands_join by reflexivity; apply app_nil_r.
Qed.

Lemma not_measured inds : existsb (fun pos => existsb (Z.eqb pos) []) inds = false.
Proof. induction inds; [reflexivity | exact IHinds]. Qed.

Lemma apply_gate_single cls inds paras c :
  apply_gate (lower (single_gate_name cls)) inds paras c
  = (a <- nth_error inds 0 ;; Some (append_gate c (FixedSingleQubitGate cls a))).
Proof. destruct cls; reflexivity. Qed.

Lemma apply_gate_two cls inds paras c :
  apply_gate (lower (two_gate_name cls)) inds paras c
  = (a <- nth_error inds 0 ;; b <- nth_error inds 1 ;;
     Some (append_gate c (FixedTwoQubitGate cls a b))).
Proof. destruct cls; reflexivity. Qed.

Lemma apply_gate_rotation cls inds paras c :
  apply_gate (lower (rotation_gate_name cls)) inds paras c
  = (a <- nth_error inds 0 ;; t <- (ps <- paras ;; nth_error ps 0) ;;
     Some (rotation cls c a t)).
Proof. destruct cls; reflexivity. Qed.

Lemma split_on_rotation cls t :
  forallb para_char_ok t = true ->
  split_on "(" (lower (rotation_gate_name cls) ++ lit "(" ++ t ++ lit ")")
  = [lower (rotation_gate_name cls); t ++ lit ")"].
Proof.
  intros Ht; apply para_text_parts in Ht; destruct Ht as [_ [_ [Hopen _]]].
  rewrite split_on_app by (destruct cls; reflexivity).
  change (lit "(" ++ t ++ lit ")") with ("("%char :: t ++ lit ")").
  cbn [split_on]; replace (Ascii.eqb "(" "(") with true by reflexivity.
  rewrite (split_on_app _ Hopen), app_nil_r; reflexivity.
Qed.

Lemma split_on_comma t : forallb para_char_ok t = true -> split_on "," t = [t].
Proof.
  intros Ht; apply para_text_parts in Ht; destruct Ht as [_ [_ [_ Hcomma]]].
  rewrite <- (app_nil_r t) at 1; rewrite (split_on_app _ Hcomma); cbn.
  rewrite app_nil_r; reflexivity.
Qed.

(** The statement exported for a gate is imported as a gate with the same
    mnemonic and positions. *)
Lemma import_exported_gate st g :
  exportable float_str py_eval g ->
  im_measured st = [] ->
  exists g' ps,
    import_line py_eval st (gate_line float_str g)
    = Some (mkImport (append_gate (im_circ st) g') [] (im_valid st) ps)
    /\ gate_sig g' = gate_sig g.
Proof.
  intros Hg Hm.
  rewrite (import_line_gate_statement st (gate_line_statement Hg)).
  destruct Hg as [Hpos Hpara]; unfold import_gate.
  rewrite (operands_gate_qbs _ Hpos), Hm, not_measured.
  destruct g as [cls p|cls p a|cls p0 p1|ps]; cbn [gate_ops gate_name gate_pos].
  - exists (FixedSingleQubitGate cls p), (im_paras st).
    rewrite text_eqb_neq by (destruct cls; cbv; discriminate).
    replace (split_on "(" (lower (single_gate_name cls)))
      with [lower (single_gate_name cls)] by (destruct cls; reflexivity).
    cbn [bind]; rewrite apply_gate_single; split; reflexivity.
  - destruct Hpara as [Hok [b [Hev Hnz]]].
    exists (ParaSingleQubitGate cls p b), (Some [b]).
    rewrite text_eqb_neq by (destruct cls; cbn; discriminate).
    rewrite (@split_on_rotation cls _ Hok), (@strip_parens_closing _ Hok), (@split_on_comma _ Hok).
    cbn [mapM bind]; rewrite Hev; cbn [bind].
    rewrite apply_gate_rotation; cbn [nth_error bind].
    unfold rotation; rewrite Hnz; split; reflexivity.
  - exists (FixedTwoQubitGate cls p0 p1), (im_paras st).
    rewrite text_eqb_neq by (destruct cls; cbv; discriminate).
    replace (split_on "(" (lower (two_gate_name cls)))
      with [lower (two_gate_name cls)] by (destruct cls; reflexivity).
    cbn [bind]; rewrite apply_gate_two; split; reflexivity.
  - exists (Barrier ps), (im_paras st).
    replace (text_eqb (lower (lit "barrier")) (lit "barrier")) with true by reflexivity.
    unfold with_circ, barrier; rewrite Hm; split; reflexivity.
Qed.

Lemma import_exported_gates gs : forall st,
  Forall (exportable float_str py_eval) gs ->
  im_measured st = [] ->
  exists st' gs',
    import_lines py_eval st (map (gate_line float_str) gs) = Some st'
    /\ im_measured st' = []
    /\ im_valid st' = im_valid st
    /\ gates (im_circ st') = gates (im_circ st) ++ gs'
    /\ map gate_sig gs' = map gate_sig gs.
Proof.
  unfold import_lines; induction gs as [|g gs IH]; intros st Hall Hm.
  - exists st, []; cbn; rewrite app_nil_r; auto.
  - apply Forall_cons_iff in Hall; destruct Hall as [Hg Hgs].
    destruct (import_exported_gate st Hg Hm) as [g' [ps [E Hsig]]].
    cbn [map foldM]; rewrite E; cbn [bind].
    destruct (IH (mkImport (append_gate (im_circ st) g') [] (im_valid st) ps) Hgs eq_refl) as [st' [gs' [E' [Hm' [Hv' [Hgates Hsigs]]]]]].
    exists st', (g' :: gs'); rewrite E'; repeat split; try assumption.
    + rewrite Hgates; cbn; rewrite <- app_assoc; reflexivity.
    + cbn [map]; rewrite Hsig, Hsigs; reflexivity.
Qed.

Lemma import_measure_line st kv :
  exists st',
    import_line py_eval st (measure_line kv) = Some st'
    /\ gates (im_circ st') = gates (im_circ st)
    /\ im_valid st' = im_valid st.
Proof.
  assert (Hs : split_space (measure_line kv)
               = (lit "measure",
                  Some (lit "q[" ++ fmt_d (fst kv) ++ lit "] -> meas["
                            ++ fmt_d (snd kv) ++ lit "];"))) by reflexivity.
  assert (Ho : operands (lit "q[" ++ fmt_d (fst kv) ++ lit "] -> meas["
                            ++ fmt_d (snd kv) ++ lit "];")
               = [Z.abs (fst kv); Z.abs (snd kv)]).
  { change (lit "q[" ++ fmt_d (fst kv) ++ lit "] -> meas[" ++ fmt_d (snd kv) ++ lit "];")
      with ("q"%char :: "["%char :: fmt_d (fst kv)
              ++ lit "] -> meas[" ++ fmt_d (snd kv) ++ lit "];").
    rewrite !operands_skip by reflexivity.
    rewrite operands_fmt_d by reflexivity.
    change (lit "] -> meas[" ++ fmt_d (snd kv) ++ lit "];")
      with ("]"%char :: " "%char :: "-"%char :: ">"%char :: " "%char :: "m"%char
              :: "e"%char :: "a"%char :: "s"%char :: "["%char
              :: fmt_d (snd kv) ++ lit "];").
    rewrite !operands_skip by reflexivity.
    rewrite operands_fmt_d by reflexivity; reflexivity. }
  unfold import_line; destruct (measure_line kv) as [|ch l] eqn:E; [discriminate|].
  rewrite Hs; cbv iota beta.
  replace (text_eqb (lit "measure") (lit "qreg")) with false by reflexivity.
  replace (text_eqb (lit "measure") (lit "creg")) with false by reflexivity.
  replace (text_eqb (lit "measure") (lit "measure")) with true by reflexivity.
  cbn [bind]; rewrite Ho; cbn [nth_error bind].
  eexists; repeat split.
Qed.

Lemma import_measure_lines ms : forall st,
  exists st',
    import_lines py_eval st (map measure_line ms) = Some st'
    /\ gates (im_circ st') = gates (im_circ st)
    /\ im_valid st' = im_valid st.
Proof.
  unfold import_lines; induction ms as [|kv ms IH]; intros st.
  - exists st; auto.
  - destruct (import_measure_line st kv) as [s1 [E [Hg Hv]]].
    destruct (IH s1) as [s2 [E2 [Hg2 Hv2]]].
    exists s2; cbn [map foldM]; rewrite E; cbn [bind]; rewrite E2.
    repeat split; congruence.
Qed.

Lemma import_qreg_line st n :
  import_line py_eval st (lit "qreg q[" ++ fmt_d n ++ lit "];")
  = Some (with_circ st (set_num (im_circ st) (Z.abs n))).
Proof.
  assert (Hs : split_space (lit "qreg q[" ++ fmt_d n ++ lit "];")
               = (lit "qreg", Some (lit "q[" ++ fmt_d n ++ lit "];"))) by reflexivity.
  assert (Hf : findall_digits (lit "q[" ++ fmt_d n ++ lit "];") = [fmt_nat (Z.abs_nat n)]).
  { change (lit "q[" ++ fmt_d n ++ lit "];")
      with ("q"%char :: "["%char :: fmt_d n ++ lit "];").
    rewrite !findall_skip by reflexivity.
    rewrite findall_fmt_d by reflexivity; reflexivity. }
  unfold import_line; destruct (lit "qreg q[" ++ fmt_d n ++ lit "];") eqn:E; [discriminate|].
  rewrite Hs; cbv iota beta.
  replace (text_eqb (lit "qreg") (lit "qreg")) with true by reflexivity.
  cbn [bind]; rewrite Hf; cbn [nth_error bind].
  destruct (fmt_nat_spec (Z.abs_nat n)) as [Hv _]; rewrite Hv.
  do 3 f_equal; lia.
Qed.

Lemma import_creg_line st n :
  import_line py_eval st (lit "creg meas[" ++ fmt_d n ++ lit "];") = Some st.
Proof. reflexivity. Qed.

End RoundTrip.

(** C3 as stated fails: [h(-1)] is accepted by the builder, exported as
    [h q[-1];] and imported, from the digits alone, as a gate on qubit 1. *)
Lemma roundtrip_negative_position :
  imported (fun _ => None) (new_circuit 0)
           (to_openqasm (fun _ => []) (h (new_circuit 2) (-1)))
  = Some ([FixedSingleQubitGate HGate 1], [(0, 0); (1, 1)]%Z, 2%Z, true)
  /\ map gate_sig [FixedSingleQubitGate HGate 1]
     <> map gate_sig (gates (h (new_circuit 2) (-1))).
Proof.
  split; [vm_compute; reflexivity | cbv; discriminate].
Qed.

(** C3, amended: when no position is negative and every rotation angle is
    printed as one word that evaluates to a non-zero angle, the import of the
    exported text succeeds, reports no invalid operation and yields gates
    with the same mnemonics and positions in the same order. *)
Theorem qasm_roundtrip
        (float_str : float -> text) (py_eval : text -> option float)
        (c c0 : QuantumCircuit) :
  Forall (exportable float_str py_eval) (gates c) ->
  exists c',
    from_openqasm py_eval c0 (to_openqasm float_str c) = Some (c', true)
    /\ map gate_sig (gates c') = map gate_sig (gates c).
Proof.
  intros Hg; unfold from_openqasm.
  rewrite (splitlines_to_openqasm _ Hg); unfold qasm_lines.
  cbn [app skipn]; unfold import_lines; cbn [foldM].
  rewrite import_qreg_line; cbn [bind].
  rewrite import_creg_line; cbn [bind].
  rewrite foldM_app.
  set (st0 := with_circ _ _).
  destruct (@import_exported_gates float_str py_eval (gates c) st0 Hg eq_refl)
    as [st1 [gs' [E1 [_ [Hv1 [Hg1 Hsig]]]]]].
  unfold import_lines in E1; rewrite E1; cbn [bind].
  destruct (import_measure_lines py_eval (measures c) st1) as [st2 [E2 [Hg2 Hv2]]].
  unfold import_lines in E2; rewrite E2; cbn [bind].
  eexists; split.
  - f_equal; f_equal; rewrite Hv2, Hv1; reflexivity.
  - rewrite <- Hsig.
    assert (Hgates : gates (im_circ st2) = gs') by (rewrite Hg2, Hg1; reflexivity).
    destruct (measures (im_circ st2)); cbn [set_measures gates]; rewrite Hgates; reflexivity.
Qed.

Lemma qasm_roundtrip_witness :
  exists c',
    from_openqasm (fun _ => Some 2.5%float) (new_circuit 0)
      (to_openqasm (fun _ => lit "2.5")
         (barrier (cnot (rx (h (new_circuit 2) 0) 1 2.5%float) 0 1) [0; 1]%Z))
    = Some (c', true)
    /\ map gate_sig (gates c')
       = map gate_sig
           (gates (barrier (cnot (rx (h (new_circuit 2) 0) 1 2.5%float) 0 1) [0; 1]%Z)).
Proof.
  apply qasm_roundtrip.
  repeat constructor; try (simpl; lia).
  exists 2.5%float; split; reflexivity.
Defined.


(** A rotation by angle zero, put into the gate list directly (the builder
    would not add it), is lost as well: with the text forms Python gives for
    [0.0], the import calls [rx(0, 0.0)], which appends nothing. *)
Lemma roundtrip_zero_angle :
  imported (fun _ => Some 0%float) (new_circuit 0)
           (to_openqasm (fun _ => lit "0.0")
              (append_gate (new_circuit 1) (ParaSingleQubitGate RXGate 0 0%float)))
  = Some ([], [(0, 0)]%Z, 1%Z, true).
Proof. vm_compute; reflexivity. Qed.

(** * Further properties *)

(** ** [reorder_matrix] on arbitrary position lists *)

Lemma sort_keys_ascending pos : forall s,
  StronglySorted Z.lt pos ->
  sort_keys (combine pos (seq s (length pos))) = combine pos (seq s (length pos)).
Proof.
  induction pos as [|a pos IH]; intros s H; [reflexivity|].
  inversion H as [|? ? Hs Hall]; subst.
  cbn [length seq combine sort_keys fold_right].
  change (fold_right insert_key [] (combine pos (seq (S s) (length pos))))
    with (sort_keys (combine pos (seq (S s) (length pos)))).
  rewrite (IH (S s) Hs).
  destruct pos as [|b pos]; [reflexivity|].
  cbn [length seq combine insert_key fst].
  inversion Hall as [|? ? Hab _]; subst.
  destruct (Z.leb_spec a b); [reflexivity | lia].
Qed.

Lemma argsort_ascending pos : StronglySorted Z.lt pos -> argsort pos = seq 0 (length pos).
Proof.
  intros H; unfold argsort; rewrite (sort_keys_ascending 0 H).
  apply map_snd_combine; rewrite length_seq; reflexivity.
Qed.

Lemma insert_key_last x l :
  Forall (fun y => (fst y < fst x)%Z) l -> insert_key x l = l ++ [x].
Proof.
  induction 1 as [|y l Hy _ IH]; [reflexivity|].
  cbn [insert_key]; destruct (Z.leb_spec (fst x) (fst y)); [lia|].
  rewrite IH; reflexivity.
Qed.

Lemma sort_keys_descending pos : forall s,
  StronglySorted Z.gt pos ->
  sort_keys (combine pos (seq s (length pos))) = rev (combine pos (seq s (length pos))).
Proof.
  induction pos as [|a pos IH]; intros s H; [reflexivity|].
  inversion H as [|? ? Hs Hall]; subst.
  cbn [length seq combine sort_keys fold_right rev].
  change (fold_right insert_key [] (combine pos (seq (S s) (length pos))))
    with (sort_keys (combine pos (seq (S s) (length pos)))).
  rewrite (IH (S s) Hs).
  apply insert_key_last, Forall_forall; intros [b i] Hb; cbn [fst].
  apply in_rev, in_combine_l in Hb.
  rewrite Forall_forall in Hall; specialize (Hall _ Hb); lia.
Qed.

Lemma argsort_descending pos :
  StronglySorted Z.gt pos -> argsort pos = rev (seq 0 (length pos)).
Proof.
  intros H; unfold argsort; rewrite (sort_keys_descending 0 H).
  rewrite map_rev; f_equal.
  apply map_snd_combine; rewrite length_seq; reflexivity.
Qed.

Lemma index_of_lt j l : In j l -> index_of j l < length l.
Proof.
  induction l as [|a l IH]; intros H; [contradiction|].
  cbn [index_of length]; destruct (Nat.eqb_spec a j); [lia|].
  destruct H as [H|H]; [contradiction|]; specialize (IH H); lia.
Qed.

Lemma nth_index_of j l : In j l -> nth (index_of j l) l 0 = j.
Proof.
  induction l as [|a l IH]; intros H; [contradiction|].
  cbn [index_of]; destruct (Nat.eqb_spec a j) as [->|Hne]; [reflexivity|].
  destruct H as [H|H]; [contradiction|]; exact (IH H).
Qed.

(** Axes that are a permutation of [0 .. n-1] have inverse axes. *)
Lemma axes_inverse axes j :
  Permutation axes (seq 0 (length axes)) ->
  j < length axes ->
  let inv := map (fun k => index_of k axes) (seq 0 (length axes)) in
  index_of j inv < length inv /\ index_of (index_of j inv) axes = j.
Proof.
  intros HP Hj inv.
  assert (Hnd : NoDup axes)
    by (eapply Permutation_NoDup; [apply Permutation_sym, HP | apply seq_NoDup]).
  assert (Hin : forall k, k < length axes -> In k axes).
  { intros k Hk; eapply Permutation_in; [apply Permutation_sym, HP|].
    apply in_seq; lia. }
  assert (Hlinv : length inv = length axes)
    by (unfold inv; rewrite length_map, length_seq; reflexivity).
  assert (Hndinv : NoDup inv).
  { unfold inv; apply NoDup_map_NoDup_ForallPairs; [|apply seq_NoDup].
    intros a b Ha Hb E; apply in_seq in Ha, Hb.
    rewrite <- (nth_index_of a axes), <- (nth_index_of b axes), E by (apply Hin; lia).
    reflexivity. }
  set (k0 := nth j axes 0).
  assert (Hk0 : k0 < length axes).
  { assert (In k0 axes) by (apply nth_In; exact Hj).
    eapply Permutation_in in H; [|exact HP]; apply in_seq in H; lia. }
  assert (E : index_of j inv = k0).
  { replace j with (nth k0 inv 0).
    - apply index_of_nth; [exact Hndinv | lia].
    - unfold inv; rewrite nth_map_seq by exact Hk0.
      apply index_of_nth; assumption. }
  rewrite E; split; [lia|].
  apply index_of_nth; assumption.
Qed.

Lemma map_add_seq k n : forall s, map (fun i => i + k) (seq s n) = seq (s + k) n.
Proof.
  induction n as [|n IH]; intros s; [reflexivity|].
  cbn [seq map]; rewrite IH; reflexivity.
Qed.

Lemma reorder_axes_perm pos :
  Permutation (reorder_axes pos) (seq 0 (length (reorder_axes pos))).
Proof.
  rewrite length_reorder_axes; unfold reorder_axes.
  replace (2 * length pos) with (length pos + length pos) by lia.
  rewrite seq_app; apply Permutation_app; [apply argsort_perm|].
  replace (seq (0 + length pos) (length pos))
    with (map (fun i => i + length pos) (seq 0 (length pos)))
    by apply map_add_seq.
  apply Permutation_map, argsort_perm.
Qed.

Section ReorderMore.

Variable A : Type.
Variable c0 : A.

(** Transposing moves the entries around: each one arrives exactly once. *)
Lemma transpose_flat_perm (flat : list A) axes :
  Permutation axes (seq 0 (length axes)) ->
  length flat = 2 ^ length axes ->
  Permutation (transpose_flat c0 flat axes) flat.
Proof.
  intros HP Hlen; unfold transpose_flat.
  set (inv := map (fun k => index_of k axes) (seq 0 (length axes))).
  assert (Hlinv : length inv = length axes)
    by (unfold inv; rewrite length_map, length_seq; reflexivity).
  assert (Hcancel : forall i, i < length flat ->
                              transpose_src inv (transpose_src axes i) = i).
  { intros i Hi; apply transpose_src_compose; [exact Hlinv | | rewrite Hlinv; lia].
    intros j Hj; rewrite Hlinv in Hj.
    pose proof (axes_inverse HP Hj) as H; cbv zeta in H; fold inv in H.
    rewrite Hlinv in *; exact H. }
  assert (Hperm : Permutation (map (transpose_src axes) (seq 0 (length flat)))
                              (seq 0 (length flat))).
  { apply Permutation_map_same_l.
    - apply NoDup_map_NoDup_ForallPairs; [|apply seq_NoDup].
      intros a b Ha Hb E; apply in_seq in Ha, Hb.
      rewrite <- (Hcancel a), <- (Hcancel b), E by lia; reflexivity.
    - intros v Hv; apply in_map_iff in Hv; destruct Hv as [i [<- _]].
      apply in_seq; rewrite Hlen; pose proof (transpose_src_lt axes i); lia. }
  rewrite <- (map_map (transpose_src axes) (fun i => nth i flat c0)).
  rewrite Hperm; rewrite map_nth_seq; reflexivity.
Qed.

Lemma reorder_matrix_same_order (m : list (list A)) pos pos' :
  length pos = length pos' -> argsort pos = argsort pos' ->
  reorder_matrix c0 m pos = reorder_matrix c0 m pos'.
Proof. intros Hl Ha; unfold reorder_matrix; rewrite Hl, Ha; reflexivity. Qed.

Lemma identity_perm_ascending k : StronglySorted Z.lt (identity_perm k).
Proof.
  unfold identity_perm; generalize 0.
  induction k as [|k IH]; intros s; cbn [seq map]; constructor; [apply IH|].
  apply Forall_forall; intros v Hv; apply in_map_iff in Hv.
  destruct Hv as [w [<- Hw]]; apply in_seq in Hw; lia.
Qed.

Lemma length_identity_perm k : length (identity_perm k) = k.
Proof. unfold identity_perm; rewrite length_map, length_seq; reflexivity. Qed.

Lemma reorder_matrix_identity (m : list (list A)) k :
  square (2 ^ k) m -> reorder_matrix c0 m (identity_perm k) = Some m.
Proof.
  intros Hsq; pose proof (length_identity_perm k) as Hl.
  rewrite reorder_matrix_square by (rewrite Hl; exact Hsq).
  rewrite Hl, transpose_flat_id.
  - destruct Hsq as [Hlm Hf]; rewrite <- Hlm at 1; rewrite chunks_concat by exact Hf.
    reflexivity.
  - rewrite length_reorder_axes, Hl.
    destruct Hsq as [Hlm Hf]; rewrite (length_concat_rows Hf), Hlm, pow2_double.
    reflexivity.
  - intros j Hj; rewrite length_reorder_axes, Hl in Hj.
    apply reorder_axes_identity; exact Hj.
Qed.

(** X1: positions given in strictly ascending order leave the matrix as it
    is, whatever the positions are: only their order matters to
    [reorder_matrix]. *)
Theorem reorder_matrix_ascending (m : list (list A)) (pos : list Z) :
  StronglySorted Z.lt pos -> square (2 ^ length pos) m ->
  reorder_matrix c0 m pos = Some m.
Proof.
  intros Hs Hsq.
  rewrite (@reorder_matrix_same_order m pos (identity_perm (length pos))).
  - apply reorder_matrix_identity; exact Hsq.
  - rewrite length_identity_perm; reflexivity.
  - rewrite (argsort_ascending Hs), (argsort_ascending (identity_perm_ascending _)).
    rewrite length_identity_perm; reflexivity.
Qed.

(** X2: whatever the positions are, a matrix that [reorder_matrix] returns
    is square of side [2 ^ qnum] and holds the entries of the input, each as
    often as the input does; the input may have any shape with
    [4 ^ qnum] entries. *)
Theorem reorder_matrix_rearranges (m m' : list (list A)) (pos : list Z) :
  reorder_matrix c0 m pos = Some m' ->
  square (2 ^ length pos) m' /\ Permutation (concat m') (concat m).
Proof.
  unfold reorder_matrix; intros H.
  destruct (Nat.eqb_spec (length (concat m)) (2 ^ (2 * length pos))) as [E|]; [|discriminate].
  inversion H; subst m'; clear H.
  fold (reorder_axes pos).
  assert (Hl : length (transpose_flat c0 (concat m) (reorder_axes pos))
               = 2 ^ length pos * 2 ^ length pos)
    by (rewrite length_transpose_flat, E; apply pow2_double).
  split.
  - destruct (chunks_rows _ _ _ Hl); split; assumption.
  - rewrite concat_chunks by exact Hl.
    apply transpose_flat_perm; [apply reorder_axes_perm|].
    rewrite length_reorder_axes; exact E.
Qed.

End ReorderMore.

Lemma reorder_matrix_ascending_witness :
  reorder_matrix 0%Z [[1; 2; 3; 4]; [5; 6; 7; 8]; [9; 10; 11; 12]; [13; 14; 15; 16]]%Z
                 [2; 5]%Z
  = Some [[1; 2; 3; 4]; [5; 6; 7; 8]; [9; 10; 11; 12]; [13; 14; 15; 16]]%Z.
Proof.
  apply reorder_matrix_ascending.
  - repeat constructor.
  - split; [reflexivity | repeat constructor].
Defined.

Lemma reorder_matrix_rearranges_witness :
  square (2 ^ 2) [[1; 3; 2; 4]; [9; 11; 10; 12]; [5; 7; 6; 8]; [13; 15; 14; 16]]%Z
  /\ Permutation
       (concat [[1; 3; 2; 4]; [9; 11; 10; 12]; [5; 7; 6; 8]; [13; 15; 14; 16]]%Z)
       (concat [[1; 2; 3; 4; 5; 6; 7; 8]; [9; 10; 11; 12; 13; 14; 15; 16]]%Z).
Proof.
  apply (@reorder_matrix_rearranges Z 0%Z
           [[1; 2; 3; 4; 5; 6; 7; 8]; [9; 10; 11; 12; 13; 14; 15; 16]]%Z
           [[1; 3; 2; 4]; [9; 11; 10; 12]; [5; 7; 6; 8]; [13; 15; 14; 16]]%Z
           [7; 3]%Z).
  reflexivity.
Defined.

(** ** [get_targ_matrix] and the controlled gate with one control *)

Lemma sorted_snoc {X} (R : X -> X -> Prop) l a :
  StronglySorted R l -> Forall (fun v => R v a) l -> StronglySorted R (l ++ [a]).
Proof.
  induction 1 as [|b l Hs IH Hb]; intros Hall; cbn [app].
  - constructor; constructor.
  - inversion Hall as [|? ? Hba Hla]; subst.
    constructor; [apply IH; exact Hla|].
    apply Forall_app; split; [exact Hb | constructor; [exact Hba | constructor]].
Qed.

Lemma descending_rev l : StronglySorted Z.lt l -> StronglySorted Z.gt (rev l).
Proof.
  induction 1 as [|a l Hs IH Ha]; cbn [rev]; [constructor|].
  apply sorted_snoc; [exact IH|].
  apply Forall_forall; intros v Hv; apply in_rev in Hv.
  rewrite Forall_forall in Ha; specialize (Ha _ Hv); lia.
Qed.

(** The positions [k-1, ..., 1, 0]. *)
Lemma reversed_perm_facts k :
  let p := rev (identity_perm k) in
  length p = k /\ is_perm p /\ StronglySorted Z.gt p
  /\ forall j, j < k -> nth j p 0%Z = Z.of_nat (k - 1 - j).
Proof.
  intros p; pose proof (length_identity_perm k) as Hl.
  assert (Hlp : length p = k) by (unfold p; rewrite length_rev; exact Hl).
  repeat split.
  - exact Hlp.
  - unfold is_perm; rewrite Hlp; unfold p.
    rewrite <- Permutation_rev; unfold identity_perm; reflexivity.
  - apply descending_rev, identity_perm_ascending.
  - intros j Hj; unfold p; rewrite rev_nth by (rewrite Hl; exact Hj).
    rewrite Hl; unfold identity_perm.
    rewrite nth_map_seq by lia; f_equal; lia.
Qed.

Lemma reversed_axes_index k j :
  j < 2 * k ->
  let ax := reorder_axes (rev (identity_perm k)) in
  index_of j ax < 2 * k /\ index_of (index_of j ax) ax = j.
Proof.
  intros Hj ax; destruct (reversed_perm_facts k) as [Hl [Hp [_ Hn]]].
  assert (F : forall i, i < 2 * k ->
                        index_of i ax = if i <? k then k - 1 - i else k + (k - 1 - (i - k))).
  { intros i Hi; unfold ax; rewrite (reorder_axes_index Hp) by (rewrite Hl; exact Hi).
    rewrite Hl; destruct (Nat.ltb_spec i k).
    - rewrite Hn by assumption; lia.
    - rewrite Hn by lia; lia. }
  rewrite (F j Hj); destruct (Nat.ltb_spec j k).
  - split; [lia|]; rewrite F by lia.
    destruct (Nat.ltb_spec (k - 1 - j) k); lia.
  - split; [lia|]; rewrite F by lia.
    destruct (Nat.ltb_spec (k + (k - 1 - (j - k))) k); lia.
Qed.

Section TargetMatrixFacts.

Variable A : Type.
Variables c0 c1 : A.

(** With [reverse_order] the function is [reorder_matrix] for the
    positions [k-1, ..., 0]. *)
Lemma get_targ_matrix_reverse (m : list (list A)) pos :
  get_targ_matrix c0 m pos true
  = if 1 <? length pos then reorder_matrix c0 m (rev (identity_perm (length pos)))
    else Some m.
Proof.
  destruct (reversed_perm_facts (length pos)) as [Hl [_ [Hs _]]].
  unfold get_targ_matrix, reorder_matrix; cbn [andb].
  destruct (1 <? length pos); [|reflexivity].
  rewrite (argsort_descending Hs), Hl; reflexivity.
Qed.

Lemma reorder_matrix_reversed_twice (m : list (list A)) k :
  square (2 ^ k) m ->
  exists m1, reorder_matrix c0 m (rev (identity_perm k)) = Some m1
             /\ square (2 ^ k) m1
             /\ reorder_matrix c0 m1 (rev (identity_perm k)) = Some m.
Proof.
  intros Hsq; destruct (reversed_perm_facts k) as [Hl _].
  set (p := rev (identity_perm k)) in *.
  assert (Hflat : length (concat m) = 2 ^ (2 * k)).
  { destruct Hsq as [Hlm Hf]; rewrite (length_concat_rows Hf), Hlm, pow2_double; reflexivity. }
  set (flat1 := transpose_flat c0 (concat m) (reorder_axes p)).
  assert (Hl1 : length flat1 = 2 ^ k * 2 ^ k).
  { unfold flat1; rewrite length_transpose_flat, Hflat; apply pow2_double. }
  assert (Hsq1 : square (2 ^ k) (chunks (2 ^ k) (2 ^ k) flat1)).
  { destruct (chunks_rows _ _ _ Hl1); split; assumption. }
  exists (chunks (2 ^ k) (2 ^ k) flat1); split; [|split; [exact Hsq1|]].
  - rewrite reorder_matrix_square by (rewrite Hl; exact Hsq); rewrite Hl; reflexivity.
  - rewrite reorder_matrix_square by (rewrite Hl; exact Hsq1); rewrite Hl.
    rewrite concat_chunks by exact Hl1.
    unfold flat1; rewrite transpose_flat_compose.
    + destruct Hsq as [Hlm Hf]; rewrite <- Hlm at 1; rewrite chunks_concat by exact Hf.
      reflexivity.
    + rewrite length_reorder_axes, Hl; exact Hflat.
    + reflexivity.
    + intros j Hj; rewrite length_reorder_axes, Hl in *.
      apply reversed_axes_index; exact Hj.
Qed.

(** X3: on a square matrix of side [2 ^ len(pos)], [get_targ_matrix]
    without [reverse_order] returns the matrix, and with [reverse_order]
    it is an involution: reversing the qubit order twice gives the matrix
    back. *)
Theorem get_targ_matrix_reverse_twice (m : list (list A)) (pos : list Z) :
  square (2 ^ length pos) m ->
  get_targ_matrix c0 m pos false = Some m
  /\ exists m1, get_targ_matrix c0 m pos true = Some m1
                /\ get_targ_matrix c0 m1 pos true = Some m.
Proof.
  intros Hsq; split; [reflexivity|].
  rewrite get_targ_matrix_reverse.
  destruct (1 <? length pos) eqn:E.
  - destruct (@reorder_matrix_reversed_twice m _ Hsq) as [m1 [H1 [_ H2]]].
    exists m1; split; [exact H1|].
    rewrite get_targ_matrix_reverse, E; exact H2.
  - exists m; split; [reflexivity|].
    rewrite get_targ_matrix_reverse, E; reflexivity.
Qed.

(** X4: reversing the qubit order is what [reorder_matrix] does for
    positions given in strictly descending order. *)
Theorem get_targ_matrix_reverse_reorder (m : list (list A)) (pos pos' : list Z) :
  square (2 ^ length pos) m ->
  length pos' = length pos -> StronglySorted Z.gt pos' ->
  get_targ_matrix c0 m pos true = reorder_matrix c0 m pos'.
Proof.
  intros Hsq Hl Hs; rewrite get_targ_matrix_reverse.
  destruct (reversed_perm_facts (length pos)) as [Hlr [_ [Hsr _]]].
  destruct (Nat.ltb_spec 1 (length pos)) as [H1|H1].
  - apply reorder_matrix_same_order; [congruence|].
    rewrite (argsort_descending Hs), (argsort_descending Hsr); congruence.
  - symmetry; rewrite (@reorder_matrix_same_order _ c0 m pos' (identity_perm (length pos))).
    + apply reorder_matrix_identity; exact Hsq.
    + rewrite length_identity_perm; exact Hl.
    + destruct pos' as [|a [|b pos']]; cbn [length] in Hl; rewrite <- Hl;
        [reflexivity | reflexivity | lia].
Qed.

(** X5: [ControlledGate.__init__] gets through, for a target matrix of
    side [2 ^ t], exactly when there is one control and one target. *)
Theorem controlled_matrix_defined_iff (ctrls targs : list Z) (u : list (list A)) :
  square (2 ^ length targs) u ->
  (controlled_matrix c0 c1 ctrls targs u <> None
   <-> length ctrls = 1 /\ length targs = 1).
Proof.
  intros [Hlu Hfu]; split.
  - destruct (controlled_matrix c0 c1 ctrls targs u) as [m|] eqn:E; [|congruence].
    intros _; eapply controlled_matrix_defined; exact E.
  - intros [Hc Ht].
    destruct ctrls as [|a [|? ?]]; try discriminate.
    destruct targs as [|b [|? ?]]; try discriminate.
    cbn in Hlu, Hfu.
    destruct u as [|r0 [|r1 [|? ?]]]; try discriminate.
    inversion Hfu as [|? ? Hr0 Hfu']; inversion Hfu' as [|? ? Hr1 _]; subst.
    destruct r0 as [|u00 [|u01 [|? ?]]]; discriminate.
Qed.

(** X6: the matrix of a gate with one control [a] and one target [b]: with
    the control below the target the identity on the block where the
    control is 0 and [u] where it is 1; with the control above the target
    the same with the two qubits exchanged. *)
Theorem controlled_matrix_single (a b : Z) (u00 u01 u10 u11 : A) :
  a <> b ->
  controlled_matrix c0 c1 [a] [b] [[u00; u01]; [u10; u11]]
  = Some (if (a <? b)%Z
          then [[c1; c0; c0; c0]; [c0; c1; c0; c0]; [c0; c0; u00; u01]; [c0; c0; u10; u11]]
          else [[c1; c0; c0; c0]; [c0; u00; c0; u01]; [c0; c0; c1; c0]; [c0; u10; c0; u11]]).
Proof.
  intros Hab; unfold controlled_matrix, reorder_matrix, argsort; simpl combine.
  simpl sort_keys; simpl fst.
  destruct (Z.leb_spec a b), (Z.ltb_spec a b); try lia; reflexivity.
Qed.

End TargetMatrixFacts.

Lemma get_targ_matrix_reverse_twice_witness :
  get_targ_matrix 0%Z [[1; 2; 3; 4]; [5; 6; 7; 8]; [9; 10; 11; 12]; [13; 14; 15; 16]]%Z
                  [4; 9]%Z false
  = Some [[1; 2; 3; 4]; [5; 6; 7; 8]; [9; 10; 11; 12]; [13; 14; 15; 16]]%Z
  /\ exists m1,
       get_targ_matrix 0%Z [[1; 2; 3; 4]; [5; 6; 7; 8]; [9; 10; 11; 12]; [13; 14; 15; 16]]%Z
                       [4; 9]%Z true = Some m1
       /\ get_targ_matrix 0%Z m1 [4; 9]%Z true
          = Some [[1; 2; 3; 4]; [5; 6; 7; 8]; [9; 10; 11; 12]; [13; 14; 15; 16]]%Z.
Proof.
  apply get_targ_matrix_reverse_twice.
  split; [reflexivity | repeat constructor].
Defined.

Lemma get_targ_matrix_reverse_reorder_witness :
  get_targ_matrix 0%Z [[1; 2; 3; 4]; [5; 6; 7; 8]; [9; 10; 11; 12]; [13; 14; 15; 16]]%Z
                  [4; 9]%Z true
  = reorder_matrix 0%Z [[1; 2; 3; 4]; [5; 6; 7; 8]; [9; 10; 11; 12]; [13; 14; 15; 16]]%Z
                   [7; 2]%Z.
Proof.
  apply get_targ_matrix_reverse_reorder.
  - split; [reflexivity | repeat constructor].
  - reflexivity.
  - repeat constructor.
Defined.

Lemma controlled_matrix_defined_iff_witness :
  controlled_matrix 0%Z 1%Z [0%Z] [1%Z] [[0; 1]; [1; 0]]%Z <> None
  <-> length [0%Z] = 1 /\ length [1%Z] = 1.
Proof.
  apply controlled_matrix_defined_iff.
  split; [reflexivity | repeat constructor].
Defined.

Lemma controlled_matrix_single_witness :
  controlled_matrix 0%Z 1%Z [3%Z] [1%Z] [[5; 6]; [7; 8]]%Z
  = Some [[1; 0; 0; 0]; [0; 5; 0; 6]; [0; 0; 1; 0]; [0; 7; 0; 8]]%Z.
Proof.
  apply (@controlled_matrix_single Z 0%Z 1%Z 3 1 5 6 7 8)%Z.
  discriminate.
Defined.

(** ** [to_qasm] and [measure] *)

(** X7: for a gate of the builder that is a [QuantumGate], [to_qasm] gives
    the statement that [to_openqasm] writes for the gate, without the
    closing [;] and the line end, exactly when the gate is not a rotation by
    an angle equal to zero: a zero angle is a false [paras] for [to_qasm],
    which then leaves the parameter list out. *)
Theorem to_qasm_matches_export
        (float_str : float -> text) (g : gate) (qg : QuantumGate.t) :
  as_quantum_gate g = Some qg ->
  (gate_qasm float_str g = QuantumGate.to_qasm float_str qg ++ lit ";" ++ [nl]
   <-> forall cls p a, g = ParaSingleQubitGate cls p a -> PrimFloat.eqb a 0%float = false).
Proof.
  intros Hq; destruct g as [cls p|cls p a|cls p0 p1|ps]; inversion Hq; subst qg; clear Hq;
    unfold QuantumGate.to_qasm, gate_qasm, qubit_ref;
    cbn [QuantumGate.paras QuantumGate.pos QuantumGate.name QuantumGate.truthy map join].
  - split; [intros _ ? ? ? E; discriminate E|].
    intros _; repeat rewrite <- app_assoc; reflexivity.
  - split.
    + intros E cls' p' a' Eg; inversion Eg; subst cls' p' a'.
      destruct (PrimFloat.eqb a 0%float); [|reflexivity]; exfalso.
      cbn [negb] in E; repeat rewrite <- app_assoc in E.
      apply app_inv_head in E; discriminate E.
    + intros Ha; rewrite (Ha cls p a eq_refl); cbn [negb].
      repeat rewrite <- app_assoc; reflexivity.
  - split; [intros _ ? ? ? E; discriminate E|].
    intros _; repeat rewrite <- app_assoc; reflexivity.
Qed.

Lemma to_qasm_matches_export_witness :
  gate_qasm (fun _ => lit "0.0") (ParaSingleQubitGate RZGate 1 0%float)
  = QuantumGate.to_qasm (fun _ => lit "0.0")
      (QuantumGate.new (lit "RZ") (QuantumGate.Int 1) (QuantumGate.Float 0%float))
    ++ lit ";" ++ [nl]
  <-> forall cls p a,
      ParaSingleQubitGate RZGate 1 0%float = ParaSingleQubitGate cls p a ->
      PrimFloat.eqb a 0%float = false.
Proof.
  apply (@to_qasm_matches_export (fun _ => lit "0.0") (ParaSingleQubitGate RZGate 1 0%float)).
  reflexivity.
Defined.

(** X8: [measure] returns when no classical bits are given or as many as
    there are distinct qubits in [pos]; the qubit count, the gates and the
    stored text stay, [shots] and [tomo] are taken over, and the
    measurement map pairs [pos] with the classical bits -- with
    [0 .. len(pos)-1] when none are given -- which for distinct qubits is the
    list of these pairs in the order of [pos]. *)
Theorem measure_returns
        (c : QuantumCircuit) (pos : list Z) (sh : Z) (cbits : list Z) (tm : bool) :
  cbits = [] \/ length cbits = length (nodup Z.eq_dec pos) ->
  let bits := match cbits with
              | [] => zrange 0 (Z.of_nat (length pos))
              | _ :: _ => cbits
              end in
  measure c pos sh cbits tm
  = (mkCircuit (num c) sh tm (gates c) (openqasm c) (dict_zip pos bits), Returned)
  /\ (NoDup pos -> dict_zip pos bits = combine pos bits).
Proof.
  intros H bits; split; [|intros Hnd; apply dict_zip_distinct; exact Hnd].
  unfold measure, bits; destruct cbits as [|b cbits]; [reflexivity|].
  destruct H as [H|H]; [discriminate|].
  cbn [measures]; rewrite length_dict_zip_range, H, Nat.eqb_refl; reflexivity.
Qed.

Lemma measure_returns_witness :
  measure (new_circuit 3) [2; 2; 0]%Z 10 [7; 5]%Z false
  = (mkCircuit 3 10 false [] [] (dict_zip [2; 2; 0]%Z [7; 5]%Z), Returned)
  /\ (NoDup [2; 2; 0]%Z -> dict_zip [2; 2; 0]%Z [7; 5]%Z = combine [2; 2; 0]%Z [7; 5]%Z).
Proof.
  apply (@measure_returns (new_circuit 3) [2; 2; 0]%Z 10 [7; 5]%Z false).
  right; reflexivity.
Defined.

(** ** Import: what a statement can do *)

Section ImportMore.

Variable py_eval : text -> option float.

Lemma split_space_no_space line : free_of " " line -> split_space line = (line, None).
Proof.
  unfold free_of; induction line as [|ch line IH]; intros H; [reflexivity|].
  cbn [forallb] in H; apply andb_prop in H; destruct H as [Hc Hl].
  cbn [split_space]; destruct (Ascii.eqb ch " "); [discriminate|].
  rewrite (IH Hl); reflexivity.
Qed.

Lemma import_line_no_space st line :
  line <> [] -> free_of " " line -> line <> lit "creg" ->
  import_line py_eval st line = None.
Proof.
  intros Hne Hsp Hcreg; unfold import_line.
  destruct line as [|ch line]; [congruence|].
  rewrite (split_space_no_space Hsp).
  rewrite (text_eqb_neq Hcreg).
  destruct (text_eqb _ (lit "qreg")); [reflexivity|].
  destruct (text_eqb _ (lit "measure")); reflexivity.
Qed.

Lemma import_lines_failing st pre line post :
  (forall s, import_line py_eval s line = None) ->
  import_lines py_eval st (pre ++ line :: post) = None.
Proof.
  intros H; unfold import_lines; rewrite foldM_app.
  destruct (foldM _ pre st) as [s|]; [|reflexivity].
  cbn [bind foldM]; rewrite H; reflexivity.
Qed.

(** X9: a line after the second that is not empty, has no space and is not
    the word [creg] makes the import raise (the IndexError of
    [operations_qbs[1]]), wherever it stands. *)
Theorem import_line_without_space
        (c : QuantumCircuit) (src : text) (pre post : list text) (line : text) :
  skipn 2 (splitlines src) = pre ++ line :: post ->
  line <> [] -> free_of " " line -> line <> lit "creg" ->
  from_openqasm py_eval c src = None.
Proof.
  intros Hsrc Hne Hsp Hcreg; unfold from_openqasm; rewrite Hsrc.
  rewrite import_lines_failing; [reflexivity|].
  intros s; apply import_line_no_space; assumption.
Qed.

Lemma not_in_mnemonics ops :
  ~ In ops mnemonics ->
  text_eqb ops (lit "barrier") = false
  /\ forall inds paras c, apply_gate ops inds paras c = Some c.
Proof.
  intros H; unfold mnemonics in H; cbn [In] in H.
  assert (N : forall t, In t mnemonics -> text_eqb ops t = false).
  { intros t Ht; apply text_eqb_neq; intros ->; apply H; exact Ht. }
  split; [apply N; left; reflexivity|].
  intros inds paras c; unfold apply_gate.
  rewrite !N by (unfold mnemonics; cbn [In]; tauto).
  reflexivity.
Qed.

Lemma split_on_free ch t : free_of ch t -> split_on ch t = [t].
Proof.
  intros H; rewrite <- (app_nil_r t) at 1; rewrite (split_on_app _ H); cbn [split_on].
  rewrite app_nil_r; reflexivity.
Qed.

Lemma import_state_eta st :
  mkImport (im_circ st) (im_measured st) (im_valid st) (im_paras st) = st.
Proof. destruct st; reflexivity. Qed.

Lemma import_unknown_line st line ops qbs :
  gate_statement line ops qbs -> free_of "(" ops -> ~ In ops mnemonics ->
  import_line py_eval st line = Some st \/ import_line py_eval st line = Some (invalidate st).
Proof.
  intros Hg Hp Hn; rewrite (import_line_gate_statement py_eval st Hg).
  destruct (not_in_mnemonics Hn) as [Hb Ha].
  unfold import_gate; destruct (existsb _ _); [right; reflexivity|].
  rewrite Hb, (split_on_free Hp); cbn [bind]; rewrite Ha; cbn [bind].
  left; rewrite import_state_eta; reflexivity.
Qed.

Lemma import_lines_skip st pre line post :
  (forall s, import_line py_eval s line = Some s
             \/ import_line py_eval s line = Some (invalidate s)) ->
  exists f, (f = (fun s => s) \/ f = invalidate)
            /\ import_lines py_eval st (pre ++ line :: post)
               = option_map f (import_lines py_eval st (pre ++ post)).
Proof.
  intros H; unfold import_lines; rewrite !foldM_app.
  destruct (foldM _ pre st) as [s1|]; cbn [bind foldM].
  - destruct (H s1) as [E|E]; rewrite E; cbn [bind].
    + exists (fun s => s); split; [left; reflexivity|].
      destruct (foldM _ post s1); reflexivity.
    + exists invalidate; split; [right; reflexivity|].
      apply (@import_lines_commute py_eval invalidate post
               (fun st line => import_line_invalidate py_eval st line)).
  - exists (fun s => s); split; [left; reflexivity | reflexivity].
Qed.

(** X10: a statement whose first word has no parenthesis and is none of
    the names the importer dispatches on is passed over: the import of the
    text gives the gates, the measurement map and the qubit count that the
    text without the statement gives, and fails only if that one does. *)
Theorem import_ignores_unknown_gate
        (c : QuantumCircuit) (src src' : text) (pre post : list text)
        (line ops qbs : text) :
  skipn 2 (splitlines src) = pre ++ line :: post ->
  skipn 2 (splitlines src') = pre ++ post ->
  gate_statement line ops qbs ->
  free_of "(" ops -> ~ In ops mnemonics ->
  option_map fst (imported py_eval c src) = option_map fst (imported py_eval c src').
Proof.
  intros Hsrc Hsrc' Hg Hp Hn; unfold imported, from_openqasm.
  rewrite Hsrc, Hsrc'.
  change (mkImport (set_measures (set_gates (set_openqasm c src) []) []) [] true None)
    with (with_source src
            (mkImport (set_measures (set_gates (set_openqasm c src') []) []) [] true None)).
  rewrite (@import_lines_commute py_eval (with_source src) _
             (fun st line => import_line_source py_eval st line src)).
  destruct (@import_lines_skip
              (mkImport (set_measures (set_gates (set_openqasm c src') []) []) [] true None)
              pre line post) as [f [Hf E]].
  { intros s; eapply import_unknown_line; eassumption. }
  rewrite E.
  destruct (import_lines py_eval _ (pre ++ post)) as [s|]; [|reflexivity].
  destruct Hf; subst f;
    cbn [option_map bind invalidate with_source with_circ im_circ im_valid fst snd];
    unfold set_openqasm; cbn [measures];
    destruct (measures (im_circ s)) eqn:Em; cbn [gates measures num]; rewrite ?Em; reflexivity.
Qed.

(** The gates that one statement appends act on operands of the
    statement. *)
Lemma rotation_gates cls c p a :
  gates (rotation cls c p a)
  = gates c ++ (if negb (PrimFloat.eqb a 0%float) then [ParaSingleQubitGate cls p a] else []).
Proof.
  unfold rotation; destruct (negb _); [reflexivity | rewrite app_nil_r; reflexivity].
Qed.

Lemma acts_within_app inds l1 l2 :
  acts_within inds l1 -> acts_within inds l2 -> acts_within inds (l1 ++ l2).
Proof.
  intros H1 H2 g q Hg; apply in_app_or in Hg; destruct Hg; [apply H1 | apply H2]; assumption.
Qed.

Lemma acts_within_rotation inds cls p a :
  In p inds ->
  acts_within inds (if negb (PrimFloat.eqb a 0%float) then [ParaSingleQubitGate cls p a] else []).
Proof.
  intros Hp g q Hg Hq; destruct (negb _); [|contradiction].
  destruct Hg as [<-|[]]; destruct Hq as [<-|[]]; exact Hp.
Qed.

Lemma apply_gate_added gatename inds paras c c' :
  apply_gate gatename inds paras c = Some c' ->
  exists added, gates c' = gates c ++ added /\ acts_within inds added.
Proof.
  unfold apply_gate, rx, ry, rz.
  repeat match goal with
         | |- context [if text_eqb ?a ?b then _ else _] => destruct (text_eqb a b)
         end;
    repeat match goal with
           | |- context [nth_error inds ?i] =>
               let E := fresh "E" in
               destruct (nth_error inds i) eqn:E; cbn [bind];
               [apply nth_error_In in E | discriminate]
           | |- context [bind ?v _] => destruct v; cbn [bind]; [|discriminate]
           end;
    intros H; inversion H; subst c'; clear H;
    rewrite ?rotation_gates; repeat rewrite <- app_assoc;
    try (eexists; split; [reflexivity|];
         repeat (apply acts_within_app; [apply acts_within_rotation; assumption|]);
         try (apply acts_within_rotation; assumption)).
  all: try (exists []; split; [rewrite app_nil_r; reflexivity | intros ? ? []]).
  all: intros g q [<-|[]] Hq; cbn [gate_pos In] in Hq;
    repeat (destruct Hq as [<-|Hq]; [assumption|]); contradiction.
Qed.

Lemma not_measured_operands (measured inds : list Z) :
  existsb (fun pos => existsb (Z.eqb pos) measured) inds = false ->
  forall q, In q inds -> ~ In q measured.
Proof.
  intros H q Hq Hm.
  assert (E : existsb (fun pos => existsb (Z.eqb pos) measured) inds = true).
  { apply existsb_exists; exists q; split; [exact Hq | apply existsb_Zeqb_In; exact Hm]. }
  congruence.
Qed.

Lemma import_gate_added ops qbs st st' :
  import_gate py_eval ops qbs st = Some st' ->
  im_measured st' = im_measured st
  /\ exists added,
       gates (im_circ st') = gates (im_circ st) ++ added
       /\ forall g q, In g added -> In q (gate_pos g) -> ~ In q (im_measured st).
Proof.
  unfold import_gate.
  destruct (existsb _ (operands qbs)) eqn:Ex.
  { intros H; inversion H; subst st'; cbn; split; [reflexivity|].
    exists []; split; [rewrite app_nil_r; reflexivity | intros ? ? []]. }
  pose proof (not_measured_operands _ _ Ex) as Hfree.
  destruct (text_eqb ops (lit "barrier")).
  { intros H; inversion H; subst st'; cbn; split; [reflexivity|].
    eexists; split; [reflexivity|].
    intros g q [<-|[]] Hq; apply Hfree; exact Hq. }
  destruct (split_on "(" ops) as [|gatename sp]; [discriminate|].
  assert (Hap : forall paras c',
             apply_gate gatename (operands qbs) paras (im_circ st) = Some c' ->
             exists added, gates c' = gates (im_circ st) ++ added
                           /\ forall g q, In g added -> In q (gate_pos g)
                                          -> ~ In q (im_measured st)).
  { intros paras c' Ha; destruct (apply_gate_added _ _ _ _ Ha) as [added [Hg Hw]].
    exists added; split; [exact Hg|].
    intros g q Hin Hq; apply Hfree; eapply Hw; eassumption. }
  destruct sp as [|p sp]; cbn [bind].
  - destruct (apply_gate _ _ _ _) as [c'|] eqn:Ea; cbn [bind]; [|discriminate].
    intros H; inversion H; subst st'; cbn; split; [reflexivity|].
    eapply Hap; exact Ea.
  - destruct (mapM _ _); cbn [bind]; [|discriminate].
    destruct (apply_gate _ _ _ _) as [c'|] eqn:Ea; cbn [bind]; [|discriminate].
    intros H; inversion H; subst st'; cbn; split; [reflexivity|].
    eapply Hap; exact Ea.
Qed.

(** One line either appends gates, none of them on a measured qubit, or
    leaves the gates alone. *)
Lemma import_line_added st line st' :
  import_line py_eval st line = Some st' ->
  exists added,
    gates (im_circ st') = gates (im_circ st) ++ added
    /\ forall g q, In g added -> In q (gate_pos g) -> ~ In q (im_measured st).
Proof.
  assert (Hsame : forall s : import_state, gates (im_circ s) = gates (im_circ st) ->
             exists added,
               gates (im_circ s) = gates (im_circ st) ++ added
               /\ forall g q, In g added -> In q (gate_pos g) -> ~ In q (im_measured st)).
  { intros s E; exists []; split; [rewrite app_nil_r; exact E | intros ? ? []]. }
  unfold import_line; destruct line as [|ch line].
  { intros H; inversion H; subst; apply Hsame; reflexivity. }
  destruct (split_space (ch :: line)) as [ops rest].
  destruct (text_eqb ops (lit "qreg")).
  { destruct rest; cbn [bind]; [|discriminate].
    destruct (nth_error _ 0); cbn [bind]; [|discriminate].
    intros H; inversion H; subst; apply Hsame; reflexivity. }
  destruct (text_eqb ops (lit "creg")).
  { intros H; inversion H; subst; apply Hsame; reflexivity. }
  destruct (text_eqb ops (lit "measure")).
  { destruct rest as [qbs|]; cbn [bind]; [|discriminate].
    destruct (nth_error (operands qbs) 0); cbn [bind]; [|discriminate].
    destruct (nth_error (operands qbs) 1); cbn [bind]; [|discriminate].
    intros H; inversion H; subst; apply Hsame; reflexivity. }
  destruct rest as [qbs|]; cbn [bind]; [|discriminate].
  intros H; apply import_gate_added in H; destruct H as [_ H]; exact H.
Qed.

Lemma import_lines_added ls : forall st st',
  import_lines py_eval st ls = Some st' ->
  exists added,
    gates (im_circ st') = gates (im_circ st) ++ added
    /\ forall g q, In g added -> In q (gate_pos g) -> ~ In q (im_measured st).
Proof.
  unfold import_lines; induction ls as [|l ls IH]; intros st st' H; cbn [foldM] in H.
  - inversion H; subst; exists []; split; [rewrite app_nil_r; reflexivity | intros ? ? []].
  - destruct (import_line py_eval st l) as [st1|] eqn:E; cbn [bind] in H; [|discriminate].
    destruct (import_line_added _ _ E) as [a1 [G1 F1]].
    destruct (IH _ _ H) as [a2 [G2 F2]].
    exists (a1 ++ a2); split; [rewrite G2, G1, app_assoc; reflexivity|].
    intros g q Hg Hq Hm; apply in_app_or in Hg; destruct Hg as [Hg|Hg].
    + exact (F1 g q Hg Hq Hm).
    + apply (F2 g q Hg Hq); eapply import_line_measured; eassumption.
Qed.

Lemma import_measure_statement_gates st line q cb st' :
  measure_statement line q cb ->
  import_line py_eval st line = Some st' ->
  gates (im_circ st') = gates (im_circ st).
Proof.
  intros [qbs [rest [Hs Ho]]]; unfold import_line.
  destruct line as [|ch line]; [discriminate|].
  rewrite Hs; cbv iota beta.
  rewrite !text_eqb_neq by (cbv; discriminate).
  replace (text_eqb (lit "measure") (lit "measure")) with true
    by (symmetry; apply text_eqb_eq; reflexivity).
  cbn [bind]; rewrite Ho; cbn [nth_error bind].
  intros H; inversion H; reflexivity.
Qed.

(** X11: the gates that an import appends after it has read a [measure]
    statement for qubit [q] do not act on [q]: the imported gate list is
    the list as it stood before that statement, followed by gates away from
    [q]. *)
Theorem import_no_gate_after_measure
        (c c' : QuantumCircuit) (valid : bool) (src : text)
        (pre post : list text) (mline : text) (q cb : Z) :
  from_openqasm py_eval c src = Some (c', valid) ->
  skipn 2 (splitlines src) = pre ++ mline :: post ->
  measure_statement mline q cb ->
  exists st1 after,
    import_lines py_eval
      (mkImport (set_measures (set_gates (set_openqasm c src) []) []) [] true None) pre
    = Some st1
    /\ gates c' = gates (im_circ st1) ++ after
    /\ forall g, In g after -> ~ In q (gate_pos g).
Proof.
  unfold from_openqasm; intros H Hsrc Hm; rewrite Hsrc in H.
  set (st0 := mkImport _ _ _ _) in *.
  destruct (import_lines py_eval st0 (pre ++ mline :: post)) as [st|] eqn:E;
    cbn [bind] in H; [|discriminate].
  assert (Hg : gates c' = gates (im_circ st)).
  { inversion H; destruct (measures (im_circ st)); reflexivity. }
  unfold import_lines in E; rewrite foldM_app in E.
  destruct (foldM _ pre st0) as [st1|] eqn:E1; cbn [bind foldM] in E; [|discriminate].
  destruct (import_measure_statement py_eval st1 Hm) as [st2 [E2 Hq]].
  rewrite E2 in E; cbn [bind] in E.
  pose proof (import_measure_statement_gates _ Hm E2) as G1.
  destruct (import_lines_added _ _ E) as [a2 [G2 F2]].
  exists st1, a2; split; [exact E1|]; split.
  - rewrite Hg, G2, G1; reflexivity.
  - intros g Hin Hpos; exact (F2 g q Hin Hpos Hq).
Qed.

End ImportMore.

Lemma import_line_without_space_witness :
  from_openqasm (fun _ => None) (new_circuit 1)
    (lit "OPENQASM 2.0;" ++ [nl] ++ lit "include qelib1.inc;" ++ [nl]
         ++ lit "gate g a {" ++ [nl] ++ lit "}" ++ [nl] ++ lit "h q[0];" ++ [nl])
  = None.
Proof.
  apply (@import_line_without_space (fun _ => None) (new_circuit 1) _
           [lit "gate g a {"] [lit "h q[0];"] (lit "}")).
  - reflexivity.
  - discriminate.
  - reflexivity.
  - discriminate.
Defined.

Lemma import_ignores_unknown_gate_witness :
  option_map fst
    (imported (fun _ => None) (new_circuit 0)
       (lit "OPENQASM 2.0;" ++ [nl] ++ lit "include qelib1.inc;" ++ [nl]
            ++ lit "qreg q[2];" ++ [nl] ++ lit "t q[1];" ++ [nl] ++ lit "h q[0];" ++ [nl]))
  = option_map fst
      (imported (fun _ => None) (new_circuit 0)
         (lit "OPENQASM 2.0;" ++ [nl] ++ lit "include qelib1.inc;" ++ [nl]
              ++ lit "qreg q[2];" ++ [nl] ++ lit "h q[0];" ++ [nl])).
Proof.
  apply (@import_ignores_unknown_gate (fun _ => None) (new_circuit 0) _ _
           [lit "qreg q[2];"] [lit "h q[0];"] (lit "t q[1];") (lit "t") (lit "q[1];")).
  - reflexivity.
  - reflexivity.
  - repeat split; cbv; discriminate.
  - reflexivity.
  - unfold mnemonics; cbn [In]; intros H.
    repeat (destruct H as [H|H]; [discriminate H|]); exact H.
Defined.

Lemma import_no_gate_after_measure_witness :
  exists st1 after,
    import_lines (fun _ => None)
      (mkImport
         (set_measures
            (set_gates
               (set_openqasm (new_circuit 0)
                  (lit "OPENQASM 2.0;" ++ [nl] ++ lit "include qelib1.inc;" ++ [nl]
                       ++ lit "qreg q[2];" ++ [nl] ++ lit "x q[1];" ++ [nl]
                       ++ lit "measure q[0] -> meas[0];" ++ [nl] ++ lit "h q[0];" ++ [nl]
                       ++ lit "h q[1];" ++ [nl])) []) []) [] true None)
      [lit "qreg q[2];"; lit "x q[1];"]
    = Some st1
    /\ [FixedSingleQubitGate XGate 1; FixedSingleQubitGate HGate 1]
       = gates (im_circ st1) ++ after
    /\ forall g, In g after -> ~ In 0%Z (gate_pos g).
Proof.
  apply (@import_no_gate_after_measure (fun _ => None) (new_circuit 0)
           (mkCircuit 2 1000 false
                      [FixedSingleQubitGate XGate 1; FixedSingleQubitGate HGate 1]
                      (lit "OPENQASM 2.0;" ++ [nl] ++ lit "include qelib1.inc;" ++ [nl]
                           ++ lit "qreg q[2];" ++ [nl] ++ lit "x q[1];" ++ [nl]
                           ++ lit "measure q[0] -> meas[0];" ++ [nl] ++ lit "h q[0];" ++ [nl]
                           ++ lit "h q[1];" ++ [nl])
                      [(0, 0)]%Z)
           false _ [lit "qreg q[2];"; lit "x q[1];"] [lit "h q[0];"; lit "h q[1];"]
           (lit "measure q[0] -> meas[0];") 0%Z 0%Z).
  - reflexivity.
  - reflexivity.
  - exists (lit "q[0] -> meas[0];"), []; split; reflexivity.
Defined.

(** ** Export followed by import, in full *)

Lemma combine_fst_snd {X Y} (l : list (X * Y)) : combine (map fst l) (map snd l) = l.
Proof. induction l as [|[a b] l IH]; [reflexivity | cbn; rewrite IH; reflexivity]. Qed.

Lemma dict_fold_distinct (m : dict) :
  NoDup (dict_keys m) ->
  fold_left (fun d kv => dict_set (fst kv) (snd kv) d) m [] = m.
Proof.
  intros H; rewrite <- (combine_fst_snd m) at 1.
  rewrite dict_fold_fresh by exact H.
  apply combine_fst_snd.
Qed.

Lemma fold_dict_set_abs (m : dict) : forall d,
  Forall (fun kv => (0 <= fst kv)%Z /\ (0 <= snd kv)%Z) m ->
  fold_left (fun d kv => dict_set (Z.abs (fst kv)) (Z.abs (snd kv)) d) m d
  = fold_left (fun d kv => dict_set (fst kv) (snd kv) d) m d.
Proof.
  induction m as [|kv m IH]; intros d H; [reflexivity|].
  apply Forall_cons_iff in H; destruct H as [[Hk Hv] Hm].
  cbn [fold_left]; rewrite !Z.abs_eq by assumption; apply IH; exact Hm.
Qed.

Section RoundTripExact.

Variable float_str : float -> text.
Variable py_eval : text -> option float.

Lemma import_exported_gate_exact st g :
  exportable float_str py_eval g ->
  (forall cls p a, g = ParaSingleQubitGate cls p a -> py_eval (float_str a) = Some a) ->
  im_measured st = [] ->
  exists ps,
    import_line py_eval st (gate_line float_str g)
    = Some (mkImport (append_gate (im_circ st) g) [] (im_valid st) ps).
Proof.
  intros Hg Hev Hm.
  rewrite (import_line_gate_statement py_eval st (gate_line_statement Hg)).
  destruct Hg as [Hpos Hpara]; unfold import_gate.
  rewrite (operands_gate_qbs _ Hpos), Hm, not_measured.
  destruct g as [cls p|cls p a|cls p0 p1|ps]; cbn [gate_ops gate_name gate_pos].
  - exists (im_paras st).
    rewrite text_eqb_neq by (destruct cls; cbv; discriminate).
    replace (split_on "(" (lower (single_gate_name cls)))
      with [lower (single_gate_name cls)] by (destruct cls; reflexivity).
    cbn [bind]; rewrite apply_gate_single; reflexivity.
  - destruct Hpara as [Hok [b [Hb Hnz]]].
    rewrite (Hev cls p a eq_refl) in Hb; inversion Hb; subst b.
    exists (Some [a]).
    rewrite text_eqb_neq by (destruct cls; cbn; discriminate).
    rewrite (@split_on_rotation cls _ Hok), (@strip_parens_closing _ Hok),
      (@split_on_comma _ Hok).
    cbn [mapM bind]; rewrite (Hev cls p a eq_refl); cbn [bind].
    rewrite apply_gate_rotation; cbn [nth_error bind].
    unfold rotation; rewrite Hnz; reflexivity.
  - exists (im_paras st).
    rewrite text_eqb_neq by (destruct cls; cbv; discriminate).
    replace (split_on "(" (lower (two_gate_name cls)))
      with [lower (two_gate_name cls)] by (destruct cls; reflexivity).
    cbn [bind]; rewrite apply_gate_two; reflexivity.
  - exists (im_paras st).
    replace (text_eqb (lower (lit "barrier")) (lit "barrier")) with true by reflexivity.
    unfold with_circ, barrier; rewrite Hm; reflexivity.
Qed.

Lemma import_exported_gates_exact gs : forall st,
  Forall (exportable float_str py_eval) gs ->
  (forall cls p a, In (ParaSingleQubitGate cls p a) gs -> py_eval (float_str a) = Some a) ->
  im_measured st = [] ->
  exists ps,
    import_lines py_eval st (map (gate_line float_str) gs)
    = Some (mkImport (set_gates (im_circ st) (gates (im_circ st) ++ gs)) []
                     (im_valid st) ps).
Proof.
  unfold import_lines; induction gs as [|g gs IH]; intros st Hall Hev Hm.
  - exists (im_paras st); cbn [map foldM]; rewrite app_nil_r.
    destruct st as [c m v p]; cbn in Hm; subst m; destruct c; reflexivity.
  - apply Forall_cons_iff in Hall; destruct Hall as [Hg Hgs].
    destruct (@import_exported_gate_exact st g Hg) as [ps E]; [|exact Hm|].
    { intros cls p a ->; apply (Hev cls p a); left; reflexivity. }
    cbn [map foldM]; rewrite E; cbn [bind].
    destruct (IH (mkImport (append_gate (im_circ st) g) [] (im_valid st) ps) Hgs)
      as [ps' E']; [|reflexivity|].
    { intros cls p a Hin; apply (Hev cls p a); right; exact Hin. }
    exists ps'; rewrite E'; cbn [im_circ im_valid]; unfold append_gate.
    cbn [set_gates gates num shots tomo openqasm measures].
    rewrite <- app_assoc; reflexivity.
Qed.

Lemma import_measure_line_exact st kv :
  import_line py_eval st (measure_line kv)
  = Some (mkImport
            (set_measures (im_circ st)
               (dict_set (Z.abs (fst kv)) (Z.abs (snd kv)) (measures (im_circ st))))
            (im_measured st ++ [Z.abs (fst kv)]) (im_valid st) (im_paras st)).
Proof.
  assert (Hs : split_space (measure_line kv)
               = (lit "measure",
                  Some (lit "q[" ++ fmt_d (fst kv) ++ lit "] -> meas["
                            ++ fmt_d (snd kv) ++ lit "];"))) by reflexivity.
  assert (Ho : operands (lit "q[" ++ fmt_d (fst kv) ++ lit "] -> meas["
                            ++ fmt_d (snd kv) ++ lit "];")
               = [Z.abs (fst kv); Z.abs (snd kv)]).
  { change (lit "q[" ++ fmt_d (fst kv) ++ lit "] -> meas[" ++ fmt_d (snd kv) ++ lit "];")
      with ("q"%char :: "["%char :: fmt_d (fst kv)
              ++ lit "] -> meas[" ++ fmt_d (snd kv) ++ lit "];").
    rewrite !operands_skip by reflexivity.
    rewrite operands_fmt_d by reflexivity.
    change (lit "] -> meas[" ++ fmt_d (snd kv) ++ lit "];")
      with ("]"%char :: " "%char :: "-"%char :: ">"%char :: " "%char :: "m"%char
              :: "e"%char :: "a"%char :: "s"%char :: "["%char
              :: fmt_d (snd kv) ++ lit "];").
    rewrite !operands_skip by reflexivity.
    rewrite operands_fmt_d by reflexivity; reflexivity. }
  unfold import_line; destruct (measure_line kv) as [|ch l] eqn:E; [discriminate|].
  rewrite Hs; cbv iota beta.
  replace (text_eqb (lit "measure") (lit "qreg")) with false by reflexivity.
  replace (text_eqb (lit "measure") (lit "creg")) with false by reflexivity.
  replace (text_eqb (lit "measure") (lit "measure")) with true by reflexivity.
  cbn [bind]; rewrite Ho; reflexivity.
Qed.

Lemma import_measure_lines_exact ms : forall st,
  exists measured,
    import_lines py_eval st (map measure_line ms)
    = Some (mkImport
              (set_measures (im_circ st)
                 (fold_left (fun d kv => dict_set (Z.abs (fst kv)) (Z.abs (snd kv)) d)
                            ms (measures (im_circ st))))
              measured (im_valid st) (im_paras st)).
Proof.
  unfold import_lines; induction ms as [|kv ms IH]; intros st.
  - exists (im_measured st); destruct st as [c m v p]; destruct c; reflexivity.
  - cbn [map foldM]; rewrite import_measure_line_exact; cbn [bind].
    destruct (IH (mkImport
                    (set_measures (im_circ st)
                       (dict_set (Z.abs (fst kv)) (Z.abs (snd kv)) (measures (im_circ st))))
                    (im_measured st ++ [Z.abs (fst kv)]) (im_valid st) (im_paras st)))
      as [measured E].
    exists measured; rewrite E; reflexivity.
Qed.

(** X12: when the circuit has no negative number in it, its measurement
    map has each key once, and each rotation angle is printed as one word
    that evaluates back to the angle, not zero, then importing the exported
    text gives back the qubit count, the gate list and the measurement
    map, stores the text, and reports no invalid operation; only an empty
    measurement map comes back as the map of all qubits. *)
Theorem qasm_roundtrip_exact (c c0 : QuantumCircuit) :
  Forall (exportable float_str py_eval) (gates c) ->
  (forall cls p a, In (ParaSingleQubitGate cls p a) (gates c) ->
                   py_eval (float_str a) = Some a) ->
  (0 <= num c)%Z ->
  NoDup (dict_keys (measures c)) ->
  Forall (fun kv => (0 <= fst kv)%Z /\ (0 <= snd kv)%Z) (measures c) ->
  from_openqasm py_eval c0 (to_openqasm float_str c)
  = Some (mkCircuit (num c) (shots c0) (tomo c0) (gates c) (to_openqasm float_str c)
                    (match measures c with
                     | [] => dict_zip (zrange 0 (num c)) (zrange 0 (num c))
                     | _ :: _ => measures c
                     end),
          true).
Proof.
  intros Hg Hev Hnum Hnd Hpos; unfold from_openqasm.
  rewrite (splitlines_to_openqasm _ Hg); unfold qasm_lines.
  cbn [app skipn]; unfold import_lines; cbn [foldM].
  rewrite import_qreg_line; cbn [bind].
  rewrite import_creg_line; cbn [bind].
  rewrite foldM_app.
  set (st0 := with_circ _ _).
  destruct (@import_exported_gates_exact (gates c) st0 Hg Hev eq_refl) as [ps E1].
  unfold import_lines in E1; rewrite E1; cbn [bind].
  match goal with
  | |- context [foldM _ (map measure_line _) ?s] =>
      destruct (import_measure_lines_exact (measures c) s) as [measured E2]
  end.
  unfold import_lines in E2; rewrite E2; cbn [bind].
  cbn [im_circ im_valid set_measures set_gates measures num shots tomo openqasm gates
       st0 with_circ set_num set_openqasm app].
  rewrite (@fold_dict_set_abs _ _ Hpos), (@dict_fold_distinct _ Hnd), Z.abs_eq by exact Hnum.
  destruct (measures c); reflexivity.
Qed.

End RoundTripExact.

Lemma qasm_roundtrip_exact_witness :
  from_openqasm (fun _ => Some 2.5%float) (new_circuit 0)
    (to_openqasm (fun _ => lit "2.5")
       (fst (measure (barrier (cnot (rx (h (new_circuit 3) 0) 1 2.5%float) 0 1) [0; 2]%Z)
                     [2; 0]%Z 1000 [4; 1]%Z false)))
  = Some (mkCircuit 3 1000 false
            [FixedSingleQubitGate HGate 0; ParaSingleQubitGate RXGate 1 2.5%float;
             FixedTwoQubitGate CXGate 0 1; Barrier [0; 2]%Z]
            (to_openqasm (fun _ => lit "2.5")
               (fst (measure (barrier (cnot (rx (h (new_circuit 3) 0) 1 2.5%float) 0 1)
                                      [0; 2]%Z)
                             [2; 0]%Z 1000 [4; 1]%Z false)))
            [(2, 4); (0, 1)]%Z,
          true).
Proof.
  apply (@qasm_roundtrip_exact (fun _ => lit "2.5") (fun _ => Some 2.5%float)
           (fst (measure (barrier (cnot (rx (h (new_circuit 3) 0) 1 2.5%float) 0 1) [0; 2]%Z)
                         [2; 0]%Z 1000 [4; 1]%Z false))
           (new_circuit 0)).
  - change (Forall (exportable (fun _ => lit "2.5") (fun _ => Some 2.5%float))
                   [FixedSingleQubitGate HGate 0; ParaSingleQubitGate RXGate 1 2.5%float;
                    FixedTwoQubitGate CXGate 0 1; Barrier [0; 2]%Z]).
    repeat constructor; try (cbv; discriminate).
    exists 2.5%float; split; reflexivity.
  - intros cls p a H.
    change (In (ParaSingleQubitGate cls p a)
               [FixedSingleQubitGate HGate 0; ParaSingleQubitGate RXGate 1 2.5%float;
                FixedTwoQubitGate CXGate 0 1; Barrier [0; 2]%Z]) in H.
    cbn [In] in H.
    repeat (destruct H as [H|H]; [inversion H; reflexivity|]); contradiction.
  - cbv; discriminate.
  - change (NoDup [2; 0]%Z); repeat constructor; cbn [In]; intuition discriminate.
  - change (Forall (fun kv : Z * Z => (0 <= fst kv)%Z /\ (0 <= snd kv)%Z) [(2, 4); (0, 1)]%Z).
    repeat constructor; cbv; discriminate.
Defined.

(** ** The scheduler: when it returns, and what the layout holds *)

Lemma py_index_empty j : py_index 0 j = None.
Proof.
  unfold py_index; cbn [Z.of_nat Z.opp].
  destruct (Z.leb_spec 0 j), (Z.ltb_spec j 0); cbn [andb]; try reflexivity; lia.
Qed.

Lemma place_gate_empty used g : place_gate ([], used) g = None.
Proof.
  assert (Hspan : forall b, place_span g b ([], used) = None).
  { intros b; unfold place_span.
    destruct (py_min (gate_pos g)); cbn [bind]; [|reflexivity].
    destruct (py_max (gate_pos g)); cbn [bind]; [|reflexivity].
    unfold append_to; cbn [length]; rewrite py_index_empty; reflexivity. }
  destruct g; cbn [place_gate fst snd]; try apply Hspan;
    unfold append_to; cbn [length]; rewrite py_index_empty; reflexivity.
Qed.

Lemma layered_circuit_no_wire c : (num c <= 0)%Z -> layered_circuit c = None.
Proof.
  intros Hn; unfold layered_circuit, place_gates.
  replace (Z.to_nat (num c)) with 0 by lia; cbn [repeat].
  destruct (gates c) as [|g gs]; [reflexivity|].
  cbn [foldM]; rewrite place_gate_empty; reflexivity.
Qed.

(** X13: on a register without qubits the scheduler raises, whatever the
    gates are: the first gate fails on its wire, and without gates
    [max] of an empty list does. *)
Theorem layered_circuit_empty_register (c : QuantumCircuit) :
  (num c <= 0)%Z -> layered_circuit c = None /\ get_used_qubits c = None.
Proof.
  intros Hn; unfold get_used_qubits; rewrite (layered_circuit_no_wire _ Hn).
  split; reflexivity.
Qed.

Lemma layered_circuit_empty_register_witness :
  layered_circuit (h (new_circuit 0) 0) = None
  /\ get_used_qubits (h (new_circuit 0) 0) = None.
Proof. apply layered_circuit_empty_register; cbv; discriminate. Defined.

Lemma used_after_iff g used a :
  In a (used_after g used) <-> In a used \/ In a (used_positions g).
Proof.
  destruct g as [cls p|cls p t|cls p0 p1|ps]; cbn [used_after used_positions gate_pos].
  - rewrite mark_used_In; cbn [In]; intuition.
  - rewrite mark_used_In; cbn [In]; intuition.
  - rewrite fold_mark_used_In; reflexivity.
  - cbn [In]; intuition.
Qed.

Lemma fold_used_iff gs : forall used a,
  In a (fold_left (fun u g => used_after g u) gs used)
  <-> In a used \/ exists g, In g gs /\ In a (used_positions g).
Proof.
  induction gs as [|g gs IH]; intros used a; cbn [fold_left].
  - split; [auto | intros [H|[g [[] _]]]; exact H].
  - rewrite IH, used_after_iff; split.
    + intros [[H|H]|[g' [Hg Ha]]]; [left; exact H | | ].
      * right; exists g; split; [left; reflexivity | exact H].
      * right; exists g'; split; [right; exact Hg | exact Ha].
    + intros [H|[g' [[->|Hg] Ha]]].
      * left; left; exact H.
      * left; right; exact Ha.
      * right; exists g'; split; assumption.
Qed.

(** What [used_qubits] holds when the scheduler returns. *)
Lemma layered_circuit_used c l us :
  layered_circuit c = Some (l, us) ->
  StronglySorted Z.lt us
  /\ Forall (in_register (num c)) us
  /\ forall a, In a us <-> In a (dict_keys (measures c))
                          \/ exists g, In g (gates c) /\ In a (used_positions g).
Proof.
  intros H; destruct (layered_circuit_inv _ H) as [q [used0 [d [Hp [Hd [Hus [Hrows _]]]]]]].
  assert (Hlen : length q = Z.to_nat (num c)).
  { unfold place_gates in Hp; apply place_gates_length in Hp; cbn [fst] in Hp.
    rewrite Hp, repeat_length; reflexivity. }
  split; [rewrite Hrows; apply filter_seq_sorted|]; split.
  - apply Forall_forall; intros v Hv; rewrite Hrows in Hv.
    apply in_map_iff in Hv; destruct Hv as [r [<- Hr]].
    apply filter_In in Hr; destruct Hr as [Hr _]; apply in_seq in Hr.
    split; lia.
  - intros a; unfold place_gates in Hp; apply place_gates_used in Hp.
    rewrite Hus; split.
    + intros Ha; eapply Permutation_in in Ha; [|apply np_sort_perm].
      apply fold_mark_used_In in Ha; destruct Ha as [Ha|Ha]; [|left; exact Ha].
      rewrite Hp in Ha; apply fold_used_iff in Ha; destruct Ha as [[]|Ha]; right; exact Ha.
    + intros Ha; eapply Permutation_in; [apply Permutation_sym, np_sort_perm|].
      apply fold_mark_used_In; destruct Ha as [Ha|Ha]; [right; exact Ha|].
      left; rewrite Hp; apply fold_used_iff; right; exact Ha.
Qed.

(** X14: the list that [get_used_qubits] returns is strictly ascending and
    holds exactly the measured qubits and the positions of the single- and
    two-qubit gates; the positions of a barrier do not count. *)
Theorem get_used_qubits_spec (c : QuantumCircuit) (us : list Z) :
  get_used_qubits c = Some us ->
  StronglySorted Z.lt us
  /\ forall a, In a us <-> In a (dict_keys (measures c))
                          \/ exists g, In g (gates c) /\ In a (used_positions g).
Proof.
  unfold get_used_qubits; destruct (layered_circuit c) as [[l us']|] eqn:E; [|discriminate].
  intros H; inversion H; subst us'.
  destruct (layered_circuit_used _ E) as [Hs [_ Hin]]; split; assumption.
Qed.

Lemma get_used_qubits_spec_witness :
  StronglySorted Z.lt [0; 2]%Z
  /\ forall a,
      In a [0; 2]%Z
      <-> In a (dict_keys (measures (fst (measure (barrier (h (new_circuit 4) 2) [1; 3]%Z)
                                                  [0]%Z 1000 [] false))))
          \/ exists g,
            In g (gates (fst (measure (barrier (h (new_circuit 4) 2) [1; 3]%Z)
                                      [0]%Z 1000 [] false)))
            /\ In a (used_positions g).
Proof.
  apply (@get_used_qubits_spec
           (fst (measure (barrier (h (new_circuit 4) 2) [1; 3]%Z) [0]%Z 1000 [] false))).
  reflexivity.
Defined.

(** X15: a circuit without barriers has a layout exactly when its register
    is not empty and every gate position and every measured qubit lies in
    the register. *)
Theorem layered_circuit_defined_iff (c : QuantumCircuit) :
  Forall (fun g => is_barrier g = false) (gates c) ->
  ((exists l us, layered_circuit c = Some (l, us)) <-> wf_circuit c).
Proof.
  intros Hnb; split; [|apply layered_circuit_total].
  intros [l [us H]]; destruct (layered_circuit_used _ H) as [_ [Hreg Hin]].
  rewrite Forall_forall in Hreg, Hnb.
  split; [|split].
  - destruct (Z.ltb_spec 0 (num c)) as [|Hle]; [assumption|].
    rewrite (layered_circuit_no_wire _ Hle) in H; discriminate.
  - apply Forall_forall; intros g Hg; specialize (Hnb g Hg); split.
    + destruct g; cbn; discriminate.
    + apply Forall_forall; intros p Hp; apply Hreg, Hin; right.
      exists g; split; [exact Hg|]; destruct g; try exact Hp; discriminate.
  - apply Forall_forall; intros m Hm; apply Hreg, Hin; left; exact Hm.
Qed.

Lemma layered_circuit_defined_iff_witness :
  (exists l us, layered_circuit (cnot (h (new_circuit 2) 0) 0 5) = Some (l, us))
  <-> wf_circuit (cnot (h (new_circuit 2) 0) 0 5).
Proof.
  apply layered_circuit_defined_iff.
  repeat constructor.
Defined.

(** ** The scheduler: gates per wire and depth *)

Lemma wire_gates_app w1 w2 : wire_gates (w1 ++ w2) = wire_gates w1 ++ wire_gates w2.
Proof. apply flat_map_app. Qed.

Lemma wire_gates_placeholders k : wire_gates (repeat None k) = [].
Proof. induction k; [reflexivity | exact IHk]. Qed.

Lemma wire_gates_span_row m v w :
  wire_gates (span_row m v w)
  = wire_gates w ++ match v with Some g => [g] | None => [] end.
Proof.
  unfold span_row; rewrite !wire_gates_app, wire_gates_placeholders.
  destruct v; reflexivity.
Qed.

Lemma row_gates_slots w : row_gates (map Slot w) = wire_gates w.
Proof.
  induction w as [|e w IH]; [reflexivity|].
  cbn [map]; change (row_gates (Slot e :: map Slot w))
    with ((match e with Some g => [g] | None => [] end) ++ row_gates (map Slot w)).
  rewrite IH; reflexivity.
Qed.

(** The span branch on a gate inside the register, with the layer that
    the gate gets: one more than the longest wire of the span. *)
Lemma place_span_layer g is_two q used :
  wf_gate (Z.of_nat (length q)) g ->
  exists lo hi m,
    py_min (gate_pos g) = Some (Z.of_nat lo)
    /\ lo <= hi < length q
    /\ (forall i, lo <= i <= hi -> length (nth i q []) < m)
    /\ (exists i, lo <= i <= hi /\ m = S (length (nth i q [])))
    /\ place_span g is_two (q, used)
       = Some (span_fill lo hi m g q,
               if is_two then fold_left mark_used (gate_pos g) used else used).
Proof.
  intros Hwf; destruct (@span_bounds _ _ Hwf) as [lo [hi [Hmin [Hmax Hb]]]].
  set (v := fun i : nat => if i =? lo then Some g else @None gate).
  set (q2 := map_range lo (S hi) (fun i w => w ++ [v i]) q).
  assert (Hq2 : forall i, lo <= i <= hi ->
                          length (nth i q2 []) = S (length (nth i q []))).
  { intros i Hi; unfold q2; rewrite nth_map_range.
    destruct (Nat.leb_spec lo i), (Nat.ltb_spec i (S hi)), (Nat.ltb_spec i (length q));
      try lia; simpl.
    rewrite length_app; simpl; lia. }
  assert (Hlens : mapM (wire_len q2) (zrange (Z.of_nat lo) (Z.of_nat hi + 1))
                  = Some (map (fun j => length (nth (Z.to_nat j) q2 []))
                              (zrange (Z.of_nat lo) (Z.of_nat hi + 1)))).
  { apply mapM_wire_len, Forall_forall; intros j Hj; apply in_zrange in Hj.
    unfold q2; rewrite length_map_range; split; lia. }
  destruct (max_len (map (fun j => length (nth (Z.to_nat j) q2 []))
                         (zrange (Z.of_nat lo) (Z.of_nat hi + 1)))) as [m|] eqn:Hm.
  2:{ rewrite zrange_cons in Hm by lia; discriminate. }
  assert (Hle : forall i, lo <= i <= hi -> length (nth i q2 []) <= m).
  { intros i Hi; eapply max_len_ge; [exact Hm|].
    apply in_map_iff; exists (Z.of_nat i); rewrite Nat2Z.id; split; [reflexivity|].
    apply in_zrange; lia. }
  exists lo, hi, m; repeat split; try lia; try assumption.
  { intros i Hi; pose proof (Hle i Hi); rewrite Hq2 in * by exact Hi; lia. }
  { apply max_len_in in Hm; apply in_map_iff in Hm; destruct Hm as [j [Hj Hin]].
    apply in_zrange in Hin; exists (Z.to_nat j); split; [lia|].
    rewrite <- Hj; apply Hq2; lia. }
  unfold place_span; rewrite Hmin, Hmax; cbn [bind].
  unfold append_to at 1; rewrite py_index_in_register by (split; lia); cbn [bind].
  rewrite Nat2Z.id.
  rewrite (foldM_ext _ (row_op (fun w => w ++ [None]))) by reflexivity.
  replace (Z.of_nat hi + 1)%Z with (Z.of_nat lo + 1 + Z.of_nat (hi - lo))%Z at 1 by lia.
  rewrite foldM_row_range by (rewrite ?length_update_row; lia); cbn [bind].
  replace (Z.to_nat (Z.of_nat lo + 1)) with (S lo) by lia.
  replace (S lo + (hi - lo)) with (S hi) by lia.
  assert (E2 : map_range (S lo) (S hi) (fun _ w => w ++ [None])
                         (update_row lo (fun w => w ++ [Some g]) q) = q2).
  { unfold q2; rewrite <- (@map_range_step _ lo (S hi) (fun i w => w ++ [v i])) by lia.
    replace (v lo) with (Some g) by (unfold v; rewrite Nat.eqb_refl; reflexivity).
    apply map_range_ext with (d := []); intros i Hi _.
    unfold v; destruct (Nat.eqb_spec i lo); [lia | reflexivity]. }
  rewrite E2, Hlens; cbn [bind]; rewrite Hm; cbn [bind].
  rewrite (foldM_ext _ (row_op (justify_row m))) by (intros; apply justify_row_op).
  replace (Z.of_nat hi + 1)%Z with (Z.of_nat lo + Z.of_nat (S hi - lo))%Z by lia.
  rewrite foldM_row_range by (unfold q2; rewrite ?length_map_range; lia); cbn [bind].
  rewrite Nat2Z.id; replace (lo + (S hi - lo)) with (S hi) by lia.
  f_equal; f_equal.
  unfold q2, span_fill; rewrite map_range_compose.
  apply map_range_ext with (d := []); intros i Hi Hlt.
  apply justify_row_snoc.
  assert (Hi' : lo <= i <= hi) by lia.
  pose proof (Hle i Hi') as H; rewrite (Hq2 i Hi') in H; exact H.
Qed.

(** What [span_fill] does to a wire. *)
Lemma span_fill_wire lo hi m g q i :
  lo <= hi < length q -> i < length q ->
  (forall k, lo <= k <= hi -> length (nth k q []) < m) ->
  wire_gates (nth i (span_fill lo hi m g q) [])
  = wire_gates (nth i q []) ++ (if i =? lo then [g] else [])
  /\ length (nth i (span_fill lo hi m g q) [])
     = if (lo <=? i) && (i <=? hi) then m else length (nth i q []).
Proof.
  intros Hb Hi Hm; unfold span_fill; rewrite nth_map_range.
  destruct (Nat.leb_spec lo i), (Nat.ltb_spec i (S hi)), (Nat.ltb_spec i (length q)),
    (Nat.leb_spec i hi); try lia; cbn [andb].
  - rewrite wire_gates_span_row, length_span_row by (apply Hm; lia).
    destruct (i =? lo); split; reflexivity.
  - destruct (Nat.eqb_spec i lo); [lia|]; rewrite app_nil_r; split; reflexivity.
  - destruct (Nat.eqb_spec i lo); [lia|]; rewrite app_nil_r; split; reflexivity.
Qed.

(** One iteration of the gate loop on a gate inside the register: the gate
    is added to its wire, behind what was there, no other wire gets a
    gate, and no wire becomes longer than one more than the longest. *)
Lemma place_gate_step q used g :
  wf_gate (Z.of_nat (length q)) g ->
  exists q',
    place_gate (q, used) g = Some (q', used_after g used)
    /\ length q' = length q
    /\ (forall i, i < length q ->
                  wire_gates (nth i q' [])
                  = wire_gates (nth i q []) ++ (if on_wire (Z.of_nat i) g then [g] else []))
    /\ (forall B, (forall i, length (nth i q []) <= B) ->
                  forall i, length (nth i q' []) <= S B).
Proof.
  intros Hwf.
  assert (Hsingle : forall p, in_register (Z.of_nat (length q)) p ->
            gate_wire g = Some p ->
            exists q',
              append_to (Some g) q p = Some q'
              /\ length q' = length q
              /\ (forall i, i < length q ->
                    wire_gates (nth i q' [])
                    = wire_gates (nth i q []) ++ (if on_wire (Z.of_nat i) g then [g] else []))
              /\ (forall B, (forall i, length (nth i q []) <= B) ->
                            forall i, length (nth i q' []) <= S B)).
  { intros p Hp Hw; unfold append_to; rewrite (@py_index_in_register _ _ Hp); cbn [bind].
    eexists; split; [reflexivity|]; split; [apply length_update_row|]; split.
    - intros i Hi; rewrite nth_update_row; unfold on_wire; rewrite Hw.
      destruct Hp as [Hp0 Hp1].
      destruct (Nat.eqb_spec i (Z.to_nat p)), (Z.eqb_spec p (Z.of_nat i)),
        (Nat.ltb_spec i (length q)); try lia; cbn [andb].
      + rewrite wire_gates_app; reflexivity.
      + rewrite app_nil_r; reflexivity.
    - intros B HB i; rewrite nth_update_row; specialize (HB i).
      destruct ((i =? Z.to_nat p) && (i <? length q)); [rewrite length_app; cbn|]; lia. }
  assert (Hspan : forall b, gate_wire g = py_min (gate_pos g) ->
            exists q',
              place_span g b (q, used)
              = Some (q', if b then fold_left mark_used (gate_pos g) used else used)
              /\ length q' = length q
              /\ (forall i, i < length q ->
                    wire_gates (nth i q' [])
                    = wire_gates (nth i q []) ++ (if on_wire (Z.of_nat i) g then [g] else []))
              /\ (forall B, (forall i, length (nth i q []) <= B) ->
                            forall i, length (nth i q' []) <= S B)).
  { intros b Hw; destruct (place_span_layer b q used Hwf)
      as [lo [hi [m [Hmin [Hb [Hlt [[i0 [Hi0 Hm]] H]]]]]]].
    exists (span_fill lo hi m g q); split; [exact H|].
    split; [apply length_map_range|]; split.
    - intros i Hi; destruct (@span_fill_wire lo hi m g q i Hb Hi Hlt) as [Hg _]; rewrite Hg.
      unfold on_wire; rewrite Hw, Hmin.
      destruct (Nat.eqb_spec i lo), (Z.eqb_spec (Z.of_nat lo) (Z.of_nat i)); try lia;
        reflexivity.
    - intros B HB i; destruct (Nat.ltb_spec i (length q)) as [Hi|Hi].
      + destruct (@span_fill_wire lo hi m g q i Hb Hi Hlt) as [_ Hl]; rewrite Hl.
        destruct ((lo <=? i) && (i <=? hi)); [|specialize (HB i); lia].
        rewrite Hm; specialize (HB i0); lia.
      + rewrite nth_overflow by (unfold span_fill; rewrite length_map_range; lia); cbn; lia. }
  destruct g as [cls p|cls p a|cls p0 p1|ps].
  - destruct Hwf as [_ Hp]; inversion Hp as [|? ? Hin _]; subst.
    destruct (Hsingle p Hin eq_refl) as [q' [E [Hl [Hg Hd]]]].
    exists q'; cbn [place_gate fst snd used_after]; rewrite E; cbn [bind].
    repeat split; assumption.
  - destruct Hwf as [_ Hp]; inversion Hp as [|? ? Hin _]; subst.
    destruct (Hsingle p Hin eq_refl) as [q' [E [Hl [Hg Hd]]]].
    exists q'; cbn [place_gate fst snd used_after]; rewrite E; cbn [bind].
    repeat split; assumption.
  - exact (Hspan true eq_refl).
  - exact (Hspan false eq_refl).
Qed.

Lemma place_gates_step gs : forall q used,
  Forall (wf_gate (Z.of_nat (length q))) gs ->
  exists q' used',
    foldM place_gate gs (q, used) = Some (q', used')
    /\ length q' = length q
    /\ (forall i, i < length q ->
                  wire_gates (nth i q' [])
                  = wire_gates (nth i q []) ++ filter (on_wire (Z.of_nat i)) gs)
    /\ (forall B, (forall i, length (nth i q []) <= B) ->
                  forall i, length (nth i q' []) <= length gs + B).
Proof.
  induction gs as [|g gs IH]; intros q used H; cbn [foldM].
  - exists q, used; repeat split; [|intros B HB i; apply HB].
    intros i _; cbn [filter]; rewrite app_nil_r; reflexivity.
  - apply Forall_cons_iff in H; destruct H as [Hg Hgs].
    destruct (place_gate_step q used Hg) as [q1 [E1 [L1 [G1 D1]]]].
    rewrite E1; cbn [bind].
    destruct (IH q1 (used_after g used)) as [q2 [u2 [E2 [L2 [G2 D2]]]]];
      [rewrite L1; exact Hgs|].
    exists q2, u2; split; [exact E2|]; split; [congruence|]; split.
    + intros i Hi; rewrite G2 by (rewrite L1; exact Hi); rewrite G1 by exact Hi.
      cbn [filter]; destruct (on_wire (Z.of_nat i) g); rewrite <- app_assoc; reflexivity.
    + intros B HB i; pose proof (D2 (S B) (D1 B HB) i); cbn [length]; lia.
Qed.

(** The wires after the gate loop of a well-formed circuit. *)
Lemma place_gates_wires c :
  wf_circuit c ->
  exists q used,
    place_gates c = Some (q, used)
    /\ length q = Z.to_nat (num c)
    /\ (forall i, i < length q ->
                  wire_gates (nth i q []) = filter (on_wire (Z.of_nat i)) (gates c))
    /\ (forall i, length (nth i q []) <= length (gates c)).
Proof.
  intros Hwf; pose proof (wf_register Hwf) as Hn; destruct Hwf as [Hnum [Hg _]].
  destruct (@place_gates_step (gates c) (repeat [] (Z.to_nat (num c))) [])
    as [q [used [E [L [G D]]]]]; [rewrite Hn; exact Hg|].
  assert (Hnil : forall i, nth i (repeat (@nil (option gate)) (Z.to_nat (num c))) [] = []).
  { intros i; destruct (Nat.ltb_spec i (Z.to_nat (num c))).
    - apply nth_repeat_lt; assumption.
    - apply nth_overflow; rewrite repeat_length; assumption. }
  exists q, used; split; [exact E|]; rewrite repeat_length in L.
  split; [exact L|]; split.
  - intros i Hi; rewrite G by (rewrite repeat_length; lia); rewrite Hnil; reflexivity.
  - intros i; assert (H0 : forall k, length (nth k (repeat (@nil (option gate))
                                                        (Z.to_nat (num c))) []) <= 0)
      by (intros k; rewrite Hnil; apply Nat.le_refl).
    pose proof (D 0 H0 i); lia.
Qed.

Lemma wire_gates_pad d w : wire_gates (pad_wire d w) = wire_gates w.
Proof.
  unfold pad_wire; rewrite wire_gates_app, wire_gates_placeholders, app_nil_r; reflexivity.
Qed.

Lemma length_wire_gates w : length (wire_gates w) <= length w.
Proof.
  induction w as [|e w IH]; [apply Nat.le_refl|].
  change (wire_gates (e :: w))
    with ((match e with Some g => [g] | None => [] end) ++ wire_gates w).
  rewrite length_app; destruct e; cbn [length]; lia.
Qed.

Lemma gate_wire_used g :
  is_barrier g = false -> gate_pos g <> [] ->
  exists p, gate_wire g = Some p /\ In p (used_positions g).
Proof.
  intros Hb Hne; destruct g as [cls p|cls p a|cls p0 p1|ps]; try discriminate.
  - exists p; split; [reflexivity | left; reflexivity].
  - exists p; split; [reflexivity | left; reflexivity].
  - cbn [gate_wire used_positions gate_pos py_min].
    eexists; split; [reflexivity|].
    exact (proj1 (fold_min_spec [p1] p0)).
Qed.

(** The layout of a well-formed circuit, read back. *)
Lemma layered_circuit_rows c l us :
  wf_circuit c -> layered_circuit c = Some (l, us) ->
  exists d,
    d <= length (gates c)
    /\ forall qb, In qb us ->
         exists w, layout_row l qb = Some (Qubit qb :: map Slot w)
                   /\ length w = d
                   /\ wire_gates w = filter (on_wire qb) (gates c).
Proof.
  intros Hwf H; destruct (layered_circuit_inv _ H) as [q [used0 [d [Hp [Hd [_ [Hrows Hl]]]]]]].
  destruct (place_gates_wires Hwf) as [q' [used' [Hp' [Hlen [Hg Hdepth]]]]].
  rewrite Hp in Hp'; inversion Hp'; subst q' used'; clear Hp'.
  exists d; split.
  { apply max_len_in in Hd; apply in_map_iff in Hd; destruct Hd as [w [<- Hw]].
    destruct (In_nth _ _ [] Hw) as [i [_ <-]]; apply Hdepth. }
  intros qb Hqb.
  assert (Hi : (0 <= qb)%Z /\ Z.to_nat qb < length q).
  { rewrite Hrows in Hqb; apply in_map_iff in Hqb; destruct Hqb as [r [<- Hr]].
    apply filter_In in Hr; destruct Hr as [Hr _]; apply in_seq in Hr.
    rewrite Nat2Z.id; lia. }
  destruct Hi as [Hq0 Hi].
  exists (pad_wire d (nth (Z.to_nat qb) q [])); split; [|split].
  - rewrite Hl.
    apply (layout_row_found
             (fun v => map Slot (pad_wire d (nth (Z.to_nat v) q []))) us qb Hqb).
  - apply length_pad_wire; eapply max_len_ge; [exact Hd|].
    apply in_map, nth_In; exact Hi.
  - rewrite wire_gates_pad, Hg by exact Hi; rewrite Z2Nat.id by exact Hq0; reflexivity.
Qed.

(** X16: in the layout of a well-formed circuit the row of a used qubit
    holds, placeholders apart, the gates whose wire it is -- the position
    of a single-qubit gate, the lowest position of a two-qubit gate or a
    barrier -- each once and in program order; every single- and two-qubit
    gate has its wire among the rows. *)
Theorem layout_rows_hold_gates
        (c : QuantumCircuit) (l : list (list cell)) (us : list Z) :
  wf_circuit c -> layered_circuit c = Some (l, us) ->
  (forall qb, In qb us ->
     exists row, layout_row l qb = Some row
                 /\ row_gates row = filter (on_wire qb) (gates c))
  /\ (forall g, In g (gates c) -> is_barrier g = false ->
        exists qb, In qb us /\ on_wire qb g = true).
Proof.
  intros Hwf H; destruct (layered_circuit_rows Hwf H) as [d [_ Hrow]]; split.
  - intros qb Hqb; destruct (Hrow qb Hqb) as [w [Hr [_ Hg]]].
    eexists; split; [exact Hr|].
    change (row_gates (Qubit qb :: map Slot w)) with (row_gates (map Slot w)).
    rewrite row_gates_slots; exact Hg.
  - intros g Hg Hnb; destruct (layered_circuit_used _ H) as [_ [_ Hin]].
    destruct Hwf as [_ [Hgs _]]; rewrite Forall_forall in Hgs.
    destruct (Hgs g Hg) as [Hne _].
    destruct (@gate_wire_used g Hnb Hne) as [p [Hw Hp]].
    exists p; split; [apply Hin; right; exists g; split; assumption|].
    unfold on_wire; rewrite Hw; apply Z.eqb_refl.
Qed.

(** X17: the layout of a well-formed circuit has at most as many layer
    columns as the circuit has gates, and at least as many as any used
    qubit's wire has gates. *)
Theorem layout_depth_bounds
        (c : QuantumCircuit) (l : list (list cell)) (us : list Z) :
  wf_circuit c -> layered_circuit c = Some (l, us) ->
  layout_depth l <= length (gates c)
  /\ forall qb, In qb us -> length (filter (on_wire qb) (gates c)) <= layout_depth l.
Proof.
  intros Hwf H; destruct (layered_circuit_rows Hwf H) as [d [Hd Hrow]].
  assert (Hdepth : us <> [] -> layout_depth l = d).
  { intros Hne; destruct us as [|u us]; [congruence|].
    destruct (Hrow u (or_introl eq_refl)) as [w [Hr [Hw _]]].
    destruct (layered_circuit_inv _ H) as [q [used0 [d' [_ [_ [_ [_ Hl]]]]]]].
    rewrite Hl in Hr |- *; cbn [map layout_row find] in Hr |- *.
    rewrite Z.eqb_refl in Hr; inversion Hr as [Hw'].
    unfold layout_depth; cbn [hd length]; rewrite Hw', length_map, Hw; lia. }
  split.
  - destruct us as [|u us]; [|rewrite Hdepth by discriminate; exact Hd].
    destruct (layered_circuit_inv _ H) as [q [used0 [d' [_ [_ [_ [_ Hl]]]]]]].
    rewrite Hl; cbn; lia.
  - intros qb Hqb; destruct (Hrow qb Hqb) as [w [_ [Hw Hg]]].
    rewrite Hdepth by (intros ->; contradiction).
    rewrite <- Hg, <- Hw; apply length_wire_gates.
Qed.

Lemma layout_rows_hold_gates_witness :
  (forall qb, In qb [0; 1; 2]%Z ->
     exists row,
       layout_row
         [[Qubit 0; Slot None; Slot (Some (FixedTwoQubitGate CXGate 2 0)); Slot None;
           Slot None];
          [Qubit 1; Slot None; Slot None; Slot (Some (FixedSingleQubitGate ZGate 1));
           Slot (Some (Barrier [1; 2]%Z))];
          [Qubit 2; Slot (Some (FixedSingleQubitGate HGate 2)); Slot None; Slot None;
           Slot None]] qb = Some row
       /\ row_gates row
          = filter (on_wire qb)
                   (gates (barrier (z (cnot (h (new_circuit 3) 2) 2 0) 1) [1; 2]%Z)))
  /\ (forall g,
        In g (gates (barrier (z (cnot (h (new_circuit 3) 2) 2 0) 1) [1; 2]%Z)) ->
        is_barrier g = false ->
        exists qb, In qb [0; 1; 2]%Z /\ on_wire qb g = true).
Proof.
  apply (@layout_rows_hold_gates (barrier (z (cnot (h (new_circuit 3) 2) 2 0) 1) [1; 2]%Z)).
  - split; [reflexivity|]; split.
    + repeat constructor; try discriminate; cbv; discriminate.
    + repeat constructor; cbv; discriminate.
  - reflexivity.
Defined.

Lemma layout_depth_bounds_witness :
  layout_depth
    [[Qubit 0; Slot None; Slot (Some (FixedTwoQubitGate CXGate 2 0)); Slot None; Slot None];
     [Qubit 1; Slot None; Slot None; Slot (Some (FixedSingleQubitGate ZGate 1));
      Slot (Some (Barrier [1; 2]%Z))];
     [Qubit 2; Slot (Some (FixedSingleQubitGate HGate 2)); Slot None; Slot None; Slot None]]
  <= length (gates (barrier (z (cnot (h (new_circuit 3) 2) 2 0) 1) [1; 2]%Z))
  /\ forall qb, In qb [0; 1; 2]%Z ->
       length (filter (on_wire qb)
                      (gates (barrier (z (cnot (h (new_circuit 3) 2) 2 0) 1) [1; 2]%Z)))
       <= layout_depth
            [[Qubit 0; Slot None; Slot (Some (FixedTwoQubitGate CXGate 2 0)); Slot None;
              Slot None];
             [Qubit 1; Slot None; Slot None; Slot (Some (FixedSingleQubitGate ZGate 1));
              Slot (Some (Barrier [1; 2]%Z))];
             [Qubit 2; Slot (Some (FixedSingleQubitGate HGate 2)); Slot None; Slot None;
              Slot None]].
Proof.
  apply (@layout_depth_bounds (barrier (z (cnot (h (new_circuit 3) 2) 2 0) 1) [1; 2]%Z)
           _ [0; 1; 2]%Z).
  - split; [reflexivity|]; split.
    + repeat constructor; try discriminate; cbv; discriminate.
    + repeat constructor; cbv; discriminate.
  - reflexivity.
Defined.

(** ** Running on the device *)

Lemma update_row_append (a : nat) (x y : list gate) (hp : list (list gate)) :
  update_row a (fun l => l ++ y) (update_row a (fun l => l ++ x) hp)
  = update_row a (fun l => l ++ x ++ y) hp.
Proof.
  revert a; induction hp as [|r hp IH]; intros [|a]; cbn [update_row]; try reflexivity.
  - rewrite <- app_assoc; reflexivity.
  - rewrite IH; reflexivity.
Qed.

Lemma update_row_append_nil (a : nat) (hp : list (list gate)) :
  update_row a (fun l => l ++ []) hp = hp.
Proof. apply update_row_fix with (d := []); intros _; apply app_nil_r. Qed.

Lemma nth_update_row_append (a : nat) (x : list gate) (hp : list (list gate)) :
  a < length hp -> nth a (update_row a (fun l => l ++ x) hp) [] = nth a hp [] ++ x.
Proof.
  intros H; rewrite nth_update_row, Nat.eqb_refl.
  destruct (Nat.ltb_spec a (length hp)); [reflexivity | lia].
Qed.

Lemma to_openqasm_gates float_str c c' :
  num c = num c' -> gates c = gates c' -> measures c = measures c' ->
  to_openqasm float_str c = to_openqasm float_str c'.
Proof.
  intros Hn Hg Hm; unfold to_openqasm, qasm_header; rewrite Hn, Hg, Hm; reflexivity.
Qed.

(** The loop of [run] appends the gates of the measurement base to the
    list that [self.gates] names. *)
Lemma for_each_basis_change l : forall w,
  for_each l basis_change w
  = Return tt (mkWorld (update_row (o_gates (self w))
                                   (fun gs => gs ++ basis_gates (map fst l, map snd l))
                                   (heap w))
                       (self w) (posted w)).
Proof.
  unfold basis_gates; cbn [fst snd]; induction l as [|[b p] l IH]; intros w.
  - cbn [for_each map combine flat_map]; rewrite update_row_append_nil.
    destruct w; reflexivity.
  - cbn [for_each map combine flat_map]; unfold bindM.
    assert (E : basis_change (b, p) w
                = Return tt (mkWorld
                               (update_row (o_gates (self w))
                                  (fun gs => gs ++ (if Ascii.eqb b "X"
                                                    then [ParaSingleQubitGate RYGate p
                                                            (- pi / 2)%float]
                                                    else if Ascii.eqb b "Y"
                                                         then [ParaSingleQubitGate RXGate p
                                                                 (pi / 2)%float]
                                                         else []))
                                  (heap w))
                               (self w) (posted w))).
    { unfold basis_change; cbn [fst snd].
      destruct (Ascii.eqb b "X"); [reflexivity|].
      destruct (Ascii.eqb b "Y"); [reflexivity|].
      rewrite update_row_append_nil; destruct w; reflexivity. }
    rewrite E, IH; cbn [heap self posted].
    rewrite update_row_append; reflexivity.
Qed.

Section DeviceFacts.

Variable float_str : float -> text.
Variable response : Type.
Variable post : request -> response.
Variable stat : response -> Z.
Variable observable : Type.
Variable merge_measure : list (text * list Z) -> list (text * list Z) * list Z.
Variable calculate_obs : ExecResult response -> list nat -> observable.

(** X18: [set_backend] takes any name; with a name that is not one of
    the three of [send]'s table, [send] raises KeyError after it has stored
    the exported text and before anything is posted. *)
Theorem send_unknown_backend (backend : text) (compile : bool) (w : world) :
  ~ In backend (map fst backends) ->
  exists w',
    (_ <~ set_backend backend ;; send float_str post stat compile) w = Raise "KeyError" w'
    /\ posted w' = posted w
    /\ heap w' = heap w
    /\ o_openqasm (self w') = to_openqasm float_str (circuit_of w)
    /\ o_backend (self w') = backend.
Proof.
  intros Hb; unfold bindM, set_backend, send; cbn [self heap posted].
  cbn [set_o_compile set_o_openqasm set_o_backend o_backend].
  assert (E : lookup backend backends = None).
  { unfold backends in *; cbn [map fst In] in Hb; cbn [lookup].
    rewrite !text_eqb_neq by (intros E; apply Hb; rewrite E; tauto).
    reflexivity. }
  rewrite E; eexists; split; [reflexivity|]; cbn [self heap posted o_openqasm o_backend].
  repeat split.
Qed.

Lemma collect_keeps {X Y} (f : X -> M Y) l :
  (forall v w, world_of (f v w) = w) -> forall w, world_of (collect l f w) = w.
Proof.
  intros Hf; induction l as [|v l IH]; intros w; [reflexivity|].
  cbn [collect]; unfold bindM.
  pose proof (Hf v w) as H1; destruct (f v w) as [r w1|e w1]; cbn [world_of] in H1; subst w1;
    [|reflexivity].
  pose proof (IH w) as H2; destruct (collect l f w) as [rs w2|e w2]; cbn [world_of] in H2;
    subst w2; reflexivity.
Qed.

Lemma observe_keeps measures exec_res obslist targlist obi w :
  world_of (observe calculate_obs measures exec_res obslist targlist obi w) = w.
Proof.
  unfold observe.
  destruct (nth_error obslist obi); [|reflexivity].
  destruct (nth_error targlist obi); [|reflexivity].
  destruct (py_index _ _); [|reflexivity].
  destruct (nth_error exec_res _); reflexivity.
Qed.

(** X19: [submit_task] with an observable on a qubit that is not measured
    raises CircuitError at once: nothing is posted and the circuit is as
    before. *)
Theorem submit_task_unmeasured
        (obslist : list (text * list Z)) (compile : bool) (w : world)
        (obs : text * list Z) (p : Z) :
  In obs obslist -> In p (snd obs) -> ~ In p (dict_keys (o_measures (self w))) ->
  submit_task float_str post stat merge_measure calculate_obs obslist compile w
  = Raise "CircuitError" w.
Proof.
  intros Hobs Hp Hm; unfold submit_task.
  destruct obslist as [|o obslist]; [contradiction|].
  destruct (forallb _ (o :: obslist)) eqn:E; [exfalso|reflexivity].
  rewrite forallb_forall in E; specialize (E obs Hobs).
  rewrite forallb_forall in E; specialize (E p Hp).
  apply existsb_Zeqb_In in E; contradiction.
Qed.

(** One run of the loop of [submit_task] when the server accepts. *)
Lemma run_reset_step (mb : text * list Z) (compile : bool) (w : world) server :
  lookup (o_backend (self w)) backends = Some server ->
  (forall r, stat (post r) <> 5002%Z /\ stat (post r) <> 5001%Z) ->
  o_gates (self w) < length (heap w) ->
  exists res w',
    (res <~ run float_str post stat (Some mb) compile ;;
     _ <~ (fun w0 => Return tt (mkWorld (heap w0) (set_o_gates (self w0) (o_gates (self w)))
                                        (posted w0))) ;;
     ret res) w = Return res w'
    /\ self_gates w' = self_gates w ++ basis_gates mb
    /\ posted w'
       = posted w
           ++ [mkRequest (to_openqasm float_str
                            (set_gates (circuit_of w) (self_gates w ++ basis_gates mb)))
                         (o_shots (self w)) (o_num (self w)) 0
                         (int_of_bool (o_tomo (self w))) server (int_of_bool compile)]
    /\ o_gates (self w') = o_gates (self w)
    /\ o_backend (self w') = o_backend (self w)
    /\ o_num (self w') = o_num (self w)
    /\ o_shots (self w') = o_shots (self w)
    /\ o_tomo (self w') = o_tomo (self w)
    /\ o_measures (self w') = o_measures (self w)
    /\ length (heap w') = length (heap w).
Proof.
  intros Hb Hs Ha; destruct mb as [bases pos].
  unfold run, bindM; rewrite for_each_basis_change.
  unfold send; cbn [self heap posted set_o_compile set_o_openqasm o_backend o_gates
                    o_shots o_num o_tomo o_compile o_openqasm o_measures].
  rewrite Hb.
  match goal with
  | |- context [stat (post ?r)] => destruct (Hs r) as [H2 H1]
  end.
  apply Z.eqb_neq in H2, H1; rewrite H2, H1.
  assert (Eg : basis_gates (map fst (combine bases pos), map snd (combine bases pos))
               = basis_gates (bases, pos)).
  { unfold basis_gates; cbn [fst snd]; rewrite combine_fst_snd; reflexivity. }
  rewrite Eg.
  eexists; eexists; split; [reflexivity|].
  unfold self_gates; cbn [self heap posted set_o_gates o_gates o_backend o_num o_shots
                          o_tomo o_measures].
  rewrite nth_update_row_append by exact Ha.
  repeat split; try apply length_update_row.
  do 2 f_equal; f_equal.
  apply to_openqasm_gates; unfold circuit_of, self_gates; cbn [num gates measures self heap
    set_gates]; try reflexivity.
  apply nth_update_row_append; exact Ha.
Qed.

Lemma collect_runs (compile : bool) server inputs measure_basis : forall w,
  o_gates (self w) = inputs ->
  lookup (o_backend (self w)) backends = Some server ->
  (forall r, stat (post r) <> 5002%Z /\ stat (post r) <> 5001%Z) ->
  o_gates (self w) < length (heap w) ->
  exists rs w',
    collect measure_basis
      (fun mb =>
         res <~ run float_str post stat (Some mb) compile ;;
         _ <~ (fun w0 => Return tt (mkWorld (heap w0) (set_o_gates (self w0) inputs)
                                            (posted w0))) ;;
         ret res) w = Return rs w'
    /\ self_gates w' = self_gates w ++ concat (map basis_gates measure_basis)
    /\ map qtasm (posted w')
       = map qtasm (posted w)
           ++ map (fun gs => to_openqasm float_str (set_gates (circuit_of w) gs))
                  (accumulated (self_gates w) measure_basis).
Proof.
  induction measure_basis as [|mb bs IH]; intros w Hi Hb Hs Ha.
  - exists [], w; split; [reflexivity|]; cbn [map concat accumulated].
    rewrite !app_nil_r; split; reflexivity.
  - cbn [collect]; unfold bindM at 1.
    destruct (run_reset_step mb compile w Hb Hs Ha)
      as [res [w1 [E1 [G1 [P1 [A1 [B1 [N1 [S1 [T1 [M1 L1]]]]]]]]]]].
    subst inputs; rewrite E1.
    assert (Ha1 : o_gates (self w1) < length (heap w1)) by (rewrite A1, L1; exact Ha).
    assert (Hb1 : lookup (o_backend (self w1)) backends = Some server)
      by (rewrite B1; exact Hb).
    destruct (IH w1 A1 Hb1 Hs Ha1) as [rs [w2 [E2 [G2 P2]]]].
    cbv beta iota; unfold bindM at 1; rewrite E2.
    exists (res :: rs), w2; split; [reflexivity|].
    split.
    + rewrite G2, G1; cbn [map concat]; rewrite app_assoc; reflexivity.
    + rewrite P2, P1, map_app; cbn [map qtasm accumulated]; rewrite <- app_assoc.
      cbn [app]; rewrite G1; do 2 f_equal.
      apply map_ext; intros gs; apply to_openqasm_gates; unfold circuit_of;
        cbn [num gates measures set_gates]; congruence.
Qed.

(** X20: [submit_task] does not put the gate list back between the runs:
    [inputs] names the list that [run] appends to.  When all observables
    are on measured qubits and the server accepts every request, the text
    posted for a measurement base holds the basis rotations of all the
    bases before it as well, and afterwards the circuit holds the rotations
    of all bases. *)
Theorem submit_task_accumulates
        (obslist : list (text * list Z)) (compile : bool) (w : world)
        (measure_basis : list (text * list Z)) (targlist : list Z) (server : Z) :
  obslist <> [] ->
  (forall obs p, In obs obslist -> In p (snd obs) ->
                 In p (dict_keys (o_measures (self w)))) ->
  merge_measure obslist = (measure_basis, targlist) ->
  lookup (o_backend (self w)) backends = Some server ->
  (forall r, stat (post r) <> 5002%Z /\ stat (post r) <> 5001%Z) ->
  o_gates (self w) < length (heap w) ->
  let w' := world_of (submit_task float_str post stat merge_measure calculate_obs
                                  obslist compile w) in
  self_gates w' = self_gates w ++ concat (map basis_gates measure_basis)
  /\ map qtasm (posted w')
     = map qtasm (posted w)
         ++ map (fun gs => to_openqasm float_str (set_gates (circuit_of w) gs))
                (accumulated (self_gates w) measure_basis).
Proof.
  intros Hne Hobs Hmm Hb Hs Ha w'.
  destruct (@collect_runs compile server (o_gates (self w)) measure_basis w eq_refl Hb Hs Ha)
    as [rs [w1 [E [G P]]]].
  assert (Hw : w' = w1).
  { subst w'; unfold submit_task.
    destruct obslist as [|o obslist]; [congruence|].
    replace (forallb _ (o :: obslist)) with true.
    2:{ symmetry; apply forallb_forall; intros obs Ho.
        apply forallb_forall; intros p Hp; apply existsb_Zeqb_In; eapply Hobs; eassumption. }
    rewrite Hmm; unfold bindM at 1; rewrite E; unfold bindM.
    match goal with
    | |- context [collect ?l ?f w1] =>
        pose proof (@collect_keeps _ _ f l
                      (fun v w0 => observe_keeps _ rs (o :: obslist) targlist v w0) w1) as K;
        destruct (collect l f w1) as [ms w2|e w2]; cbn [world_of] in K; subst w2
    end; reflexivity. }
  rewrite Hw; split; assumption.
Qed.

End DeviceFacts.
Lemma send_unknown_backend_witness :
  exists w',
    (_ <~ set_backend (lit "ScQ-P30") ;;
     send (fun _ => lit "0.5") (fun _ : request => 0%Z) (fun z => z) true)
      (new_object [] 2)
    = Raise "KeyError" w'
    /\ posted w' = posted (new_object [] 2)
    /\ heap w' = heap (new_object [] 2)
    /\ o_openqasm (self w')
       = to_openqasm (fun _ => lit "0.5") (circuit_of (new_object [] 2))
    /\ o_backend (self w') = lit "ScQ-P30".
Proof.
  apply (@send_unknown_backend (fun _ => lit "0.5") Z (fun _ => 0%Z) (fun z => z)
           (lit "ScQ-P30") true (new_object [] 2)).
  cbn [backends map fst In]; intros H.
  repeat (destruct H as [H|H]; [discriminate H|]); exact H.
Defined.

Lemma submit_task_unmeasured_witness :
  submit_task (fun _ => lit "0.5") (fun _ : request => 0%Z) (fun z => z)
              (fun obslist => (obslist, [0%Z])) (fun _ _ => tt)
              [(lit "Z", [3%Z])] true (new_object [] 2)
  = Raise "CircuitError" (new_object [] 2).
Proof.
  apply (@submit_task_unmeasured (fun _ => lit "0.5") Z (fun _ => 0%Z) (fun z => z) unit
           (fun obslist => (obslist, [0%Z])) (fun _ _ => tt)
           [(lit "Z", [3%Z])] true (new_object [] 2) (lit "Z", [3%Z]) 3%Z).
  - left; reflexivity.
  - left; reflexivity.
  - cbv; intros H; repeat (destruct H as [H|H]; [discriminate H|]); exact H.
Defined.

Lemma submit_task_accumulates_witness :
  let w' := world_of (submit_task (fun _ => lit "1.57") (fun _ : request => 0%Z) (fun z => z)
                                  (fun obslist => (obslist, [0; 1]%Z)) (fun _ _ => tt)
                                  [(lit "X", [0%Z]); (lit "Y", [0%Z])] true
                                  (new_object [] 1)) in
  self_gates w'
  = self_gates (new_object [] 1)
      ++ concat (map basis_gates [(lit "X", [0%Z]); (lit "Y", [0%Z])])
  /\ map qtasm (posted w')
     = map qtasm (posted (new_object [] 1))
         ++ map (fun gs => to_openqasm (fun _ => lit "1.57")
                                       (set_gates (circuit_of (new_object [] 1)) gs))
                (accumulated (self_gates (new_object [] 1))
                             [(lit "X", [0%Z]); (lit "Y", [0%Z])]).
Proof.
  apply (@submit_task_accumulates (fun _ => lit "1.57") Z (fun _ => 0%Z) (fun z => z) unit
           (fun obslist => (obslist, [0; 1]%Z)) (fun _ _ => tt)
           [(lit "X", [0%Z]); (lit "Y", [0%Z])] true (new_object [] 1)
           [(lit "X", [0%Z]); (lit "Y", [0%Z])] [0; 1]%Z 0%Z).
  - discriminate.
  - intros obs p [<-|[<-|[]]] [<-|[]]; left; reflexivity.
  - reflexivity.
  - reflexivity.
  - intros r; split; discriminate.
  - cbn; lia.
Defined.

(** ** The scheduler: barriers on unused qubits, single-qubit circuits *)

(** Every row of the layout of a well-formed circuit is the row of a used
    qubit and holds the gates of that qubit's wire. *)
Lemma layered_circuit_each_row c l us row :
  wf_circuit c -> layered_circuit c = Some (l, us) -> In row l ->
  exists qb, In qb us /\ row_gates row = filter (on_wire qb) (gates c).
Proof.
  intros Hwf H Hrow.
  destruct (layered_circuit_inv _ H) as [q [used0 [d [Hp [Hd [_ [Hrows Hl]]]]]]].
  destruct (place_gates_wires Hwf) as [q' [used' [Hp' [Hlen [Hg _]]]]].
  rewrite Hp in Hp'; inversion Hp'; subst q' used'; clear Hp'.
  rewrite Hl in Hrow; apply in_map_iff in Hrow; destruct Hrow as [qb [<- Hqb]].
  exists qb; split; [exact Hqb|].
  assert (Hi : (0 <= qb)%Z /\ Z.to_nat qb < length q).
  { rewrite Hrows in Hqb; apply in_map_iff in Hqb; destruct Hqb as [r [<- Hr]].
    apply filter_In in Hr; destruct Hr as [Hr _]; apply in_seq in Hr.
    rewrite Nat2Z.id; lia. }
  destruct Hi as [Hq0 Hi].
  change (row_gates (Qubit qb :: map Slot (pad_wire d (nth (Z.to_nat qb) q []))))
    with (row_gates (map Slot (pad_wire d (nth (Z.to_nat qb) q [])))).
  rewrite row_gates_slots, wire_gates_pad, Hg by exact Hi.
  rewrite Z2Nat.id by exact Hq0; reflexivity.
Qed.

(** X21: a barrier whose lowest qubit carries no single- or two-qubit gate
    and is not measured is in no row of the layout: the row that would hold
    it is not among the rows kept. *)
Theorem barrier_on_unused_qubit_dropped
        (c : QuantumCircuit) (l : list (list cell)) (us : list Z) (ps : list Z) (qb : Z) :
  wf_circuit c -> layered_circuit c = Some (l, us) ->
  In (Barrier ps) (gates c) -> py_min ps = Some qb ->
  ~ In qb (dict_keys (measures c)) ->
  (forall g, In g (gates c) -> ~ In qb (used_positions g)) ->
  Forall (fun row => ~ In (Barrier ps) (row_gates row)) l.
Proof.
  intros Hwf H _ Hmin Hm Hg; apply Forall_forall; intros row Hrow Hin.
  destruct (layered_circuit_each_row _ Hwf H Hrow) as [qb' [Hqb' Hrg]].
  rewrite Hrg in Hin; apply filter_In in Hin; destruct Hin as [_ Hon].
  unfold on_wire in Hon; cbn [gate_wire gate_pos] in Hon; rewrite Hmin in Hon.
  apply Z.eqb_eq in Hon; subst qb'.
  destruct (layered_circuit_used _ H) as [_ [_ Hus]].
  apply Hus in Hqb'; destruct Hqb' as [Hk|[g [Hgin Hp]]]; [exact (Hm Hk)|].
  exact (Hg g Hgin Hp).
Qed.

Lemma barrier_on_unused_qubit_dropped_witness :
  Forall (fun row => ~ In (Barrier [1; 2]%Z) (row_gates row))
         [[Qubit 0; Slot (Some (FixedSingleQubitGate HGate 0))]].
Proof.
  apply (@barrier_on_unused_qubit_dropped
           (fst (measure (barrier (h (new_circuit 3) 0) [1; 2]%Z) [0]%Z 1000 [] false))
           _ [0]%Z [1; 2]%Z 1%Z).
  - split; [reflexivity|]; split.
    + repeat constructor; try discriminate; cbv; discriminate.
    + repeat constructor; cbv; discriminate.
  - reflexivity.
  - right; left; reflexivity.
  - reflexivity.
  - cbv; intros [H|[]]; discriminate H.
  - intros g [<-|[<-|[]]]; cbv; [intros [H|[]]; discriminate H | intros []].
Defined.

(** Single-qubit gates only: each wire is the list of its gates. *)
Lemma place_singles gs : forall q used,
  Forall (wf_gate (Z.of_nat (length q))) gs ->
  forallb is_single gs = true ->
  exists q' used',
    foldM place_gate gs (q, used) = Some (q', used')
    /\ length q' = length q
    /\ forall i, i < length q ->
                 nth i q' [] = nth i q [] ++ map Some (filter (on_wire (Z.of_nat i)) gs).
Proof.
  induction gs as [|g gs IH]; intros q used Hwf Hs; cbn [foldM].
  - exists q, used; repeat split; intros i _; cbn [filter map]; rewrite app_nil_r; reflexivity.
  - apply Forall_cons_iff in Hwf; destruct Hwf as [Hg Hgs].
    cbn [forallb] in Hs; apply andb_prop in Hs; destruct Hs as [Hsg Hsgs].
    assert (Hstep : exists p,
               gate_wire g = Some p /\ in_register (Z.of_nat (length q)) p
               /\ place_gate (q, used) g
                  = Some (update_row (Z.to_nat p) (fun w => w ++ [Some g]) q,
                          mark_used used p)).
    { destruct g as [cls p|cls p a|cls p0 p1|ps]; try discriminate;
        destruct Hg as [_ Hp]; inversion Hp as [|? ? Hin _]; subst;
        exists p; (split; [reflexivity|]); (split; [exact Hin|]);
        cbn [place_gate fst snd]; unfold append_to;
        rewrite (@py_index_in_register _ _ Hin); reflexivity. }
    destruct Hstep as [p [Hw [[Hp0 Hp1] E]]]; rewrite E; cbn [bind].
    destruct (IH (update_row (Z.to_nat p) (fun w => w ++ [Some g]) q) (mark_used used p))
      as [q2 [u2 [E2 [L2 G2]]]]; [rewrite length_update_row; exact Hgs | exact Hsgs|].
    rewrite length_update_row in L2, G2.
    exists q2, u2; split; [exact E2|]; split; [exact L2|].
    intros i Hi; rewrite (G2 i Hi), nth_update_row; cbn [filter]; unfold on_wire at 2.
    rewrite Hw.
    destruct (Nat.eqb_spec i (Z.to_nat p)), (Z.eqb_spec p (Z.of_nat i)),
      (Nat.ltb_spec i (length q)); try lia; cbn [andb map].
    + rewrite <- app_assoc; reflexivity.
    + reflexivity.
Qed.

(** X22: in a well-formed circuit of single-qubit gates the row of a used
    qubit is the qubit index, then the gates on that qubit in program order
    without a gap, then placeholders up to the depth. *)
Theorem single_qubit_layout
        (c : QuantumCircuit) (l : list (list cell)) (us : list Z) (qb : Z) :
  wf_circuit c -> forallb is_single (gates c) = true ->
  layered_circuit c = Some (l, us) -> In qb us ->
  exists k,
    layout_row l qb
    = Some (Qubit qb :: map (fun g => Slot (Some g)) (filter (on_wire qb) (gates c))
                     ++ repeat (Slot None) k).
Proof.
  intros Hwf Hs H Hqb.
  destruct (layered_circuit_inv _ H) as [q [used0 [d [Hp [Hd [_ [Hrows Hl]]]]]]].
  pose proof (wf_register Hwf) as Hn; pose proof Hwf as [_ [Hg _]].
  destruct (@place_singles (gates c) (repeat [] (Z.to_nat (num c))) [])
    as [q' [used' [E [L G]]]]; [rewrite Hn; exact Hg | exact Hs|].
  unfold place_gates in Hp; rewrite Hp in E; inversion E; subst q' used'; clear E.
  rewrite repeat_length in L, G.
  assert (Hi : (0 <= qb)%Z /\ Z.to_nat qb < Z.to_nat (num c)).
  { rewrite Hrows in Hqb; apply in_map_iff in Hqb; destruct Hqb as [r [<- Hr]].
    apply filter_In in Hr; destruct Hr as [Hr _]; apply in_seq in Hr.
    rewrite Nat2Z.id; lia. }
  destruct Hi as [Hq0 Hi].
  exists (d - length (nth (Z.to_nat qb) q [])).
  rewrite Hl, (layout_row_found
                 (fun v => map Slot (pad_wire d (nth (Z.to_nat v) q []))) us qb Hqb).
  do 2 f_equal; unfold pad_wire; rewrite map_app, map_repeat; f_equal.
  rewrite (G _ Hi), nth_repeat_lt by exact Hi; cbn [app].
  rewrite map_map, Z2Nat.id by exact Hq0; reflexivity.
Qed.

Lemma single_qubit_layout_witness :
  exists k,
    layout_row [[Qubit 0; Slot (Some (FixedSingleQubitGate XGate 0)); Slot None];
                [Qubit 1; Slot (Some (FixedSingleQubitGate HGate 1));
                 Slot (Some (FixedSingleQubitGate ZGate 1))]] 1
    = Some (Qubit 1 :: map (fun g => Slot (Some g))
                           (filter (on_wire 1) (gates (z (x (h (new_circuit 2) 1) 0) 1)))
                    ++ repeat (Slot None) k).
Proof.
  apply (@single_qubit_layout (z (x (h (new_circuit 2) 1) 0) 1) _ [0; 1]%Z 1%Z).
  - split; [reflexivity|]; split.
    + repeat constructor; try discriminate; cbv; discriminate.
    + repeat constructor; cbv; discriminate.
  - reflexivity.
  - reflexivity.
  - right; left; reflexivity.
Defined.

(** ** Import: the parameters of a statement *)

Section ImportParameters.

Variable py_eval : text -> option float.

Lemma split_space_rotation cls k :
  split_space (lower (rotation_gate_name cls) ++ lit " q[" ++ fmt_d k ++ lit "];")
  = (lower (rotation_gate_name cls), Some (lit "q[" ++ fmt_d k ++ lit "];")).
Proof.
  change (lit " q[" ++ fmt_d k ++ lit "];")
    with (" "%char :: lit "q[" ++ fmt_d k ++ lit "];").
  apply split_space_word; destruct cls; reflexivity.
Qed.

Lemma operands_one_qubit k : operands (lit "q[" ++ fmt_d k ++ lit "];") = [Z.abs k].
Proof.
  replace (lit "q[" ++ fmt_d k ++ lit "];") with (qubit_ref k ++ lit ";")
    by (unfold qubit_ref; repeat rewrite <- app_assoc; reflexivity).
  rewrite operands_qubit_ref; reflexivity.
Qed.

Lemma measured_operand (measured : list Z) k :
  ~ In k measured -> existsb (fun pos => existsb (Z.eqb pos) measured) [k] = false.
Proof.
  intros H; cbn [existsb]; rewrite orb_false_r.
  destruct (existsb (Z.eqb k) measured) eqn:E; [|reflexivity].
  apply existsb_Zeqb_In in E; contradiction.
Qed.

(** X23: a rotation statement without a parameter list takes the
    parameters of the last statement that had one: the local [paras] is
    not reset between statements.  When no statement before it had a
    parameter list the import raises (UnboundLocalError), and so it does
    on a text whose first statement is such a one. *)
Theorem import_rotation_without_angle
        (st : import_state) (cls : rotation_name) (k : Z)
        (c : QuantumCircuit) (src : text) (post : list text) :
  ~ In (Z.abs k) (im_measured st) ->
  import_line py_eval st
    (lower (rotation_gate_name cls) ++ lit " q[" ++ fmt_d k ++ lit "];")
  = match im_paras st with
    | Some (a :: _) =>
        Some (mkImport (rotation cls (im_circ st) (Z.abs k) a)
                       (im_measured st) (im_valid st) (im_paras st))
    | _ => None
    end
  /\ (skipn 2 (splitlines src)
      = (lower (rotation_gate_name cls) ++ lit " q[" ++ fmt_d k ++ lit "];") :: post ->
      from_openqasm py_eval c src = None).
Proof.
  intros Hm.
  assert (E : forall s, ~ In (Z.abs k) (im_measured s) ->
            import_line py_eval s
              (lower (rotation_gate_name cls) ++ lit " q[" ++ fmt_d k ++ lit "];")
            = match im_paras s with
              | Some (a :: _) =>
                  Some (mkImport (rotation cls (im_circ s) (Z.abs k) a)
                                 (im_measured s) (im_valid s) (im_paras s))
              | _ => None
              end).
  { intros s Hs; unfold import_line.
    destruct (lower (rotation_gate_name cls) ++ lit " q[" ++ fmt_d k ++ lit "];") eqn:El;
      [destruct cls; discriminate El|].
    rewrite <- El, split_space_rotation; cbv iota beta.
    rewrite !text_eqb_neq by (destruct cls; cbv; discriminate).
    cbn [bind]; unfold import_gate.
    rewrite operands_one_qubit, (@measured_operand _ _ Hs).
    rewrite text_eqb_neq by (destruct cls; cbv; discriminate).
    replace (split_on "(" (lower (rotation_gate_name cls)))
      with [lower (rotation_gate_name cls)] by (destruct cls; reflexivity).
    cbn [bind]; rewrite apply_gate_rotation; cbn [nth_error bind].
    destruct (im_paras s) as [[|t ps]|]; reflexivity. }
  split; [apply E; exact Hm|].
  intros Hsrc; unfold from_openqasm, import_lines; rewrite Hsrc; cbn [foldM].
  rewrite E by (cbn; tauto); reflexivity.
Qed.

End ImportParameters.

Lemma import_rotation_without_angle_witness :
  import_line (fun _ => Some 0.5%float)
    (mkImport (rx (new_circuit 2) 0 0.5%float) [] true (Some [0.5%float]))
    (lower (rotation_gate_name RYGate) ++ lit " q[" ++ fmt_d 1 ++ lit "];")
  = Some (mkImport (rotation RYGate (rx (new_circuit 2) 0 0.5%float) (Z.abs 1) 0.5%float)
                   [] true (Some [0.5%float]))
  /\ (skipn 2 (splitlines (lit "OPENQASM 2.0;" ++ [nl] ++ lit "include qelib1.inc;" ++ [nl]
                               ++ lit "ry q[1];" ++ [nl]))
      = (lower (rotation_gate_name RYGate) ++ lit " q[" ++ fmt_d 1 ++ lit "];") :: [] ->
      from_openqasm (fun _ => Some 0.5%float) (new_circuit 2)
        (lit "OPENQASM 2.0;" ++ [nl] ++ lit "include qelib1.inc;" ++ [nl]
             ++ lit "ry q[1];" ++ [nl]) = None).
Proof.
  apply (@import_rotation_without_angle (fun _ => Some 0.5%float)
           (mkImport (rx (new_circuit 2) 0 0.5%float) [] true (Some [0.5%float]))
           RYGate 1%Z (new_circuit 2)).
  intros [].
Defined.


(** ** Import: statements with a parameter list *)

Lemma strip_parens_inner t :
  (forall c, In c t -> is_paren c = false) -> strip_parens (t ++ lit ")") = t.
Proof.
  intros Hp; unfold strip_parens.
  assert (E1 : lstrip is_paren (t ++ lit ")") = t ++ lit ")" \/ t = []).
  { destruct t as [|c t]; [right; reflexivity | left].
    apply lstrip_keep; intros c' E; inversion E; subst; apply Hp; left; reflexivity. }
  destruct E1 as [E1 | ->]; [|reflexivity].
  rewrite E1, rev_app_distr; cbn [lit list_ascii_of_string rev app lstrip].
  replace (is_paren ")"%char) with true by reflexivity.
  rewrite lstrip_keep; [apply rev_involutive|].
  intros c E; apply Hp, in_rev.
  destruct (rev t); inversion E; subst; left; reflexivity.
Qed.

Lemma split_on_join ts :
  ts <> [] -> Forall (fun t => forallb para_char_ok t = true) ts ->
  split_on "," (join (lit ",") ts) = ts.
Proof.
  induction ts as [|t ts IH]; intros Hne Hall; [congruence|].
  apply Forall_cons_iff in Hall; destruct Hall as [Ht Hts].
  destruct ts as [|t' ts]; [apply split_on_comma; exact Ht|].
  change (join (lit ",") (t :: t' :: ts)) with (t ++ ","%char :: join (lit ",") (t' :: ts)).
  pose proof (para_text_parts _ Ht) as [_ [_ [_ Hc]]].
  rewrite (split_on_app _ Hc); cbn [split_on].
  replace (Ascii.eqb "," ",") with true by reflexivity.
  rewrite IH by (discriminate || exact Hts); rewrite app_nil_r; reflexivity.
Qed.

Lemma join_no_paren ts c :
  Forall (fun t => forallb para_char_ok t = true) ts ->
  In c (join (lit ",") ts) -> is_paren c = false.
Proof.
  induction ts as [|t ts IH]; intros Hall Hc; [contradiction|].
  apply Forall_cons_iff in Hall; destruct Hall as [Ht Hts].
  assert (Hin : forall x, In x t -> is_paren x = false).
  { intros x Hx; rewrite forallb_forall in Ht; specialize (Ht x Hx).
    unfold para_char_ok in Ht; apply negb_true_iff in Ht.
    apply orb_false_iff in Ht; destruct Ht as [Ht _].
    apply orb_false_iff in Ht; destruct Ht as [_ Ht]; exact Ht. }
  destruct ts as [|t' ts]; [apply Hin; exact Hc|].
  change (join (lit ",") (t :: t' :: ts)) with (t ++ ","%char :: join (lit ",") (t' :: ts))
    in Hc.
  apply in_app_or in Hc; destruct Hc as [Hc|[<-|Hc]];
    [apply Hin; exact Hc | reflexivity | apply IH; assumption].
Qed.

Section ImportParameterList.

Variable py_eval : text -> option float.

(** A statement [name(t1,...,tn) q[k];] reaches the dispatch with the
    values of the parameter texts and the qubit. *)
Lemma import_parametrized st gatename ts vs k :
  gatename <> [] -> free_of " " gatename -> free_of "(" gatename ->
  ~ In gatename [lit "qreg"; lit "creg"; lit "measure"; lit "barrier"] ->
  ts <> [] -> Forall (fun t => forallb para_char_ok t = true) ts ->
  mapM py_eval ts = Some vs ->
  ~ In (Z.abs k) (im_measured st) ->
  import_line py_eval st
    (gatename ++ lit "(" ++ join (lit ",") ts ++ lit ") q[" ++ fmt_d k ++ lit "];")
  = (c <- apply_gate gatename [Z.abs k] (Some vs) (im_circ st) ;;
     Some (mkImport c (im_measured st) (im_valid st) (Some vs))).
Proof.
  intros Hne Hsp Hop Hkw Hts Hok Hev Hm.
  set (ops := gatename ++ lit "(" ++ join (lit ",") ts ++ lit ")").
  assert (Hline : gatename ++ lit "(" ++ join (lit ",") ts ++ lit ") q[" ++ fmt_d k ++ lit "];"
                  = ops ++ " "%char :: lit "q[" ++ fmt_d k ++ lit "];").
  { unfold ops; repeat rewrite <- app_assoc; reflexivity. }
  assert (Hpar : forall c, In c (join (lit ",") ts) -> para_char_ok c = true
                                                      \/ c = ","%char).
  { clear - Hok; induction ts as [|t ts IH]; intros c Hc; [contradiction|].
    apply Forall_cons_iff in Hok; destruct Hok as [Ht Hts].
    destruct ts as [|t' ts].
    - left; rewrite forallb_forall in Ht; apply Ht; exact Hc.
    - change (join (lit ",") (t :: t' :: ts))
        with (t ++ ","%char :: join (lit ",") (t' :: ts)) in Hc.
      apply in_app_or in Hc; destruct Hc as [Hc|[<-|Hc]].
      + left; rewrite forallb_forall in Ht; apply Ht; exact Hc.
      + right; reflexivity.
      + apply IH; assumption. }
  assert (Hjs : free_of " " (join (lit ",") ts)).
  { unfold free_of; apply forallb_forall; intros c Hc.
    destruct (Hpar c Hc) as [H| ->]; [|reflexivity].
    unfold para_char_ok in H; apply negb_true_iff in H.
    apply orb_false_iff in H; destruct H as [H _].
    apply orb_false_iff in H; destruct H as [H _].
    apply orb_false_iff in H; destruct H as [_ H]; rewrite H; reflexivity. }
  assert (Hops : free_of " " ops).
  { unfold ops; apply free_of_app; [exact Hsp|].
    apply free_of_app; [reflexivity|]; apply free_of_app; [exact Hjs | reflexivity]. }
  assert (Hgs : gate_statement (ops ++ " "%char :: lit "q[" ++ fmt_d k ++ lit "];") ops
                               (lit "q[" ++ fmt_d k ++ lit "];")).
  { assert (Hdiff : forall w, free_of "(" w -> ops <> w).
    { intros w Hw E; unfold free_of in Hw; rewrite forallb_forall in Hw.
      assert (Hin : In "("%char ops) by (unfold ops; apply in_or_app; right; left; reflexivity).
      rewrite E in Hin; specialize (Hw _ Hin); discriminate Hw. }
    unfold gate_statement; repeat split.
    - destruct ops; discriminate.
    - apply split_space_word; exact Hops.
    - apply Hdiff; reflexivity.
    - apply Hdiff; reflexivity.
    - apply Hdiff; reflexivity. }
  rewrite Hline, (import_line_gate_statement py_eval st Hgs); unfold import_gate.
  rewrite operands_one_qubit, (@measured_operand _ _ Hm).
  rewrite text_eqb_neq.
  2:{ intros E; assert (Hin : In "("%char ops)
        by (unfold ops; apply in_or_app; right; left; reflexivity).
      rewrite E in Hin; cbn in Hin; intuition discriminate. }
  unfold ops; rewrite (split_on_app _ Hop).
  change (lit "(" ++ join (lit ",") ts ++ lit ")")
    with ("("%char :: join (lit ",") ts ++ lit ")").
  cbn [split_on]; replace (Ascii.eqb "(" "(") with true by reflexivity.
  assert (Hjp : free_of "(" (join (lit ",") ts ++ lit ")")).
  { apply free_of_app; [|reflexivity].
    unfold free_of; apply forallb_forall; intros c Hc.
    pose proof (join_no_paren _ Hok Hc) as H; unfold is_paren in H.
    apply orb_false_iff in H; destruct H as [H _]; rewrite H; reflexivity. }
  rewrite (split_on_free Hjp); rewrite app_nil_r.
  rewrite strip_parens_inner by (intros c Hc; eapply join_no_paren; eassumption).
  rewrite (split_on_join Hts Hok), Hev; reflexivity.
Qed.

(** X24: the statements [u2(phi,lam) q[k];] and [u3(theta,phi,lam) q[k];]
    on a qubit not yet measured are imported as the rotations
    [rz(lam)], [ry(pi/2)] or [ry(theta)], [rz(phi)] on [k], in this order;
    each of them is left out when its angle is zero. *)
Theorem import_u_gates
        (st : import_state) (k : Z) (t p l : text) (theta phi lam : float) :
  forallb para_char_ok t = true -> forallb para_char_ok p = true ->
  forallb para_char_ok l = true ->
  py_eval t = Some theta -> py_eval p = Some phi -> py_eval l = Some lam ->
  ~ In (Z.abs k) (im_measured st) ->
  import_line py_eval st
    (lit "u3(" ++ t ++ lit "," ++ p ++ lit "," ++ l ++ lit ") q[" ++ fmt_d k ++ lit "];")
  = Some (mkImport (rz (ry (rz (im_circ st) (Z.abs k) lam) (Z.abs k) theta) (Z.abs k) phi)
                   (im_measured st) (im_valid st) (Some [theta; phi; lam]))
  /\ import_line py_eval st
       (lit "u2(" ++ p ++ lit "," ++ l ++ lit ") q[" ++ fmt_d k ++ lit "];")
     = Some (mkImport (rz (ry (rz (im_circ st) (Z.abs k) lam) (Z.abs k) (pi / 2)%float)
                          (Z.abs k) phi)
                      (im_measured st) (im_valid st) (Some [phi; lam])).
Proof.
  intros Ht Hp Hl Et Ep El Hm; split.
  - change (lit "u3(" ++ t ++ lit "," ++ p ++ lit "," ++ l ++ lit ") q[" ++ fmt_d k ++ lit "];")
      with (lit "u3" ++ lit "(" ++ t ++ lit "," ++ p ++ lit "," ++ l
                ++ lit ") q[" ++ fmt_d k ++ lit "];").
    replace (t ++ lit "," ++ p ++ lit "," ++ l ++ lit ") q[" ++ fmt_d k ++ lit "];")
      with (join (lit ",") [t; p; l] ++ lit ") q[" ++ fmt_d k ++ lit "];")
      by (cbn [join]; repeat rewrite <- app_assoc; reflexivity).
    rewrite (@import_parametrized st (lit "u3") [t; p; l] [theta; phi; lam] k);
      try reflexivity; try discriminate.
    + cbn [In]; intros H; repeat (destruct H as [H|H]; [discriminate H|]); exact H.
    + repeat constructor; assumption.
    + cbn [mapM]; rewrite Et, Ep, El; reflexivity.
    + exact Hm.
  - change (lit "u2(" ++ p ++ lit "," ++ l ++ lit ") q[" ++ fmt_d k ++ lit "];")
      with (lit "u2" ++ lit "(" ++ p ++ lit "," ++ l ++ lit ") q[" ++ fmt_d k ++ lit "];").
    replace (p ++ lit "," ++ l ++ lit ") q[" ++ fmt_d k ++ lit "];")
      with (join (lit ",") [p; l] ++ lit ") q[" ++ fmt_d k ++ lit "];")
      by (cbn [join]; repeat rewrite <- app_assoc; reflexivity).
    rewrite (@import_parametrized st (lit "u2") [p; l] [phi; lam] k);
      try reflexivity; try discriminate.
    + cbn [In]; intros H; repeat (destruct H as [H|H]; [discriminate H|]); exact H.
    + repeat constructor; assumption.
    + cbn [mapM]; rewrite Ep, El; reflexivity.
    + exact Hm.
Qed.

End ImportParameterList.

Lemma import_u_gates_witness :
  import_line (fun s => if text_eqb s (lit "0.5") then Some 0.5%float
                        else if text_eqb s (lit "0") then Some 0%float
                             else Some 1.5%float)
    (mkImport (new_circuit 2) [] true None)
    (lit "u3(" ++ lit "0.5" ++ lit "," ++ lit "0" ++ lit "," ++ lit "1.5" ++ lit ") q["
         ++ fmt_d 1 ++ lit "];")
  = Some (mkImport (rz (ry (rz (new_circuit 2) (Z.abs 1) 1.5%float) (Z.abs 1) 0.5%float)
                       (Z.abs 1) 0%float)
                   [] true (Some [0.5%float; 0%float; 1.5%float]))
  /\ import_line (fun s => if text_eqb s (lit "0.5") then Some 0.5%float
                           else if text_eqb s (lit "0") then Some 0%float
                                else Some 1.5%float)
       (mkImport (new_circuit 2) [] true None)
       (lit "u2(" ++ lit "0" ++ lit "," ++ lit "1.5" ++ lit ") q[" ++ fmt_d 1 ++ lit "];")
     = Some (mkImport (rz (ry (rz (new_circuit 2) (Z.abs 1) 1.5%float) (Z.abs 1)
                              (pi / 2)%float) (Z.abs 1) 0%float)
                      [] true (Some [0%float; 1.5%float])).
Proof.
  apply (@import_u_gates
           (fun s => if text_eqb s (lit "0.5") then Some 0.5%float
                     else if text_eqb s (lit "0") then Some 0%float
                          else Some 1.5%float)
           (mkImport (new_circuit 2) [] true None) 1%Z
           (lit "0.5") (lit "0") (lit "1.5") 0.5%float 0%float 1.5%float);
    try reflexivity.
  intros [].
Defined.
